(** * Rekordbox library analyser: a shallow embedding of [rekordbox_analyse.py]

    The development follows the layout of the Python module:
    - [Py]        the fragment of the Python runtime the module relies on
                  (exceptions, [str] methods, floats, insertion-ordered dicts);
    - [Rekordbox] the helpers, the data model and the analysis passes,
                  one definition per source function or per loop of [analyse];
    - the properties of the passes, proved over these definitions.

    Strings are modelled as [string]; the model of the [str] methods is exact
    on ASCII text.  Floats are IEEE binary64 ([PrimFloat]), as in CPython. *)

From Stdlib Require Import String Ascii List Bool ZArith Lia Floats.
From Stdlib Require DecimalString DecimalZ.
Import ListNotations.

Local Open Scope list_scope.
Local Open Scope string_scope.

(* ===================================================================== *)
(** ** The Python runtime fragment *)
(* ===================================================================== *)

Module Py.

(** *** Exceptions *)

Inductive exn : Type :=
| ValueError
| OverflowError
| TypeError.

Inductive result (A : Type) : Type :=
| Ok (a : A)
| Raise (e : exn).

Arguments Ok {A} a.
Arguments Raise {A} e.

Definition bind {A B : Type} (c : result A) (k : A -> result B) : result B :=
  match c with
  | Ok a => k a
  | Raise e => Raise e
  end.

Notation "x <- c ;; k" := (bind c (fun x => k))
  (at level 61, c at next level, right associativity).

(** [try: body / except Exception: return handler] *)
Definition try_except {A : Type} (body : result A) (handler : A) : result A :=
  match body with
  | Ok a => Ok a
  | Raise _ => Ok handler
  end.

(** A [for] loop whose body may raise: the first exception aborts the loop. *)
Fixpoint for_each {A S : Type} (body : S -> A -> result S) (xs : list A) (s : S)
  : result S :=
  match xs with
  | [] => Ok s
  | x :: xs' => bind (body s x) (for_each body xs')
  end.

(** *** Characters and [str] methods *)

Definition code (c : ascii) : N := N_of_ascii c.

(** [str.isspace] on one character (also the class [\s] of [re]). *)
Definition is_space (c : ascii) : bool :=
  let n := code c in
  ((9 <=? n) && (n <=? 13) || (28 <=? n) && (n <=? 32))%N.

Definition is_upper (c : ascii) : bool :=
  let n := code c in ((65 <=? n) && (n <=? 90))%N.

Definition is_lower (c : ascii) : bool :=
  let n := code c in ((97 <=? n) && (n <=? 122))%N.

Definition is_digit (c : ascii) : bool :=
  let n := code c in ((48 <=? n) && (n <=? 57))%N.

Definition is_alpha (c : ascii) : bool := is_upper c || is_lower c.

Definition lower_char (c : ascii) : ascii :=
  if is_upper c then ascii_of_N (code c + 32) else c.

Definition upper_char (c : ascii) : ascii :=
  if is_lower c then ascii_of_N (code c - 32) else c.

(** [s.upper()] *)
Fixpoint upper (s : string) : string :=
  match s with
  | EmptyString => EmptyString
  | String c r => String (upper_char c) (upper r)
  end.

(** [s.lower()] *)
Fixpoint lower (s : string) : string :=
  match s with
  | EmptyString => EmptyString
  | String c r => String (lower_char c) (lower r)
  end.

(** Truth value of a [str]: non-empty. *)
Definition truthy (s : string) : bool :=
  match s with
  | EmptyString => false
  | String _ _ => true
  end.

(** [s.lstrip(chars)] and [s.rstrip(chars)], the set [chars] given by its
    membership test. *)
Fixpoint lstrip_by (p : ascii -> bool) (s : string) : string :=
  match s with
  | EmptyString => EmptyString
  | String c r => if p c then lstrip_by p r else s
  end.

Fixpoint rstrip_by (p : ascii -> bool) (s : string) : string :=
  match s with
  | EmptyString => EmptyString
  | String c r =>
      match rstrip_by p r with
      | EmptyString => if p c then EmptyString else String c EmptyString
      | r' => String c r'
      end
  end.

Definition strip_by (p : ascii -> bool) (s : string) : string :=
  rstrip_by p (lstrip_by p s).

(** [s.strip()] *)
Definition strip (s : string) : string := strip_by is_space s.

(** [s.strip(chars)] for a one-character [chars]. *)
Definition strip_char (ch : ascii) (s : string) : string :=
  strip_by (Ascii.eqb ch) s.

(** [s.startswith(p)] *)
Definition startswith (s p : string) : bool := String.prefix p s.

(** [s.endswith(p)] *)
Fixpoint endswith (s p : string) : bool :=
  String.eqb s p ||
  match s with
  | EmptyString => false
  | String _ r => endswith r p
  end.

(** [sub in s] *)
Fixpoint contains (s sub : string) : bool :=
  String.prefix sub s ||
  match s with
  | EmptyString => false
  | String _ r => contains r sub
  end.

(** [c in s] for one character. *)
Fixpoint has_char (ch : ascii) (s : string) : bool :=
  match s with
  | EmptyString => false
  | String c r => Ascii.eqb c ch || has_char ch r
  end.

(** [s.replace(old, new)] for a non-empty [old]: leftmost, non-overlapping.
    [skip] counts the characters of a matched [old] still to be dropped. *)
Fixpoint replace_from (skip : nat) (old new s : string) : string :=
  match s with
  | EmptyString => EmptyString
  | String c r =>
      match skip with
      | S k => replace_from k old new r
      | O =>
          if String.prefix old s
          then new ++ replace_from (String.length old - 1) old new r
          else String c (replace_from O old new r)
      end
  end.

Definition replace (old new s : string) : string := replace_from O old new s.

(** [sep.join(parts)] *)
Definition join (sep : string) (parts : list string) : string :=
  String.concat sep parts.

(** [str(n)] for an [int]. *)
Definition str_of_int (n : Z) : string :=
  DecimalString.NilZero.string_of_int (Z.to_int n).

(** *** Floats *)

(** Truth value of a [float]: [x != 0.0] (a NaN is true). *)
Definition float_truthy (x : float) : bool := negb (PrimFloat.eqb x 0%float).

Definition pow2 (e : Z) : Z := 2 ^ e.

(** [int(x)] for a [float]: truncation toward zero. *)
Definition int_of_float (x : float) : result Z :=
  match Prim2SF x with
  | S754_zero _ => Ok 0%Z
  | S754_infinity _ => Raise OverflowError
  | S754_nan => Raise ValueError
  | S754_finite s m e =>
      let mag := if (0 <=? e)%Z then (Zpos m * pow2 e)%Z
                 else (Zpos m / pow2 (- e))%Z in
      Ok (if s then (- mag)%Z else mag)
  end.

(** [round(x)] for a [float], no [ndigits]: nearest integer, ties to even. *)
Definition round_float (x : float) : result Z :=
  match Prim2SF x with
  | S754_zero _ => Ok 0%Z
  | S754_infinity _ => Raise OverflowError
  | S754_nan => Raise ValueError
  | S754_finite s m e =>
      let mag :=
        if (0 <=? e)%Z then (Zpos m * pow2 e)%Z
        else
          let d := pow2 (- e) in
          let q := (Zpos m / d)%Z in
          let r := (Zpos m mod d)%Z in
          if (d <? 2 * r)%Z then (q + 1)%Z
          else if (d =? 2 * r)%Z && Z.odd q then (q + 1)%Z
          else q in
      Ok (if s then (- mag)%Z else mag)
  end.

(** [float(n)] for an [int]: correctly rounded, [OverflowError] when too large. *)
Definition float_of_int (n : Z) : result float :=
  match binary_normalize prec emax n 0%Z false with
  | S754_infinity _ => Raise OverflowError
  | sf => Ok (SF2Prim sf)
  end.

(** [float(s)] for a [str]: surrounding whitespace is ignored; the accepted
    literals are an optional sign followed by [inf], [infinity], [nan] (any
    case) or a decimal number with optional fraction and exponent, single
    underscores allowed between digits.  The value is the nearest binary64,
    ties to even.  Anything else is a [ValueError]. *)

Definition digit_val (c : ascii) : Z := Z.of_N (code c - 48).

Definition starts_with_digit (s : string) : bool :=
  match s with
  | String c _ => is_digit c
  | EmptyString => false
  end.

Fixpoint read_digits (acc : Z) (cnt : nat) (s : string) : Z * nat * string :=
  match s with
  | EmptyString => (acc, cnt, s)
  | String c r =>
      if is_digit c then read_digits (10 * acc + digit_val c) (S cnt) r
      else if Ascii.eqb c "_" && (0 <? cnt)%nat && starts_with_digit r
           then read_digits acc cnt r
      else (acc, cnt, s)
  end.

Definition read_sign (s : string) : bool * string :=
  match s with
  | String "-" r => (true, r)
  | String "+" r => (false, r)
  | _ => (false, s)
  end.

(** The binary64 nearest to [m * 10 ^ e10], for [0 <= m]. *)
Definition float_of_decimal (m e10 : Z) : float :=
  if (m =? 0)%Z then 0%float
  else if (0 <=? e10)%Z
  then SF2Prim (binary_normalize prec emax (m * 10 ^ e10) 0 false)
  else
    let d := (10 ^ (- e10))%Z in
    let s := Z.max 0 (65 + Z.log2 d - Z.log2 m) in
    let num := (m * 2 ^ s)%Z in
    let q := (num / d)%Z in
    let sticky := negb (num mod d =? 0)%Z in
    let q' := if sticky then Z.lor q 1 else q in
    SF2Prim (binary_normalize prec emax q' (- s) false).

Definition read_number (s : string) : result float :=
  let '(ip, n1, s1) := read_digits 0 0 s in
  let '(m, n2, s2) :=
    match s1 with
    | String "." r => read_digits ip 0 r
    | _ => (ip, O, s1)
    end in
  if (n1 + n2 =? 0)%nat then Raise ValueError
  else
    match s2 with
    | EmptyString => Ok (float_of_decimal m (- Z.of_nat n2))
    | String c r =>
        if Ascii.eqb c "e" || Ascii.eqb c "E" then
          let '(eneg, r1) := read_sign r in
          let '(ex, n3, r2) := read_digits 0 0 r1 in
          if (n3 =? 0)%nat || truthy r2 then Raise ValueError
          else Ok (float_of_decimal m ((if eneg then - ex else ex) - Z.of_nat n2))
        else Raise ValueError
    end.

Definition float_of_str (s : string) : result float :=
  let '(neg, body) := read_sign (strip s) in
  let low := lower body in
  x <- (if String.eqb low "inf" || String.eqb low "infinity" then Ok infinity
        else if String.eqb low "nan" then Ok nan
        else read_number body) ;;
  Ok (if neg then (- x)%float else x).

(** *** Insertion-ordered dictionaries with [str] keys

    A [dict] is the list of its items in insertion order; keys are unique. *)

Definition dict (V : Type) : Type := list (string * V).

Fixpoint dict_get {V : Type} (k : string) (d : dict V) : option V :=
  match d with
  | [] => None
  | (k', v) :: d' => if String.eqb k' k then Some v else dict_get k d'
  end.

(** [k in d] *)
Definition dict_mem {V : Type} (k : string) (d : dict V) : bool :=
  match dict_get k d with
  | Some _ => true
  | None => false
  end.

(** [d[k] = v]: an existing key keeps its position. *)
Fixpoint dict_set {V : Type} (k : string) (v : V) (d : dict V) : dict V :=
  match d with
  | [] => [(k, v)]
  | (k', v') :: d' =>
      if String.eqb k' k then (k', v) :: d' else (k', v') :: dict_set k v d'
  end.

(** [d[k].append(v)] on a [defaultdict(list)]. *)
Fixpoint dd_append {V : Type} (k : string) (v : V) (d : dict (list V))
  : dict (list V) :=
  match d with
  | [] => [(k, [v])]
  | (k', vs) :: d' =>
      if String.eqb k' k then (k', (vs ++ [v])%list) :: d'
      else (k', vs) :: dd_append k v d'
  end.

(** [d.get(k, default)] *)
Definition dict_get_default {V : Type} (k : string) (default : V) (d : dict V) : V :=
  match dict_get k d with
  | Some v => v
  | None => default
  end.

(** Truth value of a [list]: non-empty. *)
Definition truthy_list {A : Type} (l : list A) : bool :=
  match l with
  | [] => false
  | _ :: _ => true
  end.

(** A [set] of [str]: only membership and [add] are used. *)
Definition pyset : Type := list string.

Definition set_mem (k : string) (s : pyset) : bool :=
  existsb (String.eqb k) s.

Definition set_add (k : string) (s : pyset) : pyset :=
  if set_mem k s then s else k :: s.

End Py.

Export Py.

(* ===================================================================== *)
(** ** The analyser *)
(* ===================================================================== *)

Module Rekordbox.

(** A value of type [Any] as the helpers receive it: an attribute or cell
    ([str]), a default ([int], [float]) or [None]. *)
Inductive pyval : Type :=
| PNone
| PInt (n : Z)
| PFloat (x : float)
| PStr (s : string).

(** *** Helpers *)

(** [re.sub(cls+, " ", s)] for a character class [cls]: every maximal run of
    characters of the class becomes one space. *)
Fixpoint sub_runs (cls : ascii -> bool) (in_run : bool) (s : string) : string :=
  match s with
  | EmptyString => EmptyString
  | String c r =>
      if cls c
      then if in_run then sub_runs cls true r
           else String " " (sub_runs cls true r)
      else String c (sub_runs cls false r)
  end.

Definition norm_ws (s : string) : string :=
  strip (sub_runs is_space false s).

(** In [safe_int] a [float] argument goes through [int(float(str(v)))]; [str]
    of a float is never blank and [float] reads it back to the same float, so
    the model applies [int] to the float itself. *)
Definition safe_int (v : pyval) (default : Z) : result Z :=
  try_except
    (match v with
     | PNone => Ok default
     | PInt n => Ok n
     | PFloat x => int_of_float x
     | PStr v =>
         let s := strip v in
         if negb (truthy s) then Ok default
         else x <- float_of_str s ;; int_of_float x
     end)
    default.

Definition safe_float (v : pyval) (default : float) : result float :=
  try_except
    (match v with
     | PNone => Ok default
     | PFloat x => Ok x
     | PInt n => float_of_int n
     | PStr v =>
         let s := strip v in
         if negb (truthy s) then Ok default
         else float_of_str s
     end)
    default.

(** **** [urllib.parse]

    [urlsplit] as [fileurl_to_path] uses it through [urlparse]: the scheme is
    always [file] there, for which [urlparse] adds nothing to [urlsplit]. *)

Record SplitResult : Type := mkSplit {
  scheme : string;
  netloc : string;
  path : string;
  query : string;
  fragment : string
}.

Definition is_scheme_char (c : ascii) : bool :=
  is_alpha c || is_digit c || Ascii.eqb c "+" || Ascii.eqb c "-" || Ascii.eqb c ".".

Fixpoint all_chars (p : ascii -> bool) (s : string) : bool :=
  match s with
  | EmptyString => true
  | String c r => p c && all_chars p r
  end.

Fixpoint remove_chars (p : ascii -> bool) (s : string) : string :=
  match s with
  | EmptyString => EmptyString
  | String c r => if p c then remove_chars p r else String c (remove_chars p r)
  end.

(** The part of [s] before the first character satisfying [p], and the rest
    starting at that character. *)
Fixpoint break_at (p : ascii -> bool) (s : string) : string * string :=
  match s with
  | EmptyString => (EmptyString, EmptyString)
  | String c r =>
      if p c then (EmptyString, s)
      else let '(a, b) := break_at p r in (String c a, b)
  end.

(** [s.split(ch, 1)] when [ch] occurs in [s]; [(s, "")] otherwise. *)
Definition split_once (ch : ascii) (s : string) : string * string :=
  let '(a, b) := break_at (Ascii.eqb ch) s in
  match b with
  | EmptyString => (a, EmptyString)
  | String _ r => (a, r)
  end.

Definition is_c0_or_space (c : ascii) : bool := (code c <=? 32)%N.

Definition is_tab_or_newline (c : ascii) : bool :=
  Ascii.eqb c "009" || Ascii.eqb c "010" || Ascii.eqb c "013".

Definition is_netloc_end (c : ascii) : bool :=
  Ascii.eqb c "/" || Ascii.eqb c "?" || Ascii.eqb c "#".

(** The scheme step of [urlsplit]: the text before the first colon, when it
    starts with a letter and holds only scheme characters. *)
Definition split_scheme (url : string) : string * string :=
  let '(a, b) := break_at (Ascii.eqb ":") url in
  match a, b with
  | String c0 _, String _ rest =>
      if is_alpha c0 && all_chars is_scheme_char a then (lower a, rest)
      else (EmptyString, url)
  | _, _ => (EmptyString, url)
  end.

(** The network-location step: after [//], up to the next [/], [?] or [#];
    a host with an unmatched square bracket is a [ValueError]. *)
Definition split_netloc (url : string) : result (string * string) :=
  if startswith url "//" then
    let '(nl, rest) :=
      break_at is_netloc_end (String.substring 2 (String.length url - 2) url) in
    if xorb (has_char "[" nl) (has_char "]" nl) then Raise ValueError
    else Ok (nl, rest)
  else Ok (EmptyString, url).

Definition urlsplit (url : string) : result SplitResult :=
  let url := lstrip_by is_c0_or_space url in
  let url := remove_chars is_tab_or_newline url in
  let '(sch, url) := split_scheme url in
  nl_url <- split_netloc url ;;
  let '(nl, url) := nl_url in
  let '(url, frag) := split_once "#" url in
  let '(url, qry) := split_once "?" url in
  Ok (mkSplit sch nl url qry frag).

Definition hex_val (c : ascii) : option N :=
  let n := code c in
  if is_digit c then Some (n - 48)%N
  else if ((97 <=? n) && (n <=? 102))%N then Some (n - 87)%N
  else if ((65 <=? n) && (n <=? 70))%N then Some (n - 55)%N
  else None.

(** [unquote]: every [%XX] with two hexadecimal digits is replaced by the
    character of code [XX]; a [%] not followed by two such digits stays.
    (CPython decodes the bytes as UTF-8; below 128 that is this character.) *)
Fixpoint unquote_from (skip : nat) (s : string) : string :=
  match s with
  | EmptyString => EmptyString
  | String c r =>
      match skip with
      | S k => unquote_from k r
      | O =>
          if Ascii.eqb c "%" then
            match r with
            | String h (String l _) =>
                match hex_val h, hex_val l with
                | Some a, Some b =>
                    String (ascii_of_N (16 * a + b)) (unquote_from 2 r)
                | _, _ => String c (unquote_from O r)
                end
            | _ => String c (unquote_from O r)
            end
          else String c (unquote_from O r)
      end
  end.

Definition unquote (s : string) : string := unquote_from O s.

(** [re.match(r"^/[A-Za-z]:/", path)] *)
Definition drive_rooted (path : string) : bool :=
  match path with
  | String "/" (String d (String ":" (String "/" _))) => is_alpha d
  | _ => false
  end.

Section Host.

(** [os.sep], the separator of the host platform. *)
Variable os_sep : string.

Definition fileurl_to_path (loc : string) : result string :=
  if negb (truthy loc) then Ok EmptyString
  else
    let loc := strip loc in
    if negb (startswith (lower loc) "file:") then Ok loc
    else
      p <- urlsplit loc ;;
      let path := unquote (path p) in
      let netloc := netloc p in
      let path :=
        if truthy netloc && negb (String.eqb (lower netloc) "localhost")
        then "//" ++ netloc ++ path
        else path in
      let path :=
        if drive_rooted path
        then String.substring 1 (String.length path - 1) path
        else path in
      Ok (replace "/" os_sep path).

End Host.

(** *** Data models *)

Record Track : Type := mkTrack {
  track_id : string;
  name : string;
  artist : string;
  album : string;
  remixer : string;
  mix : string;
  label : string;
  genre : string;
  year : Z;
  date_added : string;
  bpm : float;
  key : string;
  kind : string;
  size : Z;
  duration : Z;
  bitrate : Z;
  samplerate : Z;
  rating : string;
  playcount : Z;
  comments : string;
  location_url : string;
  location_path : string
}.

(** [re.sub(r"\(.*?\)", "", s)]: [close_paren r] is the length of the shortest
    match of [.*?\)] at the start of [r] ([.] does not match a newline). *)
Fixpoint close_paren (r : string) : option nat :=
  match r with
  | EmptyString => None
  | String c r' =>
      if Ascii.eqb c ")" then Some 1%nat
      else if Ascii.eqb c "010" then None
      else option_map S (close_paren r')
  end.

Fixpoint remove_bracketed (skip : nat) (s : string) : string :=
  match s with
  | EmptyString => EmptyString
  | String c r =>
      match skip with
      | S k => remove_bracketed k r
      | O =>
          if Ascii.eqb c "(" then
            match close_paren r with
            | Some n => remove_bracketed n r
            | None => String c (remove_bracketed O r)
            end
          else String c (remove_bracketed O r)
      end
  end.

Definition not_alnum (c : ascii) : bool := negb (is_lower c || is_digit c).

Definition norm_key (s : string) : string :=
  let s := lower s in
  let s := remove_bracketed O s in
  let s := sub_runs not_alnum false s in
  norm_ws s.

Definition title_key (self : Track) : string :=
  norm_key (artist self) ++ "|" ++ norm_key (name self).

Record Playlist : Type := mkPlaylist {
  pl_path : string;
  pl_name : string;
  node_type : string;
  entries : Z;
  track_keys : list string
}.

(** *** XML parsing

    [ET.iterparse] is modelled by the list of its events after the first one
    (the start of the root element, taken by [next(ctx)]). *)

Inductive event_kind : Type := EvStart | EvEnd.

Record Element : Type := mkElement {
  tag : string;
  attrib : dict string
}.

Definition xml_event : Type := (event_kind * Element)%type.

Definition is_start (e : event_kind) : bool :=
  match e with EvStart => true | EvEnd => false end.

Definition is_end (e : event_kind) : bool :=
  match e with EvStart => false | EvEnd => true end.

(** [a.get(k, default)] when [default] is not a string. *)
Definition attr_or (k : string) (default : pyval) (a : dict string) : pyval :=
  match dict_get k a with
  | Some v => PStr v
  | None => default
  end.

Section Parsing.

Variable os_sep : string.

(** The body of the loop of [iter_tracks] that builds one [Track]. *)
Definition track_of_attrib (a : dict string) : result Track :=
  let loc :=
    let l := dict_get_default "Location" "" a in
    if truthy l then l else dict_get_default "location" "" a in
  loc_path <- fileurl_to_path os_sep loc ;;
  year <- safe_int (attr_or "Year" (PInt 0) a) 0 ;;
  bpm <- safe_float (attr_or "AverageBpm" (PFloat 0) a) 0 ;;
  size <- safe_int (attr_or "Size" (PInt 0) a) 0 ;;
  duration <- safe_int (attr_or "TotalTime" (PInt 0) a) 0 ;;
  bitrate <- safe_int (attr_or "BitRate" (PInt 0) a) 0 ;;
  samplerate <- safe_int (attr_or "SampleRate" (PInt 0) a) 0 ;;
  playcount <- safe_int (attr_or "PlayCount" (PInt 0) a) 0 ;;
  Ok (mkTrack
        (dict_get_default "TrackID" "" a)
        (dict_get_default "Name" "" a)
        (dict_get_default "Artist" "" a)
        (dict_get_default "Album" "" a)
        (dict_get_default "Remixer" "" a)
        (dict_get_default "Mix" "" a)
        (dict_get_default "Label" "" a)
        (dict_get_default "Genre" "" a)
        year
        (dict_get_default "DateAdded" "" a)
        bpm
        (dict_get_default "Tonality" "" a)
        (dict_get_default "Kind" "" a)
        size duration bitrate samplerate
        (dict_get_default "Rating" "" a)
        playcount
        (dict_get_default "Comments" "" a)
        loc
        loc_path).

(** State of the loop of [iter_tracks]: [in_collection] and the tracks
    yielded so far. *)
Definition iter_tracks_step (st : bool * list Track) (ev : xml_event)
  : result (bool * list Track) :=
  let '(in_collection, out) := st in
  let '(event, elem) := ev in
  let tag := upper (tag elem) in
  let in_collection :=
    if is_start event && String.eqb tag "COLLECTION" then true
    else if is_end event && String.eqb tag "COLLECTION" then false
    else in_collection in
  if is_end event && in_collection && String.eqb tag "TRACK" then
    t <- track_of_attrib (attrib elem) ;;
    Ok (in_collection, (out ++ [t])%list)
  else Ok (in_collection, out).

Definition iter_tracks (ctx : list xml_event) : result (list Track) :=
  st <- for_each iter_tracks_step ctx (false, []) ;;
  Ok (snd st).

End Parsing.

(** State of the loop of [parse_playlists].  The stack is kept with its top
    first; [stack_path] reads it from the bottom. *)
Record pl_state : Type := mkPlState {
  in_playlists : bool;
  stack : list (string * dict string);
  current_tracks : list string;
  playlists : list Playlist
}.

Definition stack_path (stack : list (string * dict string)) : string :=
  let names :=
    filter (fun n => truthy n && negb (String.eqb n "ROOT"))
           (map fst (rev stack)) in
  join "/" names.

Definition parse_playlists_step (st : pl_state) (ev : xml_event) : result pl_state :=
  let '(event, elem) := ev in
  let tag := upper (tag elem) in
  let inp :=
    if is_start event && String.eqb tag "PLAYLISTS" then true
    else if is_end event && String.eqb tag "PLAYLISTS" then false
    else in_playlists st in
  let st := mkPlState inp (stack st) (current_tracks st) (playlists st) in
  if negb inp then Ok st
  else if String.eqb tag "NODE" && is_start event then
    let name := dict_get_default "Name" "" (attrib elem) in
    Ok (mkPlState inp ((name, attrib elem) :: stack st) [] (playlists st))
  else if String.eqb tag "TRACK" && is_start event then
    match dict_get "Key" (attrib elem) with
    | Some k =>
        if truthy k
        then Ok (mkPlState inp (stack st) (current_tracks st ++ [k])%list (playlists st))
        else Ok st
    | None => Ok st
    end
  else if String.eqb tag "NODE" && is_end event then
    match stack st with
    | (name, attrs) :: below =>
        let node_type := dict_get_default "Type" "" attrs in
        entries <- safe_int (attr_or "Entries" (PInt 0) attrs) 0 ;;
        let found :=
          if truthy_list (current_tracks st) || negb (entries =? 0)%Z then
            let full_path := stack_path below in
            let full :=
              if truthy name then strip_char "/" (full_path ++ "/" ++ name)
              else full_path in
            [mkPlaylist full name node_type
               (if negb (entries =? 0)%Z then entries
                else Z.of_nat (List.length (current_tracks st)))
               (current_tracks st)]
          else [] in
        Ok (mkPlState inp below [] (playlists st ++ found)%list)
    | [] => Ok (mkPlState inp [] [] (playlists st))
    end
  else Ok st.

(** The de-duplication loop that ends [parse_playlists]. *)
Definition dedupe_step (st : pyset * list Playlist) (p : Playlist)
  : pyset * list Playlist :=
  let '(seen, uniq) := st in
  if set_mem (pl_path p) seen then st
  else (set_add (pl_path p) seen, (uniq ++ [p])%list).

Definition dedupe_by_path (playlists : list Playlist) : list Playlist :=
  snd (fold_left dedupe_step playlists ([], [])).

Definition parse_playlists (ctx : list xml_event) : result (list Playlist) :=
  st <- for_each parse_playlists_step ctx (mkPlState false [] [] []) ;;
  Ok (dedupe_by_path (playlists st)).

(** *** MIK CSV parsing

    [csv.DictReader] is modelled by its [fieldnames] and the rows it yields;
    a cell that the reader leaves as [None] is an absent key of the row. *)

Record CsvFile : Type := mkCsv {
  fieldnames : list string;
  csv_rows : list (dict string)
}.

Record MikEntry : Type := mkMikEntry {
  m_path : string;
  m_bpm : float;
  m_key : string;
  m_row : dict string
}.

(** One of the two passes of [find_col]: candidates outermost, columns inside,
    the first hit is returned. *)
Fixpoint first_match (test : string -> string -> bool) (cands cols : list string)
  : option string :=
  match cands with
  | [] => None
  | cand :: cands' =>
      match find (test cand) cols with
      | Some c => Some c
      | None => first_match test cands' cols
      end
  end.

Definition find_col (cols cands : list string) : option string :=
  match first_match (fun cand c => String.eqb (lower c) (lower cand)) cands cols with
  | Some c => Some c
  | None => first_match (fun cand c => contains (lower c) (lower cand)) cands cols
  end.

Definition path_cands : list string :=
  ["path"; "file"; "filename"; "location"; "filepath"; "file path"].
Definition bpm_cands : list string := ["bpm"; "tempo"].
Definition key_cands : list string := ["key"; "camelot"; "tonality"].

(** [row.get(col, "") if col else ""], then [or ""]. *)
Definition cell_of (col : option string) (row : dict string) : string :=
  match col with
  | Some c => dict_get_default c "" row
  | None => ""
  end.

Section Compare.

Variable os_sep : string.

Definition read_mik_step (path_col bpm_col key_col : option string)
  (data : dict MikEntry) (row : dict string) : result (dict MikEntry) :=
  let rawp := cell_of path_col row in
  let p := strip (replace "\\" "\" (replace "/" os_sep rawp)) in
  if negb (truthy p) then Ok data
  else
    let k := lower p in
    b <- match bpm_col with
         | Some c => safe_float (PStr (dict_get_default c "" row)) 0
         | None => Ok 0%float
         end ;;
    Ok (dict_set k (mkMikEntry p b (cell_of key_col row) row) data).

Definition read_mik_csv (f : CsvFile) : result (dict MikEntry) :=
  let cols := fieldnames f in
  let path_col := find_col cols path_cands in
  let bpm_col := find_col cols bpm_cands in
  let key_col := find_col cols key_cands in
  for_each (read_mik_step path_col bpm_col key_col) (csv_rows f) [].

End Compare.

(** *** Main analysis: the passes of [analyse] *)

(** The loading loop: [tracks_by_key[str(t.track_id)] = t] for the tracks with
    a non-empty identifier. *)
Definition tracks_by_key (tracks : list Track) : dict Track :=
  fold_left
    (fun d t => if truthy (track_id t) then dict_set (track_id t) t d else d)
    tracks [].

(** **** Duplicates

    A row of [dup_groups] keeps the group itself; the columns [Count],
    [TrackIDs], ... of the source row are functions of it. *)
Record DupGroup : Type := mkDupGroup {
  DuplicateType : string;
  GroupKey : string;
  members : list Track
}.

Definition Count (g : DupGroup) : nat := List.length (members g).
Definition TrackIDs (g : DupGroup) : string := join ", " (map track_id (members g)).
Definition Artists (g : DupGroup) : string := join ", " (map artist (members g)).
Definition Titles (g : DupGroup) : string := join ", " (map name (members g)).
Definition Locations (g : DupGroup) : string :=
  join ", " (map location_path (members g)).

(** [for k, grp in groups.items(): if len(grp) > 1: add_dup_group(...)] *)
Definition report_groups (dup_type : string) (groups : dict (list Track))
  : list DupGroup :=
  flat_map
    (fun kg => if (1 <? List.length (snd kg))%nat
               then [mkDupGroup dup_type (fst kg) (snd kg)] else [])
    groups.

Definition loc_key (t : Track) : string := lower (location_path t).

Definition by_loc (tracks : list Track) : dict (list Track) :=
  fold_left
    (fun d t => let k := loc_key t in if truthy k then dd_append k t d else d)
    tracks [].

Definition by_title (tracks : list Track) : dict (list Track) :=
  fold_left
    (fun d t => let k := title_key t in
                if truthy (strip_char "|" k) then dd_append k t d else d)
    tracks [].

Definition sig_key (t : Track) : result string :=
  rbpm <- (if float_truthy (bpm t) then round_float (bpm t) else Ok 0%Z) ;;
  Ok (title_key t ++ "|" ++ str_of_int (duration t) ++ "|" ++ str_of_int rbpm).

Definition by_sig (tracks : list Track) : result (dict (list Track)) :=
  for_each (fun d t => k <- sig_key t ;; Ok (dd_append k t d)) tracks [].

Definition location_groups (tracks : list Track) : list DupGroup :=
  report_groups "Same Location" (by_loc tracks).

Definition title_groups (tracks : list Track) : list DupGroup :=
  report_groups "Same Artist+Title" (by_title tracks).

Definition signature_groups (tracks : list Track) : result (list DupGroup) :=
  sigs <- by_sig tracks ;;
  Ok (report_groups "Signature Match" sigs).

(** [dup_groups] after the three groupings. *)
Definition duplicates (tracks : list Track) : result (list DupGroup) :=
  sigs <- signature_groups tracks ;;
  Ok (location_groups tracks ++ title_groups tracks ++ sigs)%list.

(** **** Playlist analysis

    The loop over the playlists fills [used_keys] and [broken_rows]; neither
    reads the other, so each is given by its own definition. *)
Record BrokenRow : Type := mkBroken {
  PlaylistPath : string;
  MissingTrackKey : string
}.

Record OrphanRow : Type := mkOrphan {
  TrackKey : string;
  orphan_TrackID : string;
  orphan_Artist : string;
  orphan_Title : string;
  orphan_Location : string
}.

Definition used_keys (playlists : list Playlist) : pyset :=
  fold_left (fun used p => fold_left (fun u k => set_add k u) (track_keys p) used)
            playlists [].

Definition broken_rows (by_key : dict Track) (playlists : list Playlist)
  : list BrokenRow :=
  flat_map
    (fun p =>
       flat_map
         (fun k => if negb (dict_mem k by_key) then [mkBroken (pl_path p) k] else [])
         (track_keys p))
    playlists.

Definition orphan_rows (by_key : dict Track) (used : pyset) : list OrphanRow :=
  flat_map
    (fun kt =>
       let '(k, t) := kt in
       if negb (set_mem k used)
       then [mkOrphan k (track_id t) (artist t) (name t) (location_path t)]
       else [])
    by_key.

(** **** MIK compare *)

(** A cell of a report row that holds a float or a string. *)
Inductive cell : Type :=
| CStr (s : string)
| CFloat (x : float).

Record MikRow : Type := mkMikRow {
  Status : string;
  TrackID : string;
  Artist : string;
  Title : string;
  RB_Path : string;
  MIK_Path : string;
  RB_BPM : cell;
  MIK_BPM : cell;
  RB_Key : string;
  MIK_Key : string
}.

Definition rb_paths (tracks : list Track) : dict Track :=
  fold_left
    (fun d t => if truthy (location_path t) then dict_set (loc_key t) t d else d)
    tracks [].

Definition missing_in_mik (rb : dict Track) (mik : dict MikEntry) : list MikRow :=
  flat_map
    (fun pt =>
       let '(pth, t) := pt in
       if negb (dict_mem pth mik)
       then [mkMikRow "Missing in MIK" (track_id t) (artist t) (name t)
               (location_path t) "" (CFloat (bpm t)) (CStr "") (key t) ""]
       else [])
    rb.

Definition missing_in_rb (rb : dict Track) (mik : dict MikEntry) : list MikRow :=
  flat_map
    (fun pm =>
       let '(pth, m) := pm in
       if negb (dict_mem pth rb)
       then [mkMikRow "Missing in Rekordbox" "" "" "" "" (m_path m)
               (CStr "") (CFloat (m_bpm m)) "" (m_key m)]
       else [])
    mik.

(** The statuses of one track found in both sources. *)
Definition bpm_status (mbpm : float) (t : Track) : list string :=
  if float_truthy mbpm && float_truthy (bpm t)
     && PrimFloat.leb 0.75 (PrimFloat.abs (mbpm - bpm t))
  then ["BPM diff"] else [].

Definition key_status (mkey : string) (t : Track) : list string :=
  if truthy mkey && truthy (key t)
     && negb (String.eqb (norm_key mkey) (norm_key (key t)))
  then ["Key diff"] else [].

Definition diff_step (mik : dict MikEntry) (mik_rows : list MikRow)
  (pt : string * Track) : result (list MikRow) :=
  let '(pth, t) := pt in
  match dict_get pth mik with
  | None => Ok mik_rows
  | Some m =>
      mbpm <- safe_float (PFloat (m_bpm m)) 0 ;;
      let mkey := strip (m_key m) in
      let status := (bpm_status mbpm t ++ key_status mkey t)%list in
      if truthy_list status
      then Ok (mik_rows ++
               [mkMikRow (join ", " status) (track_id t) (artist t) (name t)
                  (location_path t) (m_path m) (CFloat (bpm t)) (CFloat mbpm)
                  (key t) mkey])%list
      else Ok mik_rows
  end.

Definition mik_compare (tracks : list Track) (mik : dict MikEntry)
  : result (list MikRow) :=
  let rb := rb_paths tracks in
  let rows := (missing_in_mik rb mik ++ missing_in_rb rb mik)%list in
  for_each (diff_step mik) rb rows.

(** The block [if mik_csv and mik_csv.exists(): ...]; [None] stands for a
    file that was not given or does not exist. *)
Definition mik_pass (os_sep : string) (mik_csv : option CsvFile)
  (tracks : list Track) : result (list MikRow) :=
  match mik_csv with
  | None => Ok []
  | Some f =>
      mik <- read_mik_csv os_sep f ;;
      mik_compare tracks mik
  end.

End Rekordbox.

Import Rekordbox.

(* ===================================================================== *)
(** ** Vocabulary of the properties *)
(* ===================================================================== *)

(** [Subseq l1 l2]: [l1] is [l2] with some elements left out, order kept. *)
Inductive Subseq {A : Type} : list A -> list A -> Prop :=
| Subseq_nil : Subseq [] []
| Subseq_skip (x : A) (l1 l2 : list A) : Subseq l1 l2 -> Subseq l1 (x :: l2)
| Subseq_keep (x : A) (l1 l2 : list A) : Subseq l1 l2 -> Subseq (x :: l1) (x :: l2).

Definition has_path (p : string) (q : Playlist) : bool :=
  String.eqb (pl_path q) p.

(** The playlists of [ps] whose path is neither in [seen] nor met earlier in
    [ps]. *)
Fixpoint first_by_path (seen : pyset) (ps : list Playlist) : list Playlist :=
  match ps with
  | [] => []
  | p :: ps' =>
      if set_mem (pl_path p) seen then first_by_path seen ps'
      else p :: first_by_path (pl_path p :: seen) ps'
  end.

(** Number of broken-reference rows for the pair ([path], [X]). *)
Definition broken_for (path X : string) (rows : list BrokenRow) : nat :=
  List.length
    (filter (fun r => String.eqb (PlaylistPath r) path
                      && String.eqb (MissingTrackKey r) X) rows).

(** Number of orphan rows for the track key [k]. *)
Definition orphans_for (k : string) (rows : list OrphanRow) : nat :=
  List.length (filter (fun r => String.eqb (TrackKey r) k) rows).

(** A track that carries only an identifier. *)
Definition track_with_id (id : string) : Track :=
  mkTrack id "" "" "" "" "" "" "" 0 "" 0 "" "" 0 0 0 0 "" 0 "" "" "".

(** The body of the loop that fills [tracks_by_key]. *)
Definition by_key_step (d : dict Track) (t : Track) : dict Track :=
  if truthy (track_id t) then dict_set (track_id t) t d else d.

(** The loop [for x in xs: if keep(x): d[key(x)].append(x)] on a
    [defaultdict(list)], and the elements it files under [k]. *)
Definition grouped {A : Type} (keep : A -> bool) (key : A -> string)
  (xs : list A) (d : dict (list A)) : dict (list A) :=
  fold_left (fun d x => if keep x then dd_append (key x) x d else d) xs d.

Definition selected {A : Type} (keep : A -> bool) (key : A -> string)
  (k : string) (xs : list A) : list A :=
  filter (fun x => keep x && String.eqb (key x) k) xs.

(** The tracks of [tracks] with the same case-folded path as [t]. *)
Definition same_location (t : Track) (tracks : list Track) : list Track :=
  filter (fun u => String.eqb (loc_key u) (loc_key t)) tracks.

(** The identity key is kept by the artist+title grouping. *)
Definition title_kept (t : Track) : bool := truthy (strip_char "|" (title_key t)).

(** The signature key as a string, when [sig_key] returns one. *)
Definition sig_key_of (t : Track) : string :=
  match sig_key t with
  | Ok k => k
  | Raise _ => ""
  end.

(** The rows of the MIK comparison that concern the case-folded path [pth],
    and whether a row names the tempo or the key metric in its status. *)
Definition rows_for (pth : string) (rows : list MikRow) : list MikRow :=
  filter (fun r => String.eqb (lower (RB_Path r)) pth) rows.

Definition names_bpm (r : MikRow) : bool := startswith (Status r) "BPM diff".

Definition names_key (r : MikRow) : bool := endswith (Status r) "Key diff".

(** The row of the diff loop for one entry of [rb_paths], if any. *)
Definition diff_rows (mik : dict MikEntry) (pt : string * Track) : list MikRow :=
  match dict_get (fst pt) mik with
  | None => []
  | Some m =>
      let t := snd pt in
      let mkey := strip (m_key m) in
      let status := (bpm_status (m_bpm m) t ++ key_status mkey t)%list in
      if truthy_list status
      then [mkMikRow (join ", " status) (track_id t) (artist t) (name t)
              (location_path t) (m_path m) (CFloat (bpm t)) (CFloat (m_bpm m))
              (key t) mkey]
      else []
  end.

(** The body of the comprehension that builds [rb_paths]. *)
Definition rb_step (d : dict Track) (t : Track) : dict Track :=
  if truthy (location_path t) then dict_set (loc_key t) t d else d.

(** The "Missing in MIK" row of a track. *)
Definition missing_row (t : Track) : MikRow :=
  mkMikRow "Missing in MIK" (track_id t) (artist t) (name t)
    (location_path t) "" (CFloat (bpm t)) (CStr "") (key t) "".

(** No header equals or contains one of the path-like candidate names. *)
Definition no_path_column (cols : list string) : bool :=
  forallb
    (fun cand =>
       forallb
         (fun c => negb (String.eqb (lower c) (lower cand))
                   && negb (contains (lower c) (lower cand)))
         cols)
    path_cands.

(** The value of a computation that cannot fail, with a fallback. *)
Definition or_default {A : Type} (r : result A) (d : A) : A :=
  match r with
  | Ok a => a
  | Raise _ => d
  end.

(** The numeric attributes of a track element as [iter_tracks] reads them. *)
Definition int_attr (k : string) (a : dict string) : Z :=
  or_default (safe_int (attr_or k (PInt 0) a) 0) 0%Z.

Definition float_attr (k : string) (a : dict string) : float :=
  or_default (safe_float (attr_or k (PFloat 0) a) 0) 0%float.

(** [a.get("Location", "") or a.get("location", "")] *)
Definition raw_location (a : dict string) : string :=
  let l := dict_get_default "Location" "" a in
  if truthy l then l else dict_get_default "location" "" a.

(** The record built from the attributes once the location is converted. *)
Definition track_record (a : dict string) (loc_path : string) : Track :=
  mkTrack
    (dict_get_default "TrackID" "" a)
    (dict_get_default "Name" "" a)
    (dict_get_default "Artist" "" a)
    (dict_get_default "Album" "" a)
    (dict_get_default "Remixer" "" a)
    (dict_get_default "Mix" "" a)
    (dict_get_default "Label" "" a)
    (dict_get_default "Genre" "" a)
    (int_attr "Year" a)
    (dict_get_default "DateAdded" "" a)
    (float_attr "AverageBpm" a)
    (dict_get_default "Tonality" "" a)
    (dict_get_default "Kind" "" a)
    (int_attr "Size" a)
    (int_attr "TotalTime" a)
    (int_attr "BitRate" a)
    (int_attr "SampleRate" a)
    (dict_get_default "Rating" "" a)
    (int_attr "PlayCount" a)
    (dict_get_default "Comments" "" a)
    (raw_location a)
    loc_path.

(** [s] is empty or starts with a character outside the set [p]. *)
Definition clean_head (p : ascii -> bool) (s : string) : bool :=
  match s with
  | EmptyString => true
  | String c _ => negb (p c)
  end.

(** A raw location that [fileurl_to_path] treats as a file URL. *)
Definition is_file_url (loc : string) : bool :=
  startswith (lower (strip loc)) "file:".

(** [s] is empty or ends with a character outside the set [p]. *)
Fixpoint clean_tail (p : ascii -> bool) (s : string) : bool :=
  match s with
  | EmptyString => true
  | String c EmptyString => negb (p c)
  | String _ r => clean_tail p r
  end.

(** A character that [urlsplit] leaves in the path of a URL: no control
    character or space, and not a query or fragment delimiter. *)
Definition url_char (c : ascii) : bool :=
  negb (is_c0_or_space c) && negb (Ascii.eqb "?" c) && negb (Ascii.eqb "#" c).

(** The file URL of a path on drive [d], and the same path written for the
    host with the separator [sep]. *)
Definition drive_url (d : ascii) (rest : string) : string :=
  "file:///" ++ String d (":/" ++ rest).

Definition drive_path (sep : string) (d : ascii) (rest : string) : string :=
  String d (":" ++ sep ++ replace "/" sep rest).

(** *** Sample data for the concrete runs *)

(** A track with the fields the passes look at. *)
Definition sample_track (id artist title location : string) (tempo : float)
  (tonality : string) (seconds : Z) : Track :=
  mkTrack id title artist "" "" "" "" "" 0 "" tempo tonality "" 0 seconds 0 0
    "" 0 "" "" location.

Definition track_a : Track :=
  sample_track "1" "Art" "Song" "D:\Music\a.mp3" 128 "8A" 300.

(** The same work again, stored under another path and spelling. *)
Definition track_b : Track :=
  sample_track "2" "ART" "Song (Original Mix)" "D:\Music\b.mp3" 128 "8A" 300.

(** [track_a]'s file once more, the path in another case. *)
Definition track_c : Track :=
  sample_track "3" "Other" "Tune" "d:\music\A.MP3" 100 "" 200.

(** Two tracks without tags, location, tempo or duration. *)
Definition blank_1 : Track := track_with_id "7".
Definition blank_2 : Track := track_with_id "8".

(** MIK entries for [track_a]'s path: tempo off by exactly 0.75, by 0.5, and
    a tempo and key left out. *)
Definition mik_at_tolerance : dict MikEntry :=
  [("d:\music\a.mp3", mkMikEntry "D:\Music\a.mp3" 128.75 "8A" [])].

Definition mik_below_tolerance : dict MikEntry :=
  [("d:\music\a.mp3", mkMikEntry "D:\Music\a.mp3" 128.5 "8A" [])].

Definition mik_unanalysed : dict MikEntry :=
  [("d:\music\a.mp3", mkMikEntry "D:\Music\a.mp3" 0 "  " [])].

(** A table whose header has no path-like column. *)
Definition csv_without_path : CsvFile :=
  mkCsv ["Title"; "BPM"; "Key"]
        [[("Title", "Song"); ("BPM", "128.00"); ("Key", "8A")]].

(** The attributes of a track element with a malformed Location. *)
Definition element_bad_location : dict string :=
  [("TrackID", "1"); ("Name", "Song"); ("Year", "2020");
   ("AverageBpm", "128.00"); ("Location", "file://[x/a.mp3")].

(** A playlist that lists the missing identifier 99 twice. *)
Definition playlist_twice : Playlist :=
  mkPlaylist "Sets/Friday" "Friday" "1" 3 ["1"; "99"; "99"].

Definition playlist_once : Playlist :=
  mkPlaylist "Sets/Friday" "Friday" "1" 2 ["1"; "99"].

(* ===================================================================== *)
(** ** Further helpers and passes of the analyser *)
(* ===================================================================== *)

Module Report.

(** [f"{n:02d}"]: at least two characters, padded with a zero on the left
    (a minus sign counts as a character). *)
Definition fmt02 (n : Z) : string :=
  let s := str_of_int n in
  if (String.length s <? 2)%nat then "0" ++ s else s.

Definition seconds_to_hhmmss (total : Z) : string :=
  let h := (total / 3600)%Z in
  let m := ((total mod 3600) / 60)%Z in
  let s := (total mod 60)%Z in
  fmt02 h ++ ":" ++ fmt02 m ++ ":" ++ fmt02 s.

(** [sum(t.duration for t in tracks)] and the overview line made of it. *)
Definition total_dur (tracks : list Track) : Z :=
  fold_left (fun acc t => (acc + duration t)%Z) tracks 0%Z.

Definition total_duration_line (tracks : list Track) : string :=
  seconds_to_hhmmss (total_dur tracks).

(** **** Quality issues

    A row of [issues] keeps the issue and the track; the other columns of the
    source row are fields of that track. *)
Record IssueRow : Type := mkIssue {
  Issue : string;
  subject : Track
}.

Definition issue_if (cond : bool) (issue : string) (t : Track) : list IssueRow :=
  if cond then [mkIssue issue t] else [].

(** The body of the loop over the tracks, one [if] after the other. *)
Definition quality_of (low_bitrate_mp3 : Z) (t : Track) : list IssueRow :=
  (issue_if (negb (truthy (strip (artist t)))) "Missing Artist" t
   ++ issue_if (negb (truthy (strip (name t)))) "Missing Title" t
   ++ issue_if (negb (truthy (strip (genre t)))) "Missing Genre" t
   ++ issue_if (negb (truthy (strip (label t)))) "Missing Label" t
   ++ issue_if (year t =? 0)%Z "Missing Year" t
   ++ issue_if (PrimFloat.leb (bpm t) 0) "Missing/Zero BPM" t
   ++ issue_if (negb (truthy (strip (key t)))) "Missing Key" t
   ++ issue_if (startswith (lower (kind t)) "mp3"
                && negb (bitrate t =? 0)%Z && (bitrate t <? low_bitrate_mp3)%Z)
        ("Low MP3 bitrate (<" ++ str_of_int low_bitrate_mp3 ++ ")") t
   ++ issue_if (contains (name t) "  " || contains (artist t) "  ")
        "Double spaces in Artist/Title" t
   ++ issue_if (endswith (name t) " " || endswith (artist t) " ")
        "Trailing space in Artist/Title" t)%list.

Definition quality (low_bitrate_mp3 : Z) (tracks : list Track) : list IssueRow :=
  flat_map (quality_of low_bitrate_mp3) tracks.

End Report.

Import Report.

(** *** Vocabulary of the further properties *)

(** The last element of a list that satisfies [p]. *)
Definition find_last {A : Type} (p : A -> bool) (l : list A) : option A :=
  find p (rev l).

(** [collapsed cls prev s]: in [s] the characters of the class [cls] are
    single spaces, never two in a row, and not at the start when [prev]. *)
Fixpoint collapsed (cls : ascii -> bool) (prev : bool) (s : string) : bool :=
  match s with
  | EmptyString => true
  | String c r =>
      if cls c then Ascii.eqb c " " && negb prev && collapsed cls true r
      else collapsed cls false r
  end.

(** A float that is neither an infinity nor a NaN. *)
Definition finite_float (x : float) : bool :=
  match Prim2SF x with
  | S754_infinity _ | S754_nan => false
  | _ => true
  end.

(** [int(round(t.bpm)) if t.bpm else 0], the last field of the signature. *)
Definition rounded_bpm (t : Track) : result Z :=
  if float_truthy (bpm t) then round_float (bpm t) else Ok 0%Z.

(** The path [read_mik_csv] takes from a row. *)
Definition row_path (os_sep : string) (path_col : option string)
  (row : dict string) : string :=
  strip (replace "\\" "\" (replace "/" os_sep (cell_of path_col row))).

(** The "Missing in Rekordbox" row of a MIK entry. *)
Definition unmatched_row (m : MikEntry) : MikRow :=
  mkMikRow "Missing in Rekordbox" "" "" "" "" (m_path m)
    (CStr "") (CFloat (m_bpm m)) "" (m_key m).

(** What every entry of the mapping returned by [read_mik_csv] satisfies. *)
Definition mik_entry_ok (os_sep : string) (f : CsvFile) (k : string)
  (m : MikEntry) : Prop :=
  k = lower (m_path m) /\ k <> ""
  /\ In (m_row m) (csv_rows f)
  /\ m_path m = row_path os_sep (find_col (fieldnames f) path_cands) (m_row m)
  /\ m_key m = cell_of (find_col (fieldnames f) key_cands) (m_row m).

(** A table with a path column: [track_a]'s file, a file the library does not
    have, a row without a path, and [track_a]'s file again in another case. *)
Definition csv_with_paths : CsvFile :=
  mkCsv ["File Path"; "BPM"; "Key"]
        [[("File Path", "D:/Music/a.mp3"); ("BPM", "128.00"); ("Key", "8A")];
         [("File Path", " E:/new.mp3 "); ("BPM", "n/a"); ("Key", "")];
         [("File Path", "   "); ("BPM", "90"); ("Key", "1A")];
         [("File Path", "d:/music/A.MP3"); ("BPM", "127"); ("Key", "8A")]].

(** A MIK entry for [track_a]'s file with the key in another spelling. *)
Definition mik_other_spelling : dict MikEntry :=
  [("d:\music\a.mp3", mkMikEntry "D:\Music\a.mp3" 128 " 8a " [])].

(** A character of the host part of a URL: a URL character that is neither
    a slash nor a square bracket. *)
Definition host_char (c : ascii) : bool :=
  url_char c && negb (Ascii.eqb c "/") && negb (Ascii.eqb c "[")
  && negb (Ascii.eqb c "]").

(** The file URL of a path on drive [d] with the host [h], as in
    [file://localhost/D:/Music/Track.mp3]. *)
Definition host_url (h : string) (d : ascii) (rest : string) : string :=
  "file://" ++ h ++ String "/" (String d (":/" ++ rest)).

(** A file URL with a host part and a path: [file://<h>/<rest>]. *)
Definition file_url (h rest : string) : string :=
  "file://" ++ h ++ String "/" rest.

(** Normalising a location, and normalising the result again. *)
Definition once (os_sep loc : string) : result string :=
  fileurl_to_path os_sep loc.

Definition twice (os_sep loc : string) : result string :=
  q <- fileurl_to_path os_sep loc ;; fileurl_to_path os_sep q.

(** The host of a file URL that stands for this machine. *)
Definition this_machine (h : string) : bool :=
  negb (truthy h) || String.eqb (lower h) "localhost".

(** The records [parse_playlists] has appended to [playlists] when its event
    loop ends, before the de-duplication: the emitted records, in emission
    order. *)
Definition emitted_by (ctx : list xml_event) : result (list Playlist) :=
  st <- for_each parse_playlists_step ctx (mkPlState false [] [] []) ;;
  Ok (playlists st).

(** "First occurrence wins", by positions: the record emitted at position [i]
    is kept exactly when none of the [i] records emitted before it has its
    path, and the kept records stay in emission order. *)
Definition first_emissions (emitted : list Playlist) : list Playlist :=
  map snd
    (filter
       (fun ip =>
          negb (existsb (has_path (pl_path (snd ip))) (firstn (fst ip) emitted)))
       (combine (seq 0 (List.length emitted)) emitted)).

(** A playlist node with one member, as two start events and two end events. *)
Definition playlist_node (name key : string) : list xml_event :=
  [(EvStart, mkElement "NODE" [("Name", name); ("Type", "1"); ("Entries", "1")]);
   (EvStart, mkElement "TRACK" [("Key", key)]);
   (EvEnd, mkElement "TRACK" [("Key", key)]);
   (EvEnd, mkElement "NODE" [("Name", name); ("Type", "1"); ("Entries", "1")])].

(** A document whose playlist tree holds the path [Sets] twice, with another
    playlist in between. *)
Definition document_repeating_a_path : list xml_event :=
  ([(EvStart, mkElement "PLAYLISTS" []);
    (EvStart, mkElement "NODE" [("Name", "ROOT"); ("Type", "0")])]
   ++ playlist_node "Sets" "1"
   ++ playlist_node "Warmup" "2"
   ++ playlist_node "Sets" "3"
   ++ [(EvEnd, mkElement "NODE" [("Name", "ROOT"); ("Type", "0")]);
       (EvEnd, mkElement "PLAYLISTS" [])])%list.

(** What every playlist recorded by [parse_playlists] satisfies. *)
Definition playlist_ok (p : Playlist) : Prop :=
  entries p <> 0%Z
  /\ (forall k, In k (track_keys p) -> k <> "")
  /\ (pl_name p <> "" ->
      clean_head (Ascii.eqb "/") (pl_path p) = true
      /\ clean_tail (Ascii.eqb "/") (pl_path p) = true).

(** The invariant of the loop of [parse_playlists]. *)
Definition tree_state_ok (st : pl_state) : Prop :=
  (forall k, In k (current_tracks st) -> k <> "")
  /\ (forall p, In p (playlists st) -> playlist_ok p).

(** An event that closes a track element. *)
Definition closes_track (ev : xml_event) : bool :=
  is_end (fst ev) && String.eqb (upper (tag (snd ev))) "TRACK".

Definition has_tag (tg : string) (ev : xml_event) : bool :=
  String.eqb (upper (tag (snd ev))) tg.

(* ===================================================================== *)
(** ** The model on literals

    Values below are those CPython returns for the same calls. *)
(* ===================================================================== *)

Example float_of_str_literals :
  float_of_str "128.75" = Ok 128.75%float
  /\ float_of_str " 1_0.5e1 " = Ok 105%float
  /\ float_of_str "-Inf" = Ok neg_infinity
  /\ float_of_str "1e-400" = Ok 0%float
  /\ float_of_str "1_.5" = Raise ValueError
  /\ float_of_str "12abc" = Raise ValueError
  /\ float_of_str "" = Raise ValueError.
Proof. repeat split; reflexivity. Qed.

Example round_float_ties_to_even :
  round_float 0.5 = Ok 0%Z /\ round_float 1.5 = Ok 2%Z
  /\ round_float 2.5 = Ok 2%Z /\ round_float (-2.5) = Ok (-2)%Z
  /\ round_float 127.5 = Ok 128%Z /\ round_float 128.5 = Ok 128%Z
  /\ round_float infinity = Raise OverflowError
  /\ round_float nan = Raise ValueError.
Proof. repeat split; reflexivity. Qed.

Example safe_int_literals :
  safe_int (PStr " 12.7 ") 0 = Ok 12%Z
  /\ safe_int (PStr "-2.7") 0 = Ok (-2)%Z
  /\ safe_int (PStr "abc") 0 = Ok 0%Z
  /\ safe_int (PStr "inf") 5 = Ok 5%Z
  /\ safe_int (PStr "nan") 5 = Ok 5%Z
  /\ safe_int (PInt 0) 0 = Ok 0%Z.
Proof. repeat split; reflexivity. Qed.

Example safe_float_literals :
  safe_float (PStr "128.00") 0 = Ok 128%float
  /\ safe_float (PStr "x") 0 = Ok 0%float
  /\ safe_float PNone 0 = Ok 0%float
  /\ safe_float (PInt (2 ^ 2000)) 1 = Ok 1%float.
Proof. repeat split; reflexivity. Qed.

Example urlsplit_literals :
  urlsplit "file:///D:/Music/a.mp3" = Ok (mkSplit "file" "" "/D:/Music/a.mp3" "" "")
  /\ urlsplit "file://nas/share/x.mp3" = Ok (mkSplit "file" "nas" "/share/x.mp3" "" "")
  /\ urlsplit "FILE:/a/b?x#y" = Ok (mkSplit "file" "" "/a/b" "x" "y")
  /\ urlsplit "file:file:///a" = Ok (mkSplit "file" "" "file:///a" "" "")
  /\ urlsplit "file://[x/a.mp3" = Raise ValueError.
Proof. repeat split; reflexivity. Qed.

Example unquote_literals :
  unquote "/My%20Music/a%23b.mp3" = "/My Music/a#b.mp3"
  /\ unquote "/%4%41%zz%%41" = "/%4A%zz%A".
Proof. split; reflexivity. Qed.

Example fileurl_to_path_literals :
  fileurl_to_path "\" "file://localhost/D:/My%20Music/a%23b.mp3"
  = Ok "D:\My Music\a#b.mp3"
  /\ fileurl_to_path "\" "file://nas/share/x.mp3" = Ok "\\nas\share\x.mp3"
  /\ fileurl_to_path "/" "file:///home/dj/a.mp3" = Ok "/home/dj/a.mp3"
  /\ fileurl_to_path "/" "  /home/dj/a.mp3 " = Ok "/home/dj/a.mp3"
  /\ fileurl_to_path "/" "" = Ok "".
Proof. repeat split; reflexivity. Qed.

Example norm_key_literals :
  norm_key "Foo (Original Mix) - Bar!!" = "foo bar"
  /\ norm_key "8A" = "8a"
  /\ norm_key "  " = "".
Proof. repeat split; reflexivity. Qed.

(* ===================================================================== *)
(** ** Insertion-ordered dictionaries: lookup after update *)
(* ===================================================================== *)

Lemma filter_none {A : Type} (p : A -> bool) (l : list A) :
  (forall x, In x l -> p x = false) -> filter p l = [].
Proof.
  induction l as [|x l IH]; simpl; intros H; [reflexivity|].
  rewrite (H x (or_introl eq_refl)). apply IH. intros y Hy. apply H. now right.
Qed.

Lemma filter_all {A : Type} (p : A -> bool) (l : list A) :
  (forall x, In x l -> p x = true) -> filter p l = l.
Proof.
  induction l as [|x l IH]; simpl; intros H; [reflexivity|].
  rewrite (H x (or_introl eq_refl)). f_equal. apply IH. intros y Hy. apply H. now right.
Qed.

Section DictFacts.

Context {V : Type}.

Implicit Types (d : dict V) (k : string).

Lemma dict_get_set_same k (v : V) d :
  dict_get k (dict_set k v d) = Some v.
Proof.
  induction d as [|[k' v'] d IH]; simpl.
  - now rewrite String.eqb_refl.
  - destruct (String.eqb k' k) eqn:E; simpl; rewrite E; auto.
Qed.

Lemma dict_get_set_other k k' (v : V) d :
  k <> k' -> dict_get k' (dict_set k v d) = dict_get k' d.
Proof.
  intros Hne. induction d as [|[k0 v0] d IH]; simpl.
  - apply String.eqb_neq in Hne. now rewrite Hne.
  - destruct (String.eqb k0 k) eqn:E; simpl.
    + apply String.eqb_eq in E. subst k0.
      apply String.eqb_neq in Hne. now rewrite Hne.
    + now rewrite IH.
Qed.

Lemma dict_set_keys k (v : V) d k' :
  In k' (map fst (dict_set k v d)) <-> k' = k \/ In k' (map fst d).
Proof.
  induction d as [|[k0 v0] d IH]; simpl.
  - intuition.
  - destruct (String.eqb k0 k) eqn:E; simpl.
    + apply String.eqb_eq in E. subst k0. intuition.
    + rewrite IH. intuition.
Qed.

Lemma dict_set_NoDup k (v : V) d :
  NoDup (map fst d) -> NoDup (map fst (dict_set k v d)).
Proof.
  induction d as [|[k0 v0] d IH]; simpl; intros Hnd.
  - constructor; [intros []|constructor].
  - inversion Hnd as [|? ? Hnotin Hnd']; subst.
    destruct (String.eqb k0 k) eqn:E; simpl.
    + now constructor.
    + constructor; [|now apply IH].
      rewrite dict_set_keys. intros [->|Hin]; [|contradiction].
      now rewrite String.eqb_refl in E.
Qed.

Lemma dict_get_none_notin k d :
  dict_get k d = None <-> ~ In k (map fst d).
Proof.
  induction d as [|[k0 v0] d IH]; simpl.
  - intuition.
  - destruct (String.eqb k0 k) eqn:E.
    + apply String.eqb_eq in E. subst. split; [discriminate|intuition].
    + apply String.eqb_neq in E. rewrite IH. intuition.
Qed.

Lemma dict_get_in k (v : V) d :
  dict_get k d = Some v -> In (k, v) d.
Proof.
  induction d as [|[k0 v0] d IH]; simpl; [discriminate|].
  destruct (String.eqb k0 k) eqn:E.
  - apply String.eqb_eq in E. intros [= ->]. subst. now left.
  - intros H. right. now apply IH.
Qed.

Lemma dict_in_get k (v : V) d :
  NoDup (map fst d) -> In (k, v) d -> dict_get k d = Some v.
Proof.
  induction d as [|[k0 v0] d IH]; simpl; intros Hnd Hin; [contradiction|].
  inversion Hnd as [|? ? Hnotin Hnd']; subst.
  destruct Hin as [[= -> ->]|Hin].
  - now rewrite String.eqb_refl.
  - destruct (String.eqb k0 k) eqn:E.
    + apply String.eqb_eq in E. subst k0. exfalso. apply Hnotin.
      change k with (fst (k, v)). now apply in_map.
    + now apply IH.
Qed.

Lemma dict_mem_true k d :
  dict_mem k d = true <-> In k (map fst d).
Proof.
  unfold dict_mem. destruct (dict_get k d) eqn:E.
  - split; [intros _|reflexivity].
    apply dict_get_in in E. change k with (fst (k, v)). now apply in_map.
  - apply dict_get_none_notin in E. split; [discriminate|contradiction].
Qed.

(** Rows produced entry by entry, each carrying the key of its entry: the rows
    of one key are those of its entry. *)
Lemma filter_flat_map_keyed {R : Type} (rk : R -> string)
  (f : string * V -> list R) d pth :
  NoDup (map fst d) ->
  (forall k v r, In (k, v) d -> In r (f (k, v)) -> rk r = k) ->
  filter (fun r => String.eqb (rk r) pth) (flat_map f d)
  = match dict_get pth d with
    | Some v => f (pth, v)
    | None => []
    end.
Proof.
  induction d as [|[k0 v0] d IH]; simpl; intros Hnd Hkey; [reflexivity|].
  inversion Hnd as [|? ? Hnotin Hnd']; subst.
  assert (IH' := IH Hnd' (fun k v r Hin => Hkey k v r (or_intror Hin))).
  rewrite filter_app, IH'. clear IH IH'.
  destruct (String.eqb k0 pth) eqn:E.
  - apply String.eqb_eq in E. subst k0.
    apply dict_get_none_notin in Hnotin. rewrite Hnotin, app_nil_r.
    apply filter_all. intros r Hr.
    apply String.eqb_eq. apply (Hkey pth v0); auto.
  - replace (filter _ (f (k0, v0))) with (@nil R); [reflexivity|].
    symmetry. apply filter_none. intros r Hr.
    rewrite (Hkey k0 v0 r); auto.
Qed.

End DictFacts.

(* ===================================================================== *)
(** ** Playlist de-duplication *)
(* ===================================================================== *)

Section Dedupe.

Implicit Types (ps uniq : list Playlist) (seen : pyset).

Lemma dedupe_fold ps : forall seen uniq,
  snd (fold_left dedupe_step ps (seen, uniq)) = (uniq ++ first_by_path seen ps)%list.
Proof.
  induction ps as [|p ps IH]; intros seen uniq; simpl.
  - now rewrite app_nil_r.
  - unfold set_add. destruct (set_mem (pl_path p) seen) eqn:E.
    + apply IH.
    + rewrite IH, <- app_assoc. reflexivity.
Qed.

Lemma first_by_path_unseen ps : forall seen q,
  In q (first_by_path seen ps) -> set_mem (pl_path q) seen = false.
Proof.
  induction ps as [|p ps IH]; intros seen q; simpl; [contradiction|].
  destruct (set_mem (pl_path p) seen) eqn:E.
  - apply IH.
  - intros [<-|Hin]; [assumption|].
    apply IH in Hin. simpl in Hin. now apply orb_false_elim in Hin.
Qed.

Lemma first_by_path_NoDup ps : forall seen,
  NoDup (map pl_path (first_by_path seen ps)).
Proof.
  induction ps as [|p ps IH]; intros seen; simpl; [constructor|].
  destruct (set_mem (pl_path p) seen) eqn:E; [apply IH|].
  simpl. constructor; [|apply IH].
  intros Hin. apply in_map_iff in Hin. destruct Hin as [q [Hq Hin]].
  apply first_by_path_unseen in Hin. simpl in Hin.
  rewrite Hq, String.eqb_refl in Hin. discriminate.
Qed.

Lemma first_by_path_find ps : forall seen p,
  find (has_path p) (first_by_path seen ps)
  = if set_mem p seen then None else find (has_path p) ps.
Proof.
  induction ps as [|q ps IH]; intros seen p; simpl.
  - now destruct (set_mem p seen).
  - unfold has_path at 2. destruct (set_mem (pl_path q) seen) eqn:E.
    + rewrite IH. destruct (set_mem p seen) eqn:Ep; [reflexivity|].
      destruct (String.eqb (pl_path q) p) eqn:Eq; [|reflexivity].
      apply String.eqb_eq in Eq. congruence.
    + simpl. unfold has_path at 1.
      destruct (String.eqb (pl_path q) p) eqn:Eq.
      * apply String.eqb_eq in Eq. subst p. now rewrite E.
      * rewrite IH. simpl. rewrite String.eqb_sym, Eq. reflexivity.
Qed.

Lemma first_by_path_Subseq ps : forall seen,
  Subseq (first_by_path seen ps) ps.
Proof.
  induction ps as [|p ps IH]; intros seen; simpl; [constructor|].
  destruct (set_mem (pl_path p) seen); constructor; apply IH.
Qed.

Lemma dedupe_by_path_NoDup (emitted : list Playlist) :
  NoDup (map pl_path (dedupe_by_path emitted)).
Proof.
  unfold dedupe_by_path. rewrite dedupe_fold. apply first_by_path_NoDup.
Qed.

(** What [parse_playlists] returns is such a de-duplicated list. *)
Lemma parse_playlists_unique_paths (ctx : list xml_event) (out : list Playlist) :
  parse_playlists ctx = Ok out -> NoDup (map pl_path out).
Proof.
  unfold parse_playlists.
  destruct (for_each parse_playlists_step ctx _) as [st|e]; simpl; [|discriminate].
  intros [= <-]. apply dedupe_by_path_NoDup.
Qed.

End Dedupe.

(* ===================================================================== *)
(** ** Playlist graph validation *)
(* ===================================================================== *)

Section PlaylistGraph.

Implicit Types (tracks : list Track) (playlists : list Playlist).

Lemma tracks_by_key_keys tracks : forall (d : dict Track) k,
  In k (map fst (fold_left by_key_step tracks d))
  <-> In k (map fst d) \/ exists t, In t tracks /\ track_id t = k /\ k <> "".
Proof.
  induction tracks as [|t tracks IH]; intros d k; simpl.
  - split; [now left|]. intros [H|[t [[] _]]]. exact H.
  - rewrite IH. unfold by_key_step.
    destruct (track_id t) as [|c r] eqn:Eid; simpl.
    + split.
      * intros [H|[u [Hu Hk]]]; [now left|]. right. exists u. auto.
      * intros [H|[u [[<-|Hu] [Hk Hne]]]]; [now left| |].
        -- congruence.
        -- right. exists u. auto.
    + rewrite <- Eid. rewrite dict_set_keys. split.
      * intros [[->|H]|[u [Hu Hk]]].
        -- right. exists t. split; [now left|]. split; [reflexivity|]. now rewrite Eid.
        -- now left.
        -- right. exists u. tauto.
      * intros [H|[u [[<-|Hu] [Hk Hne]]]].
        -- left. now right.
        -- left. now left.
        -- right. exists u. auto.
Qed.

Lemma tracks_by_key_NoDup tracks : forall (d : dict Track),
  NoDup (map fst d) -> NoDup (map fst (fold_left by_key_step tracks d)).
Proof.
  induction tracks as [|t tracks IH]; intros d Hnd; simpl; [assumption|].
  apply IH. unfold by_key_step. destruct (truthy (track_id t)); [|assumption].
  now apply dict_set_NoDup.
Qed.

Lemma tracks_by_key_mem tracks k :
  dict_mem k (tracks_by_key tracks) = true
  <-> exists t, In t tracks /\ track_id t = k /\ k <> "".
Proof.
  rewrite dict_mem_true. unfold tracks_by_key.
  change (fun d t => if truthy (track_id t) then dict_set (track_id t) t d else d)
    with by_key_step.
  rewrite tracks_by_key_keys. simpl. tauto.
Qed.

Lemma set_mem_add k k' (u : pyset) :
  set_mem k (set_add k' u) = String.eqb k k' || set_mem k u.
Proof.
  unfold set_add. destruct (set_mem k' u) eqn:E; simpl; [|reflexivity].
  destruct (String.eqb k k') eqn:Ek; [|reflexivity].
  apply String.eqb_eq in Ek. subst. now rewrite E.
Qed.

Lemma used_keys_inner (keys : list string) : forall (u : pyset) k,
  set_mem k (fold_left (fun u k' => set_add k' u) keys u)
  = set_mem k u || existsb (String.eqb k) keys.
Proof.
  induction keys as [|k' keys IH]; intros u k; simpl.
  - now rewrite orb_false_r.
  - rewrite IH, set_mem_add.
    destruct (String.eqb k k'), (set_mem k u); reflexivity.
Qed.

Lemma used_keys_outer playlists : forall (u : pyset) k,
  set_mem k
    (fold_left (fun used p => fold_left (fun u k' => set_add k' u) (track_keys p) used)
               playlists u)
  = set_mem k u
    || existsb (fun p => existsb (String.eqb k) (track_keys p)) playlists.
Proof.
  induction playlists as [|p playlists IH]; intros u k; simpl.
  - now rewrite orb_false_r.
  - rewrite IH, used_keys_inner. now rewrite orb_assoc.
Qed.

Lemma used_keys_unreferenced playlists k :
  (forall p, In p playlists -> ~ In k (track_keys p)) ->
  set_mem k (used_keys playlists) = false.
Proof.
  intros Hno. unfold used_keys. rewrite used_keys_outer. simpl.
  destruct (existsb _ playlists) eqn:E; [|reflexivity].
  apply existsb_exists in E. destruct E as [p [Hp E]].
  apply existsb_exists in E. destruct E as [k' [Hk' E]].
  apply String.eqb_eq in E. subst k'. now elim (Hno p Hp).
Qed.

Lemma broken_inner (by_key : dict Track) (q : Playlist) path X (keys : list string) :
  dict_mem X by_key = false ->
  List.length
    (filter (fun r => String.eqb (PlaylistPath r) path
                      && String.eqb (MissingTrackKey r) X)
       (flat_map
          (fun k => if negb (dict_mem k by_key) then [mkBroken (pl_path q) k] else [])
          keys))
  = if String.eqb (pl_path q) path then count_occ string_dec keys X else 0%nat.
Proof.
  intros HX. induction keys as [|k keys IH]; simpl.
  - now destruct (String.eqb (pl_path q) path).
  - rewrite filter_app, length_app, IH.
    destruct (string_dec k X) as [->|Hne].
    + rewrite HX. simpl. rewrite String.eqb_refl, andb_true_r.
      now destruct (String.eqb (pl_path q) path).
    + replace (List.length _) with 0%nat; [reflexivity|].
      destruct (negb (dict_mem k by_key)); simpl; [|reflexivity].
      apply String.eqb_neq in Hne. now rewrite Hne, andb_false_r.
Qed.

Lemma broken_outer (by_key : dict Track) path X playlists :
  dict_mem X by_key = false ->
  broken_for path X (broken_rows by_key playlists)
  = list_sum
      (map (fun q => if String.eqb (pl_path q) path
                     then count_occ string_dec (track_keys q) X else 0%nat)
           playlists).
Proof.
  intros HX. unfold broken_for, broken_rows.
  induction playlists as [|q playlists IH]; simpl; [reflexivity|].
  rewrite filter_app, length_app, IH. f_equal. now apply broken_inner.
Qed.

Lemma sum_at_unique_path (c : Playlist -> nat) playlists p :
  NoDup (map pl_path playlists) -> In p playlists ->
  list_sum (map (fun q => if String.eqb (pl_path q) (pl_path p) then c q else 0%nat)
                playlists) = c p.
Proof.
  induction playlists as [|q playlists IH]; simpl; intros Hnd Hin; [contradiction|].
  inversion Hnd as [|? ? Hnotin Hnd']; subst.
  destruct Hin as [->|Hin].
  - rewrite String.eqb_refl.
    replace (list_sum _) with 0%nat; [lia|].
    clear IH Hnd. induction playlists as [|r playlists IHr]; simpl; [reflexivity|].
    inversion Hnd' as [|? ? ? Hnd'']; subst.
    destruct (String.eqb (pl_path r) (pl_path p)) eqn:E.
    + apply String.eqb_eq in E. elim Hnotin. left. exact E.
    + simpl. apply IHr; [|assumption]. intros Hx. apply Hnotin. now right.
  - destruct (String.eqb (pl_path q) (pl_path p)) eqn:E.
    + apply String.eqb_eq in E. elim Hnotin. rewrite E. now apply in_map.
    + simpl. now apply IH.
Qed.

Lemma orphan_rows_for (by_key : dict Track) (used : pyset) k :
  NoDup (map fst by_key) ->
  filter (fun r => String.eqb (TrackKey r) k) (orphan_rows by_key used)
  = match dict_get k by_key with
    | Some t =>
        if negb (set_mem k used)
        then [mkOrphan k (track_id t) (artist t) (name t) (location_path t)]
        else []
    | None => []
    end.
Proof.
  intros Hnd. unfold orphan_rows.
  rewrite (filter_flat_map_keyed TrackKey); auto.
  intros k0 v r _. destruct (negb (set_mem k0 used)); simpl; [|contradiction].
  now intros [<-|[]].
Qed.

(** C7 (amended). With playlist paths unique, as [parse_playlists] returns
    them: a playlist yields one broken-reference row for the pair
    ([X], its path) per occurrence of [X] in its member list, when no loaded
    track has the identifier [X] (exactly one row when [X] is listed once);
    and a loaded track with a non-empty identifier that no playlist
    references yields exactly one orphan row. *)
Theorem playlist_graph_rows tracks playlists :
  NoDup (map pl_path playlists) ->
  (forall p X,
      In p playlists ->
      (forall t, In t tracks -> track_id t <> X) ->
      broken_for (pl_path p) X (broken_rows (tracks_by_key tracks) playlists)
      = count_occ string_dec (track_keys p) X) /\
  (forall t,
      In t tracks -> track_id t <> "" ->
      (forall p, In p playlists -> ~ In (track_id t) (track_keys p)) ->
      orphans_for (track_id t)
        (orphan_rows (tracks_by_key tracks) (used_keys playlists)) = 1%nat).
Proof.
  intros Hnd. split.
  - intros p X Hp Hnone.
    assert (HX : dict_mem X (tracks_by_key tracks) = false).
    { destruct (dict_mem X (tracks_by_key tracks)) eqn:E; [|reflexivity].
      apply tracks_by_key_mem in E. destruct E as [t [Ht [Hid _]]].
      now elim (Hnone t Ht). }
    rewrite broken_outer by assumption.
    now apply (sum_at_unique_path (fun q => count_occ string_dec (track_keys q) X)).
  - intros t Ht Hid Hunref. unfold orphans_for.
    rewrite orphan_rows_for.
    2:{ unfold tracks_by_key. apply (tracks_by_key_NoDup tracks []). constructor. }
    assert (Hmem : dict_mem (track_id t) (tracks_by_key tracks) = true).
    { apply tracks_by_key_mem. exists t. auto. }
    unfold dict_mem in Hmem.
    destruct (dict_get (track_id t) (tracks_by_key tracks)); [|discriminate].
    now rewrite used_keys_unreferenced.
Qed.

End PlaylistGraph.

(* ===================================================================== *)
(** ** Grouping on a [defaultdict(list)] *)
(* ===================================================================== *)

Section Grouping.

Context {A : Type}.

Implicit Types (d : dict (list A)) (k : string) (xs : list A).

Lemma dd_append_get_same k (v : A) d :
  dict_get k (dd_append k v d)
  = Some (match dict_get k d with
          | Some l => (l ++ [v])%list
          | None => [v]
          end).
Proof.
  induction d as [|[k' l] d IH]; simpl.
  - now rewrite String.eqb_refl.
  - destruct (String.eqb k' k) eqn:E; simpl; rewrite E; auto.
Qed.

Lemma dd_append_get_other k k' (v : A) d :
  k <> k' -> dict_get k' (dd_append k v d) = dict_get k' d.
Proof.
  intros Hne. apply String.eqb_neq in Hne.
  induction d as [|[k0 l] d IH]; simpl.
  - now rewrite Hne.
  - destruct (String.eqb k0 k) eqn:E; simpl; [|now rewrite IH].
    apply String.eqb_eq in E. subst k0. now rewrite Hne.
Qed.

Lemma dd_append_keys k (v : A) d k' :
  In k' (map fst (dd_append k v d)) <-> k' = k \/ In k' (map fst d).
Proof.
  induction d as [|[k0 l] d IH]; simpl.
  - intuition.
  - destruct (String.eqb k0 k) eqn:E; simpl.
    + apply String.eqb_eq in E. subst k0. intuition.
    + rewrite IH. intuition.
Qed.

Lemma dd_append_NoDup k (v : A) d :
  NoDup (map fst d) -> NoDup (map fst (dd_append k v d)).
Proof.
  induction d as [|[k0 l] d IH]; simpl; intros Hnd.
  - constructor; [intros []|constructor].
  - inversion Hnd as [|? ? Hnotin Hnd']; subst.
    destruct (String.eqb k0 k) eqn:E; simpl.
    + now constructor.
    + constructor; [|now apply IH].
      rewrite dd_append_keys. intros [->|Hin]; [|contradiction].
      now rewrite String.eqb_refl in E.
Qed.

Variables (keep : A -> bool) (key : A -> string).

Lemma grouped_NoDup xs : forall d,
  NoDup (map fst d) -> NoDup (map fst (grouped keep key xs d)).
Proof.
  induction xs as [|x xs IH]; intros d Hnd; simpl; [assumption|].
  apply IH. destruct (keep x); [now apply dd_append_NoDup|assumption].
Qed.

Lemma grouped_get k xs : forall d,
  dict_get k (grouped keep key xs d)
  = match dict_get k d with
    | Some l => Some (l ++ selected keep key k xs)%list
    | None =>
        match selected keep key k xs with
        | [] => None
        | l => Some l
        end
    end.
Proof.
  unfold selected.
  induction xs as [|x xs IH]; intros d; simpl.
  - destruct (dict_get k d); [now rewrite app_nil_r|reflexivity].
  - rewrite IH. destruct (keep x) eqn:Ek; simpl; [|reflexivity].
    destruct (String.eqb (key x) k) eqn:E.
    + apply String.eqb_eq in E. rewrite <- E at 1. rewrite dd_append_get_same.
      rewrite E. destruct (dict_get k d); [|reflexivity].
      now rewrite <- app_assoc.
    + apply String.eqb_neq in E. now rewrite dd_append_get_other.
Qed.

(** From the empty dictionary: the entry of [k] is the list of the kept
    elements with key [k], in order, and is absent when there is none. *)
Lemma grouped_entry k xs (grp : list A) :
  In (k, grp) (grouped keep key xs []) <->
  grp = selected keep key k xs /\ grp <> [].
Proof.
  assert (Hnd : NoDup (map fst (grouped keep key xs []))).
  { apply grouped_NoDup. constructor. }
  assert (Hget := grouped_get k xs []). simpl in Hget.
  split.
  - intros Hin. apply (dict_in_get _ _ _ Hnd) in Hin. rewrite Hin in Hget.
    destruct (selected keep key k xs); [discriminate|].
    injection Hget as ->. split; [reflexivity|discriminate].
  - intros [-> Hne]. apply dict_get_in. rewrite Hget.
    destruct (selected keep key k xs); [contradiction|reflexivity].
Qed.

End Grouping.

Lemma selected_in {A : Type} (keep : A -> bool) (key : A -> string) k xs x :
  In x (selected keep key k xs) <-> In x xs /\ keep x = true /\ key x = k.
Proof.
  unfold selected. rewrite filter_In, andb_true_iff, String.eqb_eq. tauto.
Qed.

Lemma filter_length_impl {A : Type} (p q : A -> bool) (l : list A) :
  (forall x, In x l -> p x = true -> q x = true) ->
  (List.length (filter p l) <= List.length (filter q l))%nat.
Proof.
  induction l as [|x l IH]; simpl; intros H; [lia|].
  assert (IH' : (List.length (filter p l) <= List.length (filter q l))%nat).
  { apply IH. intros y Hy. apply H. now right. }
  destruct (p x) eqn:Ep.
  - rewrite (H x (or_introl eq_refl) Ep). simpl. lia.
  - destruct (q x); simpl; lia.
Qed.

(** The groups reported for one key. *)
Lemma report_groups_for ty (groups : dict (list Track)) k :
  NoDup (map fst groups) ->
  filter (fun g => String.eqb (GroupKey g) k) (report_groups ty groups)
  = match dict_get k groups with
    | Some grp => if (1 <? List.length grp)%nat then [mkDupGroup ty k grp] else []
    | None => []
    end.
Proof.
  intros Hnd. unfold report_groups.
  rewrite (filter_flat_map_keyed GroupKey); auto.
  intros k0 v r _. simpl. destruct (1 <? List.length v)%nat; simpl; [|contradiction].
  now intros [<-|[]].
Qed.

Lemma in_report_groups ty (groups : dict (list Track)) g :
  In g (report_groups ty groups) <->
  DuplicateType g = ty /\ In (GroupKey g, members g) groups
  /\ (1 < List.length (members g))%nat.
Proof.
  unfold report_groups. rewrite in_flat_map. split.
  - intros [[k grp] [Hin Hg]]. simpl in Hg.
    destruct (1 <? List.length grp)%nat eqn:E; [|contradiction].
    destruct Hg as [<-|[]]. simpl. apply Nat.ltb_lt in E. auto.
  - intros [Hty [Hin Hlen]]. exists (GroupKey g, members g). split; [assumption|].
    simpl. apply Nat.ltb_lt in Hlen. rewrite Hlen. left.
    destruct g; simpl in *; now subst.
Qed.

(* ===================================================================== *)
(** ** Exact-path duplicates *)
(* ===================================================================== *)

Section ExactPath.

Implicit Types (tracks : list Track) (t u : Track) (g : DupGroup).

Lemma truthy_nonempty (s : string) : truthy s = true <-> s <> "".
Proof. destruct s; simpl; split; congruence. Qed.

Lemma by_loc_selected tracks t :
  loc_key t <> "" ->
  selected (fun u => truthy (loc_key u)) loc_key (loc_key t) tracks
  = same_location t tracks.
Proof.
  intros Hne. unfold selected, same_location. apply filter_ext. intros u.
  destruct (String.eqb (loc_key u) (loc_key t)) eqn:E; [|apply andb_false_r].
  apply String.eqb_eq in E. rewrite E, andb_true_r. now apply truthy_nonempty.
Qed.

Lemma by_loc_NoDup tracks : NoDup (map fst (by_loc tracks)).
Proof.
  apply (grouped_NoDup (fun t => truthy (loc_key t)) loc_key). constructor.
Qed.

Lemma location_group_of_member tracks g t :
  In g (location_groups tracks) -> In t (members g) ->
  loc_key t <> "" /\ g = mkDupGroup "Same Location" (loc_key t) (same_location t tracks)
  /\ (1 < List.length (same_location t tracks))%nat.
Proof.
  intros Hg Ht. apply in_report_groups in Hg. destruct Hg as [Hty [Hin Hlen]].
  apply (grouped_entry (fun u => truthy (loc_key u)) loc_key) in Hin.
  destruct Hin as [Hsel _]. rewrite Hsel in Ht.
  apply selected_in in Ht. destruct Ht as [_ [Hkeep Hkey]].
  apply truthy_nonempty in Hkeep.
  rewrite <- Hkey, by_loc_selected in Hsel by assumption.
  split; [assumption|]. split.
  - destruct g; simpl in *. now subst.
  - now rewrite <- Hsel.
Qed.

(** C6 (amended). For a track [t] of the list whose case-folded path is not
    empty and is shared by N >= 2 tracks of the list, exactly one
    "Same Location" group is reported for that path, it holds all N tracks,
    and it is the only reported group that contains [t].  A track whose path
    is shared by no other track (N < 2) is in no "Same Location" group.
    Tracks with an empty path are never grouped. *)
Theorem exact_path_groups tracks t :
  In t tracks ->
  (loc_key t <> "" ->
   (2 <= List.length (same_location t tracks))%nat ->
   let group := mkDupGroup "Same Location" (loc_key t) (same_location t tracks) in
   filter (fun g => String.eqb (GroupKey g) (loc_key t)) (location_groups tracks)
   = [group]
   /\ (forall u, In u tracks -> loc_key u = loc_key t -> In u (members group))
   /\ (forall g, In g (location_groups tracks) -> In t (members g) -> g = group))
  /\ ((List.length (same_location t tracks) < 2)%nat ->
      forall g, In g (location_groups tracks) -> ~ In t (members g))
  /\ (loc_key t = "" ->
      forall g, In g (location_groups tracks) -> ~ In t (members g)).
Proof.
  intros Hin. split; [|split].
  - intros Hne Hlen group. split; [|split].
    + unfold location_groups. rewrite report_groups_for by apply by_loc_NoDup.
      assert (Hget := grouped_get (fun u => truthy (loc_key u)) loc_key
                        (loc_key t) tracks []).
      simpl in Hget. change (grouped _ _ tracks []) with (by_loc tracks) in Hget.
      rewrite Hget, by_loc_selected by assumption.
      destruct (same_location t tracks) as [|x l] eqn:Es; [simpl in Hlen; lia|].
      assert (Hlt : (1 <? List.length (x :: l))%nat = true)
        by (apply Nat.ltb_lt; lia).
      rewrite Hlt. subst group. rewrite ?Es. reflexivity.
    + intros u Hu Hk. simpl. unfold same_location.
      apply filter_In. split; [assumption|]. now apply String.eqb_eq.
    + intros g Hg Ht.
      now destruct (location_group_of_member tracks g t Hg Ht) as [_ [-> _]].
  - intros Hlen g Hg Ht.
    destruct (location_group_of_member tracks g t Hg Ht) as [_ [_ Hlt]]. lia.
  - intros He g Hg Ht.
    now destruct (location_group_of_member tracks g t Hg Ht) as [Hne _].
Qed.

End ExactPath.

(* ===================================================================== *)
(** ** Signature groups and identity-key groups *)
(* ===================================================================== *)

Section Signature.

Implicit Types (tracks : list Track) (t u : Track) (g : DupGroup).

Lemma append_assoc (a b c : string) : (a ++ b) ++ c = a ++ (b ++ c).
Proof. induction a as [|x a IH]; simpl; [reflexivity|now rewrite IH]. Qed.

Lemma has_char_append ch (a b : string) :
  has_char ch (a ++ b) = has_char ch a || has_char ch b.
Proof.
  induction a as [|x a IH]; simpl; [reflexivity|].
  now rewrite IH, orb_assoc.
Qed.

(** A field that holds no bar can be split off the end of a bar-joined key. *)
Lemma append_bar_inj (a b x y : string) :
  has_char "|" x = false -> has_char "|" y = false ->
  a ++ "|" ++ x = b ++ "|" ++ y -> a = b /\ x = y.
Proof.
  intros Hx Hy. revert b.
  induction a as [|c a IH]; intros [|c' b]; simpl; intros Heq.
  - injection Heq as ->. auto.
  - injection Heq as <- ->.
    rewrite has_char_append in Hx. simpl in Hx.
    now rewrite orb_true_r in Hx.
  - injection Heq as -> <-.
    rewrite has_char_append in Hy. simpl in Hy.
    now rewrite orb_true_r in Hy.
  - injection Heq as -> Heq. destruct (IH b Heq) as [-> ->]. auto.
Qed.

Lemma string_of_uint_bar_free (d : Decimal.uint) :
  has_char "|" (DecimalString.NilEmpty.string_of_uint d) = false.
Proof. induction d; simpl; auto. Qed.

Lemma str_of_int_bar_free (n : Z) : has_char "|" (str_of_int n) = false.
Proof.
  unfold str_of_int, DecimalString.NilZero.string_of_int,
    DecimalString.NilZero.string_of_uint.
  destruct (Z.to_int n) as [d|d]; [|simpl]; destruct d; simpl; auto;
    apply string_of_uint_bar_free.
Qed.

Lemma sig_key_form (tk d r : string) :
  tk ++ String "|" (d ++ String "|" r) = (tk ++ "|" ++ d) ++ "|" ++ r.
Proof. now rewrite append_assoc. Qed.

Lemma sig_key_title t u k :
  sig_key t = Ok k -> sig_key u = Ok k -> title_key t = title_key u.
Proof.
  unfold sig_key. intros Ht Hu.
  destruct (if float_truthy (bpm t) then round_float (bpm t) else Ok 0%Z)
    as [rt|] ; [|discriminate].
  destruct (if float_truthy (bpm u) then round_float (bpm u) else Ok 0%Z)
    as [ru|] ; [|discriminate].
  unfold bind in Ht, Hu. injection Ht as Ht. injection Hu as Hu.
  rewrite <- Hu in Ht. clear Hu.
  rewrite !sig_key_form in Ht.
  apply append_bar_inj in Ht; try apply str_of_int_bar_free.
  destruct Ht as [Ht _].
  apply append_bar_inj in Ht; try apply str_of_int_bar_free.
  tauto.
Qed.

Lemma by_sig_grouped tracks : forall (d d' : dict (list Track)),
  for_each (fun d t => k <- sig_key t ;; Ok (dd_append k t d)) tracks d = Ok d' ->
  d' = grouped (fun _ => true) sig_key_of tracks d
  /\ forall t, In t tracks -> sig_key t = Ok (sig_key_of t).
Proof.
  induction tracks as [|t tracks IH]; intros d d'; simpl.
  - intros [= <-]. split; [reflexivity|contradiction].
  - assert (Hk : forall k, sig_key t = Ok k -> sig_key_of t = k).
    { intros k Ek. unfold sig_key_of. now rewrite Ek. }
    destruct (sig_key t) as [k|e] eqn:Ek; simpl; [|discriminate].
    intros H. apply IH in H. destruct H as [-> Hall].
    rewrite (Hk k eq_refl). split; [reflexivity|].
    intros u [<-|Hu]; [|now apply Hall].
    now rewrite (Hk k eq_refl).
Qed.

Lemma by_title_grouped tracks :
  by_title tracks = grouped title_kept title_key tracks [].
Proof. reflexivity. Qed.

(** C3 (amended). When the run of the duplicate pass completes, two tracks
    that appear together in a reported "Signature Match" group, and whose
    identity key is not blank (artist and title do not both normalise to the
    empty string), also appear together in a reported "Same Artist+Title"
    group. *)
Theorem signature_refines_identity tracks groups g t1 t2 :
  duplicates tracks = Ok groups ->
  In g groups -> DuplicateType g = "Signature Match" ->
  In t1 (members g) -> In t2 (members g) ->
  title_kept t1 = true ->
  exists g', In g' groups /\ DuplicateType g' = "Same Artist+Title"
             /\ In t1 (members g') /\ In t2 (members g').
Proof.
  unfold duplicates, signature_groups. intros Hrun Hg Hty H1 H2 Hkept.
  destruct (by_sig tracks) as [sigs|e] eqn:Esig; simpl in Hrun; [|discriminate].
  injection Hrun as <-.
  apply by_sig_grouped in Esig. destruct Esig as [-> Hok].
  (* [g] is one of the signature groups *)
  assert (Hgs : In g (report_groups "Signature Match"
                        (grouped (fun _ => true) sig_key_of tracks []))).
  { apply in_app_or in Hg. destruct Hg as [Hg|Hg].
    - apply in_report_groups in Hg. destruct Hg as [Hty' _]. congruence.
    - apply in_app_or in Hg. destruct Hg as [Hg|Hg]; [|assumption].
      apply in_report_groups in Hg. destruct Hg as [Hty' _]. congruence. }
  apply in_report_groups in Hgs. destruct Hgs as [_ [Hin Hlen]].
  apply grouped_entry in Hin. destruct Hin as [Hsel _].
  rewrite Hsel in H1, H2, Hlen.
  apply selected_in in H1. destruct H1 as [Hin1 [_ Hk1]].
  apply selected_in in H2. destruct H2 as [Hin2 [_ Hk2]].
  assert (Hsame : forall u, In u tracks -> sig_key_of u = GroupKey g ->
                            title_key u = title_key t1).
  { intros u Hu Hk. apply (sig_key_title u t1 (GroupKey g)).
    - rewrite <- Hk. now apply Hok.
    - rewrite <- Hk1. now apply Hok. }
  (* the identity-key group of [t1] *)
  set (grp := selected title_kept title_key (title_key t1) tracks).
  assert (Hmem : forall u, In u tracks -> sig_key_of u = GroupKey g -> In u grp).
  { intros u Hu Hk. apply selected_in. split; [assumption|].
    assert (Htk := Hsame u Hu Hk). split; [|assumption].
    unfold title_kept in *. now rewrite Htk. }
  exists (mkDupGroup "Same Artist+Title" (title_key t1) grp). simpl.
  split; [|split; [reflexivity|split; auto]].
  apply in_or_app. right. apply in_or_app. left.
  apply in_report_groups. simpl. split; [reflexivity|]. split.
  - rewrite by_title_grouped. apply grouped_entry. split; [reflexivity|].
    intros He. specialize (Hmem t1 Hin1 Hk1). rewrite He in Hmem. contradiction.
  - eapply Nat.lt_le_trans; [exact Hlen|].
    unfold grp, selected. apply filter_length_impl.
    intros u Hu Hp. simpl in Hp. apply String.eqb_eq in Hp.
    specialize (Hsame u Hu Hp). rewrite Hsame, String.eqb_refl, andb_true_r.
    unfold title_kept in *. now rewrite Hsame.
Qed.

End Signature.

(* ===================================================================== *)
(** ** Cross-source comparison *)
(* ===================================================================== *)

Section MikCompare.

Implicit Types (tracks : list Track) (mik : dict MikEntry) (t : Track)
  (m : MikEntry) (pth : string).

Lemma lower_nonempty (s : string) : truthy (lower s) = truthy s.
Proof. now destruct s. Qed.

Lemma dict_set_in {V : Type} k (v : V) (d : dict V) k' v' :
  In (k', v') (dict_set k v d) -> (k' = k /\ v' = v) \/ In (k', v') d.
Proof.
  induction d as [|[k0 v0] d IH]; simpl.
  - intros [[= <- <-]|[]]. now left.
  - destruct (String.eqb k0 k) eqn:E; simpl.
    + apply String.eqb_eq in E. subst k0.
      intros [[= <- <-]|Hin]; [now left|right; now right].
    + intros [Heq|Hin]; [right; now left|].
      destruct (IH Hin) as [H|H]; [now left|right; now right].
Qed.

Lemma rb_paths_invariant tracks : forall (d : dict Track),
  NoDup (map fst d) ->
  (forall k t, In (k, t) d -> k = loc_key t /\ k <> "") ->
  NoDup (map fst (fold_left rb_step tracks d))
  /\ (forall k t, In (k, t) (fold_left rb_step tracks d) -> k = loc_key t /\ k <> "").
Proof.
  induction tracks as [|t tracks IH]; intros d Hnd Hkeys; simpl; [auto|].
  apply IH; unfold rb_step; destruct (truthy (location_path t)) eqn:E; auto.
  - now apply dict_set_NoDup.
  - intros k u Hin. apply dict_set_in in Hin. destruct Hin as [[-> ->]|Hin]; auto.
    split; [reflexivity|]. apply truthy_nonempty. unfold loc_key.
    now rewrite lower_nonempty.
Qed.

Lemma rb_paths_NoDup tracks : NoDup (map fst (rb_paths tracks)).
Proof. apply (rb_paths_invariant tracks []); [constructor|intros ? ? []]. Qed.

Lemma rb_paths_key tracks k t :
  In (k, t) (rb_paths tracks) -> k = loc_key t /\ k <> "".
Proof. apply (rb_paths_invariant tracks []); [constructor|intros ? ? []]. Qed.

Lemma rb_paths_keys_from tracks : forall (d : dict Track) k,
  In k (map fst (fold_left rb_step tracks d))
  <-> In k (map fst d)
      \/ exists t, In t tracks /\ location_path t <> "" /\ loc_key t = k.
Proof.
  induction tracks as [|t tracks IH]; intros d k; simpl.
  - split; [now left|]. intros [H|[t [[] _]]]. exact H.
  - rewrite IH. unfold rb_step.
    destruct (truthy (location_path t)) eqn:E.
    + apply truthy_nonempty in E. rewrite dict_set_keys. split.
      * intros [[->|H]|[u [Hu Hk]]].
        -- right. exists t. auto.
        -- now left.
        -- right. exists u. tauto.
      * intros [H|[u [[<-|Hu] [Hne Hk]]]].
        -- left. now right.
        -- left. left. now symmetry.
        -- right. exists u. auto.
    + split.
      * intros [H|[u [Hu Hk]]]; [now left|]. right. exists u. tauto.
      * intros [H|[u [[<-|Hu] [Hne Hk]]]]; [now left| |].
        -- apply truthy_nonempty in Hne. congruence.
        -- right. exists u. auto.
Qed.

(** The keys of [rb_paths]: the distinct non-empty case-folded paths. *)
Lemma rb_paths_keys tracks k :
  In k (map fst (rb_paths tracks))
  <-> exists t, In t tracks /\ location_path t <> "" /\ loc_key t = k.
Proof.
  unfold rb_paths.
  change (fun d t => if truthy (location_path t) then dict_set (loc_key t) t d else d)
    with rb_step.
  rewrite rb_paths_keys_from. simpl. tauto.
Qed.

Lemma diff_fold mik (rb : dict Track) : forall (rows : list MikRow),
  for_each (diff_step mik) rb rows = Ok (rows ++ flat_map (diff_rows mik) rb)%list.
Proof.
  induction rb as [|[pth t] rb IH]; intros rows; simpl.
  - now rewrite app_nil_r.
  - unfold diff_rows at 1. simpl. destruct (dict_get pth mik) as [m|]; simpl.
    + destruct (truthy_list _); simpl; rewrite IH; [|reflexivity].
      now rewrite <- app_assoc.
    + apply IH.
Qed.

Lemma mik_compare_rows tracks mik :
  mik_compare tracks mik
  = Ok (missing_in_mik (rb_paths tracks) mik
        ++ missing_in_rb (rb_paths tracks) mik
        ++ flat_map (diff_rows mik) (rb_paths tracks))%list.
Proof. unfold mik_compare. now rewrite diff_fold, <- app_assoc. Qed.

(** For a path present in both mappings, the only rows that concern it are
    those of the diff loop. *)
Lemma rows_for_common_path tracks mik pth t m :
  dict_get pth (rb_paths tracks) = Some t ->
  dict_get pth mik = Some m ->
  exists rows, mik_compare tracks mik = Ok rows
               /\ rows_for pth rows = diff_rows mik (pth, t).
Proof.
  intros Ht Hm. eexists. split; [apply mik_compare_rows|].
  assert (Hnd := rb_paths_NoDup tracks).
  assert (Hne : pth <> "").
  { apply dict_get_in in Ht. now apply rb_paths_key in Ht. }
  unfold rows_for. rewrite !filter_app.
  replace (filter _ (missing_in_mik _ mik)) with (@nil MikRow).
  replace (filter _ (missing_in_rb _ mik)) with (@nil MikRow).
  - simpl. rewrite (filter_flat_map_keyed (fun r => lower (RB_Path r))); auto.
    + now rewrite Ht.
    + intros k u r Hin. apply rb_paths_key in Hin. destruct Hin as [-> _].
      unfold diff_rows. simpl. destruct (dict_get (loc_key u) mik); [|contradiction].
      destruct (truthy_list _); [|contradiction]. now intros [<-|[]].
  - symmetry. apply filter_none. intros r Hr. unfold missing_in_rb in Hr.
    apply in_flat_map in Hr. destruct Hr as [[k m'] [_ Hr]].
    destruct (negb (dict_mem k (rb_paths tracks))); [|contradiction].
    destruct Hr as [<-|[]]. simpl. now destruct pth.
  - symmetry. unfold missing_in_mik.
    rewrite (filter_flat_map_keyed (fun r => lower (RB_Path r))); auto.
    + rewrite Ht. unfold dict_mem. now rewrite Hm.
    + intros k u r Hin. apply rb_paths_key in Hin. destruct Hin as [-> _].
      destruct (negb (dict_mem (loc_key u) mik)); [|contradiction].
      now intros [<-|[]].
Qed.

(** C1 (amended). For a path present in both mappings with both tempos
    non-zero, the comparison completes and reports one row naming the tempo
    for that path exactly when the absolute difference is at least 0.75
    (comparison [>=]): a difference exactly equal to 0.75 is reported as
    drifted, a smaller one is not. *)
Theorem tempo_drift_threshold tracks mik pth t m :
  dict_get pth (rb_paths tracks) = Some t ->
  dict_get pth mik = Some m ->
  float_truthy (bpm t) = true ->
  float_truthy (m_bpm m) = true ->
  exists rows,
    mik_compare tracks mik = Ok rows
    /\ List.length (filter names_bpm (rows_for pth rows))
       = (if PrimFloat.leb 0.75 (PrimFloat.abs (m_bpm m - bpm t)) then 1 else 0)%nat
    /\ (PrimFloat.abs (m_bpm m - bpm t) = 0.75%float ->
        List.length (filter names_bpm (rows_for pth rows)) = 1%nat).
Proof.
  intros Ht Hm Hbt Hbm.
  destruct (rows_for_common_path tracks mik pth t m Ht Hm) as [rows [Hrun Hrows]].
  exists rows. split; [assumption|].
  assert (Hlen : List.length (filter names_bpm (rows_for pth rows))
                 = (if PrimFloat.leb 0.75 (PrimFloat.abs (m_bpm m - bpm t))
                    then 1 else 0)%nat).
  { rewrite Hrows. unfold diff_rows. simpl. rewrite Hm.
    unfold bpm_status. rewrite Hbt, Hbm. simpl.
    destruct (PrimFloat.leb 0.75 (PrimFloat.abs (m_bpm m - bpm t))).
    - simpl. now destruct (key_status (strip (m_key m)) t) as [|x [|y l]].
    - simpl. unfold key_status.
      destruct (truthy (strip (m_key m)) && truthy (key t) && _); reflexivity. }
  split; [assumption|].
  intros Heq. rewrite Hlen, Heq. reflexivity.
Qed.

(** C10. For a path present in both mappings the comparison completes and:
    when the tempo is zero on either side no row for that path names the
    tempo; when the key is empty on either side (on the MIK side, after
    trimming) no row for that path names the key; when both hold, no row at
    all is reported for that path. *)
Theorem missing_metrics_are_skipped tracks mik pth t m :
  dict_get pth (rb_paths tracks) = Some t ->
  dict_get pth mik = Some m ->
  exists rows,
    mik_compare tracks mik = Ok rows
    /\ (float_truthy (bpm t) = false \/ float_truthy (m_bpm m) = false ->
        filter names_bpm (rows_for pth rows) = [])
    /\ (key t = "" \/ strip (m_key m) = "" ->
        filter names_key (rows_for pth rows) = [])
    /\ (float_truthy (bpm t) = false \/ float_truthy (m_bpm m) = false ->
        key t = "" \/ strip (m_key m) = "" ->
        rows_for pth rows = []).
Proof.
  intros Ht Hm.
  destruct (rows_for_common_path tracks mik pth t m Ht Hm) as [rows [Hrun Hrows]].
  exists rows. split; [assumption|]. rewrite Hrows. unfold diff_rows. simpl.
  rewrite Hm.
  assert (Hb : float_truthy (bpm t) = false \/ float_truthy (m_bpm m) = false ->
               bpm_status (m_bpm m) t = []).
  { unfold bpm_status. intros [->| ->]; [now rewrite andb_false_r|reflexivity]. }
  assert (Hk : key t = "" \/ strip (m_key m) = "" ->
               key_status (strip (m_key m)) t = []).
  { unfold key_status. intros [->| ->]; simpl; [now rewrite andb_false_r|reflexivity]. }
  split; [|split].
  - intros H. rewrite (Hb H). simpl. unfold key_status.
    destruct (truthy (strip (m_key m)) && truthy (key t) && _); reflexivity.
  - intros H. rewrite (Hk H), app_nil_r. unfold bpm_status.
    destruct (float_truthy (m_bpm m) && float_truthy (bpm t) && _); reflexivity.
  - intros H1 H2. now rewrite (Hb H1), (Hk H2).
Qed.

End MikCompare.

(* ===================================================================== *)
(** ** A secondary source without a path column *)
(* ===================================================================== *)

Section UnusableSecondary.

Variable os_sep : string.

Lemma first_match_none (test : string -> string -> bool) (cands cols : list string) :
  (forall cand c, In cand cands -> In c cols -> test cand c = false) ->
  first_match test cands cols = None.
Proof.
  induction cands as [|cand cands IH]; simpl; intros H; [reflexivity|].
  destruct (find (test cand) cols) as [c|] eqn:E.
  - apply find_some in E. destruct E as [Hc Ht].
    rewrite (H cand c) in Ht; [discriminate|now left|assumption].
  - apply IH. intros cand' c Hcand Hc. apply H; [now right|assumption].
Qed.

Lemma no_path_column_find_col (cols : list string) :
  no_path_column cols = true -> find_col cols path_cands = None.
Proof.
  unfold no_path_column. intros H.
  assert (Hall : forall cand c, In cand path_cands -> In c cols ->
            String.eqb (lower c) (lower cand) = false
            /\ contains (lower c) (lower cand) = false).
  { intros cand c Hcand Hc.
    rewrite forallb_forall in H. specialize (H cand Hcand).
    rewrite forallb_forall in H. specialize (H c Hc).
    apply andb_true_iff in H. destruct H as [H1 H2].
    now rewrite negb_true_iff in H1, H2. }
  unfold find_col.
  rewrite first_match_none; [|intros; now apply Hall].
  apply first_match_none. intros. now apply Hall.
Qed.

Lemma read_without_path_column (bpm_col key_col : option string)
  (rows : list (dict string)) : forall (data : dict MikEntry),
  for_each (read_mik_step os_sep None bpm_col key_col) rows data = Ok data.
Proof.
  induction rows as [|row rows IH]; intros data; simpl; [reflexivity|apply IH].
Qed.

Lemma missing_in_empty_mik (rb : dict Track) :
  missing_in_mik rb [] = map (fun pt => missing_row (snd pt)) rb.
Proof.
  induction rb as [|[pth t] rb IH]; [reflexivity|].
  change (missing_in_mik ((pth, t) :: rb) [])
    with (missing_row t :: missing_in_mik rb []).
  now rewrite IH.
Qed.

Lemma diff_rows_empty_mik (rb : dict Track) : flat_map (diff_rows []) rb = [].
Proof. induction rb as [|[pth t] rb IH]; simpl; [reflexivity|exact IH]. Qed.

(** C2 (amended). When no header of the secondary table equals or contains a
    path-like candidate name, the loader returns an empty mapping and raises
    nothing; the comparison still runs and reports exactly one
    "Missing in MIK" row per entry of the primary path mapping, and no other
    row.  The entries of that mapping are the distinct non-empty case-folded
    paths of the tracks. *)
Theorem secondary_without_path_column (f : CsvFile) (tracks : list Track) :
  no_path_column (fieldnames f) = true ->
  read_mik_csv os_sep f = Ok []
  /\ mik_pass os_sep (Some f) tracks
     = Ok (map (fun pt => missing_row (snd pt)) (rb_paths tracks))
  /\ NoDup (map fst (rb_paths tracks))
  /\ (forall k, In k (map fst (rb_paths tracks))
                <-> exists t, In t tracks /\ location_path t <> ""
                              /\ loc_key t = k).
Proof.
  intros Hcols.
  assert (Hread : read_mik_csv os_sep f = Ok []).
  { unfold read_mik_csv. rewrite (no_path_column_find_col _ Hcols).
    apply read_without_path_column. }
  split; [assumption|]. split; [|split].
  - unfold mik_pass. rewrite Hread. simpl. rewrite mik_compare_rows.
    rewrite missing_in_empty_mik, diff_rows_empty_mik. simpl.
    now rewrite app_nil_r.
  - apply rb_paths_NoDup.
  - apply rb_paths_keys.
Qed.

End UnusableSecondary.

(* ===================================================================== *)
(** ** Defensive numeric coercion *)
(* ===================================================================== *)

Section Coercion.

Implicit Types (v : pyval) (s : string).

Lemma try_except_ok {A : Type} (body : result A) (handler : A) :
  try_except body handler = Ok (or_default body handler).
Proof. now destruct body. Qed.

Lemma safe_int_returns v (d : Z) : safe_int v d = Ok (or_default (safe_int v d) d).
Proof. unfold safe_int. rewrite try_except_ok. reflexivity. Qed.

Lemma safe_float_returns v (d : float) :
  safe_float v d = Ok (or_default (safe_float v d) d).
Proof. unfold safe_float. rewrite try_except_ok. reflexivity. Qed.

Lemma track_of_attrib_numeric (os_sep : string) (a : dict string) :
  track_of_attrib os_sep a
  = (loc_path <- fileurl_to_path os_sep (raw_location a) ;;
     Ok (track_record a loc_path)).
Proof.
  unfold track_of_attrib. fold (raw_location a).
  destruct (fileurl_to_path os_sep (raw_location a)) as [p|e]; [|reflexivity].
  cbn [bind].
  rewrite (safe_int_returns (attr_or "Year" (PInt 0) a)). cbn [bind].
  rewrite (safe_float_returns (attr_or "AverageBpm" (PFloat 0) a)). cbn [bind].
  rewrite (safe_int_returns (attr_or "Size" (PInt 0) a)). cbn [bind].
  rewrite (safe_int_returns (attr_or "TotalTime" (PInt 0) a)). cbn [bind].
  rewrite (safe_int_returns (attr_or "BitRate" (PInt 0) a)). cbn [bind].
  rewrite (safe_int_returns (attr_or "SampleRate" (PInt 0) a)). cbn [bind].
  rewrite (safe_int_returns (attr_or "PlayCount" (PInt 0) a)). cbn [bind].
  reflexivity.
Qed.

(** C8 (amended). [safe_int] and [safe_float] return a value for every
    argument and never raise: the default for [None] and for a blank string,
    the parsed number when the string parses (for [safe_int], truncated to an
    integer), and the default when it does not parse or, for [safe_int],
    parses to an infinity or a NaN.  Consequently every numeric attribute
    read of the per-track step of [iter_tracks] yields a value, whatever the
    attribute holds: the step is the location conversion followed by a
    construction that cannot fail. *)
Theorem numeric_coercion_never_raises :
  (forall v (d : Z), exists n, safe_int v d = Ok n)
  /\ (forall v (d : float), exists x, safe_float v d = Ok x)
  /\ (forall (d : Z) (d' : float),
        safe_int PNone d = Ok d /\ safe_float PNone d' = Ok d')
  /\ (forall s (d : Z) (d' : float), strip s = "" ->
        safe_int (PStr s) d = Ok d /\ safe_float (PStr s) d' = Ok d')
  /\ (forall s (d : Z) (d' : float) x,
        strip s <> "" -> float_of_str (strip s) = Ok x ->
        safe_float (PStr s) d' = Ok x
        /\ (forall n, int_of_float x = Ok n -> safe_int (PStr s) d = Ok n)
        /\ (forall e, int_of_float x = Raise e -> safe_int (PStr s) d = Ok d))
  /\ (forall s (d : Z) (d' : float) e,
        strip s <> "" -> float_of_str (strip s) = Raise e ->
        safe_int (PStr s) d = Ok d /\ safe_float (PStr s) d' = Ok d')
  /\ (forall k a,
        safe_int (attr_or k (PInt 0) a) 0 = Ok (int_attr k a)
        /\ safe_float (attr_or k (PFloat 0) a) 0 = Ok (float_attr k a))
  /\ (forall os_sep a,
        track_of_attrib os_sep a
        = (loc_path <- fileurl_to_path os_sep (raw_location a) ;;
           Ok (track_record a loc_path))).
Proof.
  split; [|split; [|split; [|split; [|split; [|split; [|split]]]]]].
  - intros v d. eexists. apply safe_int_returns.
  - intros v d. eexists. apply safe_float_returns.
  - intros d d'. split; reflexivity.
  - intros s d d' Hs. unfold safe_int, safe_float. simpl. rewrite Hs. now split.
  - intros s d d' x Hs Hx. apply truthy_nonempty in Hs.
    unfold safe_int, safe_float. simpl. rewrite Hs, Hx. simpl.
    split; [reflexivity|]. split.
    + intros n Hn. now rewrite Hn.
    + intros e He. now rewrite He.
  - intros s d d' e Hs He. apply truthy_nonempty in Hs.
    unfold safe_int, safe_float. simpl. rewrite Hs, He. now split.
  - intros k a. split; [apply safe_int_returns|apply safe_float_returns].
  - apply track_of_attrib_numeric.
Qed.

End Coercion.

(* ===================================================================== *)
(** ** Path normalisation *)
(* ===================================================================== *)

Section Normalise.

Variable os_sep : string.

Implicit Types (p : ascii -> bool) (s q : string).

Lemma lstrip_clean_head p s : clean_head p (lstrip_by p s) = true.
Proof.
  induction s as [|c s IH]; simpl; [reflexivity|].
  destruct (p c) eqn:E; [assumption|]. simpl. now rewrite E.
Qed.

Lemma lstrip_fixed p s : clean_head p s = true -> lstrip_by p s = s.
Proof.
  destruct s as [|c s]; simpl; [reflexivity|].
  intros H. apply negb_true_iff in H. now rewrite H.
Qed.

Lemma rstrip_clean_head p s :
  clean_head p s = true -> clean_head p (rstrip_by p s) = true.
Proof.
  destruct s as [|c s]; simpl; [reflexivity|]. intros H.
  destruct (rstrip_by p s); simpl; [|assumption].
  apply negb_true_iff in H. rewrite H. simpl. now rewrite H.
Qed.

Lemma rstrip_idem p s : rstrip_by p (rstrip_by p s) = rstrip_by p s.
Proof.
  induction s as [|c s IH]; simpl; [reflexivity|].
  destruct (rstrip_by p s) as [|c' r] eqn:E.
  - destruct (p c) eqn:Ec; simpl; [reflexivity|]. now rewrite Ec.
  - simpl. simpl in IH. now rewrite IH.
Qed.

Lemma strip_by_idem p s : strip_by p (strip_by p s) = strip_by p s.
Proof.
  unfold strip_by.
  rewrite (lstrip_fixed p (rstrip_by p (lstrip_by p s))).
  - apply rstrip_idem.
  - apply rstrip_clean_head, lstrip_clean_head.
Qed.

Lemma strip_idem s : strip (strip s) = strip s.
Proof. apply strip_by_idem. Qed.

(** A trimmed location without the [file:] scheme is returned as it is. *)
Lemma fileurl_to_path_local q :
  strip q = q -> startswith (lower q) "file:" = false ->
  fileurl_to_path os_sep q = Ok q.
Proof.
  intros Hs Hf. unfold fileurl_to_path.
  destruct q as [|c q]; [reflexivity|].
  cbn [truthy negb]. rewrite Hs, Hf. reflexivity.
Qed.

Lemma rstrip_fixed p s : clean_tail p s = true -> rstrip_by p s = s.
Proof.
  induction s as [|c s IH]; simpl; [reflexivity|].
  destruct s as [|c' s'].
  - intros H. apply negb_true_iff in H. simpl. now rewrite H.
  - intros H. rewrite (IH H). reflexivity.
Qed.

Lemma strip_fixed s :
  clean_head is_space s = true -> clean_tail is_space s = true -> strip s = s.
Proof.
  intros Hh Ht. unfold strip, strip_by. rewrite (lstrip_fixed _ _ Hh).
  now apply rstrip_fixed.
Qed.

Lemma substring_full s : String.substring 0 (String.length s) s = s.
Proof. induction s as [|c s IH]; simpl; [reflexivity|now rewrite IH]. Qed.

Lemma remove_chars_none p s :
  all_chars (fun c => negb (p c)) s = true -> remove_chars p s = s.
Proof.
  induction s as [|c s IH]; simpl; [reflexivity|].
  intros H. apply andb_true_iff in H. destruct H as [Hc Hs].
  apply negb_true_iff in Hc. now rewrite Hc, IH.
Qed.

Lemma break_at_none p s :
  all_chars (fun c => negb (p c)) s = true -> break_at p s = (s, "").
Proof.
  induction s as [|c s IH]; simpl; [reflexivity|].
  intros H. apply andb_true_iff in H. destruct H as [Hc Hs].
  apply negb_true_iff in Hc. now rewrite Hc, IH.
Qed.

Lemma all_chars_impl (p1 p2 : ascii -> bool) s :
  (forall c, p1 c = true -> p2 c = true) ->
  all_chars p1 s = true -> all_chars p2 s = true.
Proof.
  intros Himp. induction s as [|c s IH]; simpl; [reflexivity|].
  intros H. apply andb_true_iff in H. destruct H as [Hc Hs].
  now rewrite (Himp c Hc), IH.
Qed.

Lemma url_char_facts (c : ascii) :
  url_char c = true ->
  is_tab_or_newline c = false /\ Ascii.eqb "#" c = false
  /\ Ascii.eqb "?" c = false /\ is_space c = false.
Proof.
  destruct c as [[] [] [] [] [] [] [] []]; simpl; intros H;
    try discriminate H; repeat split; reflexivity.
Qed.

Lemma alpha_facts (d : ascii) :
  is_alpha d = true ->
  url_char d = true /\ Ascii.eqb d "%" = false /\ d <> "/"%char
  /\ d <> ":"%char.
Proof.
  destruct d as [[] [] [] [] [] [] [] []]; simpl; intros H;
    try discriminate H; repeat split; try reflexivity; discriminate.
Qed.

Lemma unquote_plain_prefix (c : ascii) s :
  Ascii.eqb c "%" = false -> unquote (String c s) = String c (unquote s).
Proof. intros H. unfold unquote. simpl. now rewrite H. Qed.

Lemma all_chars_drive_tail (p : ascii -> bool) (d : ascii) rest :
  p "/"%char = true -> p ":"%char = true -> p d = true ->
  all_chars p rest = true ->
  all_chars p (String "/" (String d (":/" ++ rest))) = true.
Proof. intros H1 H2 H3 H4. simpl. now rewrite H1, H2, H3, H4. Qed.

Lemma urlsplit_drive_url (d : ascii) rest :
  is_alpha d = true -> all_chars url_char rest = true ->
  urlsplit (drive_url d rest)
  = Ok (mkSplit "file" "" (String "/" (String d (":/" ++ rest))) "" "").
Proof.
  intros Hd Hrest. destruct (alpha_facts d Hd) as [Hu [Hpc [Hsl Hco]]].
  destruct (url_char_facts d Hu) as [Htab [Hhash [Hq Hsp]]].
  set (tail := String "/" (String d (":/" ++ rest))).
  assert (Htail : forall p, p "/"%char = false -> p ":"%char = false ->
            p d = false -> (forall c, url_char c = true -> p c = false) ->
            all_chars (fun c => negb (p c)) tail = true).
  { intros p H1 H2 H3 H4. apply all_chars_drive_tail; try (now apply negb_true_iff).
    apply (all_chars_impl url_char); [|assumption].
    intros c Hc. apply negb_true_iff. now apply H4. }
  unfold urlsplit.
  replace (lstrip_by is_c0_or_space (drive_url d rest)) with (drive_url d rest)
    by reflexivity.
  replace (remove_chars is_tab_or_newline (drive_url d rest))
    with ("file://" ++ tail).
  2:{ symmetry. change (drive_url d rest) with ("file://" ++ tail).
      apply remove_chars_none. simpl.
      apply (Htail is_tab_or_newline); auto.
      intros c Hc. now apply url_char_facts. }
  replace (split_scheme ("file://" ++ tail)) with ("file", "//" ++ tail)
    by reflexivity.
  replace (split_netloc ("//" ++ tail)) with (Ok ("", tail)).
  2:{ unfold split_netloc.
      replace (startswith ("//" ++ tail) "//") with true by reflexivity.
      replace (String.substring 2 (String.length ("//" ++ tail) - 2) ("//" ++ tail))
        with (String.substring 0 (String.length tail) tail) by reflexivity.
      rewrite substring_full. reflexivity. }
  cbn [bind]. unfold split_once.
  rewrite (break_at_none (Ascii.eqb "#") tail).
  2:{ apply Htail; auto. intros c Hc. now apply url_char_facts. }
  rewrite (break_at_none (Ascii.eqb "?") tail).
  2:{ apply Htail; auto. intros c Hc. now apply url_char_facts. }
  reflexivity.
Qed.

Lemma clean_tail_url_chars (a : ascii) rest :
  is_space a = false -> all_chars url_char rest = true ->
  clean_tail is_space (String a rest) = true.
Proof.
  revert a. induction rest as [|c rest IH]; intros a Ha Hrest.
  - simpl. now rewrite Ha.
  - simpl in Hrest. apply andb_true_iff in Hrest. destruct Hrest as [Hc Hrest].
    change (clean_tail is_space (String c rest) = true).
    apply IH; [|assumption]. now apply url_char_facts.
Qed.

Lemma prefix_cons (a b : ascii) (p s : string) :
  String.prefix (String a p) (String b s)
  = if Ascii.eqb a b then String.prefix p s else false.
Proof.
  change (String.prefix (String a p) (String b s))
    with (if ascii_dec a b then String.prefix p s else false).
  destruct (ascii_dec a b) as [<-|Hne].
  - now rewrite Ascii.eqb_refl.
  - apply Ascii.eqb_neq in Hne. now rewrite Hne.
Qed.

Lemma prefix_slash (c : ascii) s :
  String.prefix "/" (String c s) = Ascii.eqb c "/".
Proof.
  rewrite prefix_cons, Ascii.eqb_sym. destruct (Ascii.eqb c "/"); [|reflexivity].
  now destruct s.
Qed.

Lemma replace_slash_step (new : string) (c : ascii) s :
  replace "/" new (String c s)
  = if Ascii.eqb c "/" then new ++ replace "/" new s
    else String c (replace "/" new s).
Proof.
  unfold replace. cbn [replace_from]. rewrite prefix_slash.
  destruct (Ascii.eqb c "/"); reflexivity.
Qed.

Lemma clean_tail_replace (sc a : ascii) u :
  is_space sc = false ->
  (u = "" -> is_space a = false) ->
  clean_tail is_space u = true ->
  clean_tail is_space (String a (replace "/" (String sc "") u)) = true.
Proof.
  intros Hsc. revert a. induction u as [|c u IH]; intros a Ha Hu.
  - simpl. now rewrite Ha.
  - rewrite replace_slash_step.
    assert (Hrest : clean_tail is_space u = true).
    { destruct u; [reflexivity|exact Hu]. }
    assert (Hlast : u = "" -> is_space c = false).
    { intros ->. simpl in Hu. now apply negb_true_iff. }
    destruct (Ascii.eqb c "/").
    + change (clean_tail is_space (String sc (replace "/" (String sc "") u)) = true).
      apply IH; auto.
    + change (clean_tail is_space (String c (replace "/" (String sc "") u)) = true).
      apply IH; auto.
Qed.

Lemma drive_path_is_local (d : ascii) u :
  os_sep = "/" \/ os_sep = "\" ->
  is_alpha d = true -> clean_tail is_space u = true ->
  fileurl_to_path os_sep (drive_path os_sep d u) = Ok (drive_path os_sep d u).
Proof.
  intros Hsep Hd Hu. destruct (alpha_facts d Hd) as [Hurl _].
  destruct (url_char_facts d Hurl) as [_ [_ [_ Hsp]]].
  apply fileurl_to_path_local.
  - apply strip_fixed.
    + simpl. now rewrite Hsp.
    + unfold drive_path.
      destruct Hsep as [-> | ->];
        match goal with
        | |- clean_tail _ (String d (":" ++ String ?sc "" ++ ?x)) = true =>
            change (clean_tail is_space (String sc x) = true)
        end; apply clean_tail_replace; auto; discriminate.
  - unfold drive_path, startswith.
    change (lower (String d (":" ++ os_sep ++ replace "/" os_sep u)))
      with (String (lower_char d) (String ":" (lower (os_sep ++ replace "/" os_sep u)))).
    rewrite !prefix_cons.
    destruct (Ascii.eqb "f" (lower_char d)); reflexivity.
Qed.

Lemma fileurl_to_path_drive_url (d : ascii) rest :
  is_alpha d = true -> all_chars url_char rest = true ->
  fileurl_to_path os_sep (drive_url d rest)
  = Ok (drive_path os_sep d (unquote rest)).
Proof.
  intros Hd Hrest. destruct (alpha_facts d Hd) as [Hurl [Hpc [Hsl Hco]]].
  destruct (url_char_facts d Hurl) as [_ [_ [_ Hsp]]].
  unfold fileurl_to_path.
  replace (truthy (drive_url d rest)) with true by reflexivity. cbn [negb].
  rewrite (strip_fixed (drive_url d rest)).
  2:{ reflexivity. }
  2:{ change (clean_tail is_space (String "/" rest) = true).
      now apply clean_tail_url_chars. }
  replace (startswith (lower (drive_url d rest)) "file:") with true by reflexivity.
  cbn [negb]. rewrite urlsplit_drive_url by assumption. cbn [bind path netloc].
  rewrite (unquote_plain_prefix "/") by reflexivity.
  rewrite (unquote_plain_prefix d) by assumption.
  change (":/" ++ rest) with (String ":" (String "/" rest)).
  rewrite (unquote_plain_prefix ":") by reflexivity.
  rewrite (unquote_plain_prefix "/") by reflexivity.
  cbn [truthy andb].
  replace (drive_rooted (String "/" (String d (String ":" (String "/" (unquote rest))))))
    with true by (simpl; now rewrite Hd).
  replace (String.substring 1 _ _)
    with (String.substring 0
            (String.length (String d (String ":" (String "/" (unquote rest)))))
            (String d (String ":" (String "/" (unquote rest)))))
    by reflexivity.
  rewrite substring_full.
  rewrite !replace_slash_step.
  replace (Ascii.eqb d "/") with false
    by (symmetry; now apply Ascii.eqb_neq).
  reflexivity.
Qed.

(** C5 (amended). On a host whose separator is [/] or [\], the file URL
    [file:///<d>:/<rest>] of a path on a lettered drive and the same path
    written with the host separator ([<d>:<sep><rest>], every [/] of the
    percent-decoded [rest] replaced by the separator) normalise to the same
    string, which is that native path.  [rest] holds no control character,
    space, [?] or [#], and its decoding does not end in whitespace. *)
Theorem file_url_and_native_path_agree (d : ascii) (rest : string) :
  os_sep = "/" \/ os_sep = "\" ->
  is_alpha d = true ->
  all_chars url_char rest = true ->
  clean_tail is_space (unquote rest) = true ->
  fileurl_to_path os_sep (drive_url d rest)
  = fileurl_to_path os_sep (drive_path os_sep d (unquote rest))
  /\ fileurl_to_path os_sep (drive_url d rest)
     = Ok (drive_path os_sep d (unquote rest)).
Proof.
  intros Hsep Hd Hrest Htail.
  rewrite fileurl_to_path_drive_url by assumption.
  rewrite drive_path_is_local by assumption.
  split; reflexivity.
Qed.

End Normalise.

(* ===================================================================== *)
(** ** Concrete runs *)
(* ===================================================================== *)

(** *** Tempo comparison at the tolerance *)

(** [track_a] (128.0) against a MIK entry of 128.75 for the same path: the
    difference is exactly 0.75 and the comparison reports "BPM diff". *)
Lemma tempo_difference_at_tolerance_is_reported :
  dict_get "d:\music\a.mp3" (rb_paths [track_a]) = Some track_a
  /\ dict_get "d:\music\a.mp3" mik_at_tolerance
     = Some (mkMikEntry "D:\Music\a.mp3" 128.75 "8A" [])
  /\ PrimFloat.abs (128.75 - bpm track_a) = 0.75%float
  /\ mik_compare [track_a] mik_at_tolerance
     = Ok [mkMikRow "BPM diff" "1" "Art" "Song" "D:\Music\a.mp3" "D:\Music\a.mp3"
             (CFloat 128) (CFloat 128.75) "8A" "8A"]
  /\ ~ (forall rows, mik_compare [track_a] mik_at_tolerance = Ok rows ->
                     filter names_bpm (rows_for "d:\music\a.mp3" rows) = []).
Proof.
  repeat split; try reflexivity.
  intros H. specialize (H _ eq_refl). discriminate H.
Qed.

Lemma tempo_drift_threshold_witness :
  exists rows,
    mik_compare [track_a] mik_below_tolerance = Ok rows
    /\ List.length (filter names_bpm (rows_for "d:\music\a.mp3" rows))
       = (if PrimFloat.leb 0.75 (PrimFloat.abs (128.5 - bpm track_a))
          then 1 else 0)%nat
    /\ (PrimFloat.abs (128.5 - bpm track_a) = 0.75%float ->
        List.length (filter names_bpm (rows_for "d:\music\a.mp3" rows)) = 1%nat).
Proof.
  apply (tempo_drift_threshold [track_a] mik_below_tolerance "d:\music\a.mp3"
           track_a (mkMikEntry "D:\Music\a.mp3" 128.5 "8A" []));
    reflexivity.
Defined.

Lemma missing_metrics_are_skipped_witness :
  exists rows,
    mik_compare [track_a] mik_unanalysed = Ok rows
    /\ rows_for "d:\music\a.mp3" rows = [].
Proof.
  destruct (missing_metrics_are_skipped [track_a] mik_unanalysed "d:\music\a.mp3"
              track_a (mkMikEntry "D:\Music\a.mp3" 0 "  " []) eq_refl eq_refl)
    as [rows [Hrun [_ [_ Hnone]]]].
  exists rows. split; [exact Hrun|].
  apply Hnone; right; reflexivity.
Defined.

(** From the files to the report: a track element with tempo 128.00 and a
    table [Location,BPM,Key] whose row gives 128.75 (at the tolerance), then
    130 (beyond it), then 128.5 (within it) for the same path. *)
Example table_row_against_track_element :
  let track := track_of_attrib "\"
                 [("TrackID", "1"); ("Name", "Song"); ("Artist", "Art");
                  ("AverageBpm", "128.00"); ("Tonality", "8A");
                  ("Location", "file://localhost/D:/Music/a.mp3")] in
  let table bpm := mkCsv ["Location"; "BPM"; "Key"]
                     [[("Location", "D:/Music/A.mp3"); ("BPM", bpm); ("Key", "8a")]] in
  let statuses bpm :=
    t <- track ;; rows <- mik_pass "\" (Some (table bpm)) [t] ;; Ok (map Status rows) in
  statuses "128.75" = Ok ["BPM diff"]
  /\ statuses "130" = Ok ["BPM diff"]
  /\ statuses "128.5" = Ok [].
Proof. repeat split; reflexivity. Qed.

(** *** Track materialisation *)

(** A track element whose Location is a file URL with an unmatched bracket in
    its host: the location conversion raises, and with it the per-track step
    and the whole of [iter_tracks]. *)
Lemma location_with_unmatched_bracket_raises :
  fileurl_to_path "\" "file://[x/a.mp3" = Raise ValueError
  /\ track_of_attrib "\" element_bad_location = Raise ValueError
  /\ iter_tracks "\"
       [(EvStart, mkElement "COLLECTION" []);
        (EvStart, mkElement "TRACK" element_bad_location);
        (EvEnd, mkElement "TRACK" element_bad_location);
        (EvEnd, mkElement "COLLECTION" [])]
     = Raise ValueError.
Proof. repeat split; reflexivity. Qed.

(** The same element with a well-formed Location and malformed numbers. *)
Example malformed_numbers_become_defaults :
  track_of_attrib "\"
    [("TrackID", "1"); ("Year", "n/a"); ("AverageBpm", "12x"); ("Size", "");
     ("TotalTime", "301.9"); ("BitRate", "inf"); ("PlayCount", "nan");
     ("Location", "file://localhost/D:/Music/a.mp3")]
  = Ok (mkTrack "1" "" "" "" "" "" "" "" 0 "" 0 "" "" 0 301 0 0 "" 0 ""
          "file://localhost/D:/Music/a.mp3" "D:\Music\a.mp3").
Proof. reflexivity. Qed.

(** *** A table without a path column *)

(** The header [Title,BPM,Key] has no path-like column, and the comparison
    still reports [track_a] as missing in MIK. *)
Lemma table_without_path_column_reports_missing :
  no_path_column (fieldnames csv_without_path) = true
  /\ read_mik_csv "\" csv_without_path = Ok []
  /\ mik_pass "\" (Some csv_without_path) [track_a]
     = Ok [mkMikRow "Missing in MIK" "1" "Art" "Song" "D:\Music\a.mp3" ""
             (CFloat 128) (CStr "") "8A" ""]
  /\ mik_pass "\" (Some csv_without_path) [track_a] <> Ok [].
Proof. repeat split; try reflexivity. discriminate. Qed.

Lemma secondary_without_path_column_witness :
  read_mik_csv "\" csv_without_path = Ok []
  /\ mik_pass "\" (Some csv_without_path) [track_a; track_b]
     = Ok [missing_row track_a; missing_row track_b].
Proof.
  destruct (secondary_without_path_column "\" csv_without_path
              [track_a; track_b] eq_refl) as [Hread [Hpass _]].
  split; [exact Hread|exact Hpass].
Defined.

(** *** Signature groups *)

(** Two tracks without artist and title: reported together as a signature
    match, and in no artist+title group. *)
Lemma blank_tracks_match_by_signature_only :
  title_groups [blank_1; blank_2] = []
  /\ duplicates [blank_1; blank_2]
     = Ok [mkDupGroup "Signature Match" "||0|0" [blank_1; blank_2]]
  /\ ~ (forall groups g t1 t2,
          duplicates [blank_1; blank_2] = Ok groups ->
          In g groups -> DuplicateType g = "Signature Match" ->
          In t1 (members g) -> In t2 (members g) ->
          exists g', In g' groups /\ DuplicateType g' = "Same Artist+Title"
                     /\ In t1 (members g') /\ In t2 (members g')).
Proof.
  split; [reflexivity|]. split; [reflexivity|].
  intros H.
  destruct (H _ (mkDupGroup "Signature Match" "||0|0" [blank_1; blank_2])
              blank_1 blank_2 eq_refl (or_introl eq_refl) eq_refl
              (or_introl eq_refl) (or_intror (or_introl eq_refl)))
    as [g' [[<-|[]] [Hty _]]].
  discriminate Hty.
Qed.

(** Same work under two spellings, tempos 128.0 and 128.25, same duration:
    one artist+title group and one signature group; with another duration,
    no signature group. *)
Example same_work_two_tempos :
  let other tempo seconds :=
    sample_track "2" "ART" "Song (Original Mix)" "D:\Music\b.mp3" tempo "8A" seconds in
  duplicates [track_a; other 128.25%float 300%Z]
  = Ok [mkDupGroup "Same Artist+Title" "art|song" [track_a; other 128.25%float 300%Z];
        mkDupGroup "Signature Match" "art|song|300|128"
          [track_a; other 128.25%float 300%Z]]
  /\ duplicates [track_a; other 128.25%float 301%Z]
     = Ok [mkDupGroup "Same Artist+Title" "art|song"
             [track_a; other 128.25%float 301%Z]].
Proof. split; reflexivity. Qed.

Lemma signature_refines_identity_witness :
  exists g',
    In g' [mkDupGroup "Same Artist+Title" "art|song" [track_a; track_b];
           mkDupGroup "Signature Match" "art|song|300|128" [track_a; track_b]]
    /\ DuplicateType g' = "Same Artist+Title"
    /\ In track_a (members g') /\ In track_b (members g').
Proof.
  apply (signature_refines_identity [track_a; track_b] _
           (mkDupGroup "Signature Match" "art|song|300|128" [track_a; track_b])
           track_a track_b).
  - reflexivity.
  - right. left. reflexivity.
  - reflexivity.
  - left. reflexivity.
  - right. left. reflexivity.
  - reflexivity.
Defined.

(** *** Path normalisation *)

(** A file URL whose path ends in an escaped space: the second pass trims
    what the first one decoded. *)
Lemma escaped_trailing_space_is_not_stable :
  fileurl_to_path "/" "file:///Music/a%20" = Ok "/Music/a "
  /\ fileurl_to_path "/" "/Music/a " = Ok "/Music/a"
  /\ fileurl_to_path "\" "file:///D:/Music/a%20" = Ok "D:\Music\a "
  /\ fileurl_to_path "\" "D:\Music\a " = Ok "D:\Music\a"
  /\ (q <- fileurl_to_path "/" "file:///Music/a%20" ;; fileurl_to_path "/" q)
     <> fileurl_to_path "/" "file:///Music/a%20".
Proof. repeat split; try reflexivity. discriminate. Qed.

(** The file-URL form and the backslash form of one path: different results
    where the separator is [/]; and where it is [\], the forward-slash form
    of the path is left as it is. *)
Lemma same_path_two_spellings_differ :
  fileurl_to_path "/" "file:///D:/Music/a.mp3" = Ok "D:/Music/a.mp3"
  /\ fileurl_to_path "/" "D:\Music\a.mp3" = Ok "D:\Music\a.mp3"
  /\ fileurl_to_path "\" "file:///D:/Music/a.mp3" = Ok "D:\Music\a.mp3"
  /\ fileurl_to_path "\" "D:/Music/a.mp3" = Ok "D:/Music/a.mp3"
  /\ fileurl_to_path "/" "file:///D:/Music/a.mp3"
     <> fileurl_to_path "/" "D:\Music\a.mp3".
Proof. repeat split; try reflexivity. discriminate. Qed.

Lemma file_url_and_native_path_agree_witness :
  fileurl_to_path "\" "file:///D:/My%20Music/a.mp3"
  = fileurl_to_path "\" "D:\My Music\a.mp3"
  /\ fileurl_to_path "\" "file:///D:/My%20Music/a.mp3" = Ok "D:\My Music\a.mp3".
Proof.
  apply (file_url_and_native_path_agree "\" "D" "My%20Music/a.mp3").
  - right. reflexivity.
  - reflexivity.
  - reflexivity.
  - reflexivity.
Defined.

(** *** Exact-path groups *)

(** Two tracks whose path is empty have identical normalised paths and are
    not grouped. *)
Lemma tracks_without_path_are_not_grouped :
  loc_key blank_1 = loc_key blank_2
  /\ List.length (same_location blank_1 [blank_1; blank_2]) = 2%nat
  /\ location_groups [blank_1; blank_2] = []
  /\ ~ (exists g, In g (location_groups [blank_1; blank_2])
                  /\ In blank_1 (members g) /\ In blank_2 (members g)).
Proof.
  repeat split; try reflexivity. intros [g [[] _]].
Qed.

Lemma exact_path_groups_witness :
  filter (fun g => String.eqb (GroupKey g) "d:\music\a.mp3")
    (location_groups [track_a; track_b; track_c])
  = [mkDupGroup "Same Location" "d:\music\a.mp3" [track_a; track_c]]
  /\ (forall g, In g (location_groups [track_a; track_b; track_c]) ->
                ~ In track_b (members g)).
Proof.
  split.
  - destruct (exact_path_groups [track_a; track_b; track_c] track_a
                (or_introl eq_refl)) as [Hgroup _].
    apply Hgroup; [discriminate|simpl; lia].
  - destruct (exact_path_groups [track_a; track_b; track_c] track_b
                (or_intror (or_introl eq_refl))) as [_ [Halone _]].
    apply Halone. simpl. lia.
Defined.

(** *** Playlist graph *)

(** A playlist that lists the missing identifier 99 twice yields two
    broken-reference rows for it. *)
Lemma broken_reference_listed_twice :
  In "99" (track_keys playlist_twice)
  /\ (forall t, In t [track_a; track_b] -> track_id t <> "99")
  /\ broken_for "Sets/Friday" "99"
       (broken_rows (tracks_by_key [track_a; track_b]) [playlist_twice]) = 2%nat
  /\ broken_for "Sets/Friday" "99"
       (broken_rows (tracks_by_key [track_a; track_b]) [playlist_twice]) <> 1%nat.
Proof.
  split; [right; left; reflexivity|]. split; [|split; [reflexivity|discriminate]].
  intros t [<-|[<-|[]]]; discriminate.
Qed.

(** A loaded track without identifier, referenced by no playlist, yields no
    orphan row. *)
Lemma track_without_id_is_not_an_orphan :
  orphan_rows (tracks_by_key [track_with_id ""]) (used_keys [playlist_once]) = [].
Proof. reflexivity. Qed.

Lemma playlist_graph_rows_witness :
  broken_for "Sets/Friday" "99"
    (broken_rows (tracks_by_key [track_a; track_b]) [playlist_once]) = 1%nat
  /\ orphans_for "2"
       (orphan_rows (tracks_by_key [track_a; track_b]) (used_keys [playlist_once]))
     = 1%nat.
Proof.
  destruct (playlist_graph_rows [track_a; track_b] [playlist_once]) as [Hb Ho].
  - constructor; [intros []|constructor].
  - split.
    + apply (Hb playlist_once "99"); [left; reflexivity|].
      intros t [<-|[<-|[]]]; discriminate.
    + apply (Ho track_b); [right; left; reflexivity|discriminate|].
      intros p [<-|[]] [H|[H|[]]]; discriminate H.
Defined.

(* ===================================================================== *)
(** ** Indexes built by assignment: the last writer wins *)
(* ===================================================================== *)

Section LastWins.

Context {A : Type}.
Variables (keep : A -> bool) (key : A -> string).

Lemma find_app_last (p : A -> bool) (l : list A) (x : A) :
  find p (l ++ [x])
  = match find p l with
    | Some y => Some y
    | None => if p x then Some x else None
    end.
Proof.
  induction l as [|y l IH]; simpl; [reflexivity|].
  destruct (p y); [reflexivity|exact IH].
Qed.

Lemma assigned_last_wins (xs : list A) k : forall (d : dict A),
  dict_get k (fold_left (fun d x => if keep x then dict_set (key x) x d else d) xs d)
  = match find_last (fun x => keep x && String.eqb (key x) k) xs with
    | Some x => Some x
    | None => dict_get k d
    end.
Proof.
  unfold find_last. induction xs as [|x xs IH]; intros d; simpl; [reflexivity|].
  rewrite IH, find_app_last.
  destruct (find _ (rev xs)); [reflexivity|].
  destruct (keep x) eqn:Ek; simpl; [|reflexivity].
  destruct (String.eqb (key x) k) eqn:E.
  - apply String.eqb_eq in E. subst k. apply dict_get_set_same.
  - apply String.eqb_neq in E. now apply dict_get_set_other.
Qed.

End LastWins.

(** X1. Both indexes of [analyse] are filled by assignment, so when several
    tracks carry the same key the entry is the last of them in document
    order: [tracks_by_key] maps an identifier to the last track with that
    identifier, [rb_paths] maps a case-folded path to the last track with
    that path; the empty identifier and the empty path have no entry. *)
Theorem indexes_keep_last_track (tracks : list Track) (k : string) :
  dict_get k (tracks_by_key tracks)
  = (if truthy k then find_last (fun t => String.eqb (track_id t) k) tracks
     else None)
  /\ dict_get k (rb_paths tracks)
     = (if truthy k then find_last (fun t => String.eqb (loc_key t) k) tracks
        else None).
Proof.
  assert (Hext : forall (keep : Track -> bool) (key : Track -> string),
            (forall t, keep t = truthy (key t)) ->
            find_last (fun t => keep t && String.eqb (key t) k) tracks
            = if truthy k then find_last (fun t => String.eqb (key t) k) tracks
              else None).
  { intros keep key Hkeep. unfold find_last.
    induction (rev tracks) as [|t l IH]; simpl; [now destruct (truthy k)|].
    rewrite IH, Hkeep. clear IH.
    destruct (String.eqb (key t) k) eqn:E.
    - apply String.eqb_eq in E. rewrite E. now destruct (truthy k).
    - now rewrite andb_false_r. }
  split.
  - unfold tracks_by_key. rewrite (assigned_last_wins (fun t => truthy (track_id t)) track_id).
    rewrite (Hext (fun t => truthy (track_id t)) track_id (fun t => eq_refl)).
    simpl.
    destruct (truthy k); [now destruct (find_last _ tracks)|reflexivity].
  - unfold rb_paths. rewrite (assigned_last_wins (fun t => truthy (location_path t)) loc_key).
    rewrite (Hext (fun t => truthy (location_path t)) loc_key).
    + simpl. destruct (truthy k); [now destruct (find_last _ tracks)|reflexivity].
    + intros t. unfold loc_key. now rewrite lower_nonempty.
Qed.

(* ===================================================================== *)
(** ** De-duplication, again *)
(* ===================================================================== *)

Lemma first_by_path_fixed (ps : list Playlist) : forall (seen : pyset),
  NoDup (map pl_path ps) ->
  (forall q, In q ps -> set_mem (pl_path q) seen = false) ->
  first_by_path seen ps = ps.
Proof.
  induction ps as [|p ps IH]; intros seen Hnd Hseen; simpl; [reflexivity|].
  inversion Hnd as [|? ? Hnotin Hnd']; subst.
  rewrite (Hseen p (or_introl eq_refl)). f_equal. apply IH; [assumption|].
  intros q Hq. simpl. rewrite (Hseen q (or_intror Hq)), orb_false_r.
  apply String.eqb_neq. intros Heq. apply Hnotin. rewrite <- Heq.
  now apply in_map.
Qed.

(** X2. De-duplication by path leaves a list with unique paths unchanged, so
    applying it twice gives the same list as applying it once. *)
Theorem dedupe_by_path_idempotent (playlists : list Playlist) :
  (NoDup (map pl_path playlists) -> dedupe_by_path playlists = playlists)
  /\ dedupe_by_path (dedupe_by_path playlists) = dedupe_by_path playlists.
Proof.
  assert (Hfix : forall ps, NoDup (map pl_path ps) -> dedupe_by_path ps = ps).
  { intros ps Hnd. unfold dedupe_by_path. rewrite dedupe_fold. simpl.
    now apply first_by_path_fixed. }
  split; [apply Hfix|]. apply Hfix, dedupe_by_path_NoDup.
Qed.

(* ===================================================================== *)
(** ** Durations as text *)
(* ===================================================================== *)

Lemma fmt02_two_characters (n : Z) :
  (0 <= n < 100)%Z -> String.length (fmt02 n) = 2%nat.
Proof.
  intros Hn.
  assert (Hall : forallb (fun k => Nat.eqb (String.length (fmt02 (Z.of_nat k))) 2)
                   (seq 0 100) = true) by (vm_compute; reflexivity).
  rewrite forallb_forall in Hall.
  specialize (Hall (Z.to_nat n)).
  rewrite Z2Nat.id in Hall by lia. apply Nat.eqb_eq, Hall.
  apply in_seq. lia.
Qed.

Lemma length_append (a b : string) :
  String.length (a ++ b) = (String.length a + String.length b)%nat.
Proof. induction a as [|c a IH]; simpl; [reflexivity|now rewrite IH]. Qed.

(** X3. For a duration of [total >= 0] seconds, [seconds_to_hhmmss] prints
    hours, minutes and seconds that recompose to [total], with minutes and
    seconds below 60; below 100 hours the text has exactly the eight
    characters of HH:MM:SS. *)
Theorem seconds_to_hhmmss_fields (total : Z) :
  (0 <= total)%Z ->
  exists h m s : Z,
    seconds_to_hhmmss total = fmt02 h ++ ":" ++ fmt02 m ++ ":" ++ fmt02 s
    /\ (0 <= h)%Z /\ (0 <= m < 60)%Z /\ (0 <= s < 60)%Z
    /\ (h * 3600 + m * 60 + s = total)%Z
    /\ ((total < 360000)%Z -> String.length (seconds_to_hhmmss total) = 8%nat).
Proof.
  intros Htotal.
  exists (total / 3600)%Z, ((total mod 3600) / 60)%Z, (total mod 60)%Z.
  assert (Hh : (0 <= total / 3600)%Z) by (Z.div_mod_to_equations; lia).
  assert (Hm : (0 <= (total mod 3600) / 60 < 60)%Z)
    by (Z.div_mod_to_equations; lia).
  assert (Hs : (0 <= total mod 60 < 60)%Z) by (Z.div_mod_to_equations; lia).
  assert (Hsum : (total / 3600 * 3600 + (total mod 3600) / 60 * 60
                  + total mod 60 = total)%Z)
    by (Z.div_mod_to_equations; lia).
  split; [reflexivity|]. split; [exact Hh|]. split; [exact Hm|].
  split; [exact Hs|]. split; [exact Hsum|].
  intros Hlt. unfold seconds_to_hhmmss.
  assert (Hh' : (total / 3600 < 100)%Z) by (Z.div_mod_to_equations; lia).
  rewrite !length_append, !fmt02_two_characters by lia. reflexivity.
Qed.

Lemma seconds_to_hhmmss_fields_witness :
  exists h m s : Z,
    seconds_to_hhmmss 3725 = fmt02 h ++ ":" ++ fmt02 m ++ ":" ++ fmt02 s
    /\ (0 <= h)%Z /\ (0 <= m < 60)%Z /\ (0 <= s < 60)%Z
    /\ (h * 3600 + m * 60 + s = 3725)%Z
    /\ ((3725 < 360000)%Z -> String.length (seconds_to_hhmmss 3725) = 8%nat).
Proof. apply (seconds_to_hhmmss_fields 3725). lia. Defined.

Example seconds_to_hhmmss_literals :
  seconds_to_hhmmss 3725 = "01:02:05"
  /\ seconds_to_hhmmss 0 = "00:00:00"
  /\ seconds_to_hhmmss 360000 = "100:00:00".
Proof. repeat split; reflexivity. Qed.

(* ===================================================================== *)
(** ** Normalised text *)
(* ===================================================================== *)

Section Collapsed.

Implicit Types (cls p : ascii -> bool) (s : string).

Lemma collapsed_weaken cls s :
  collapsed cls true s = true -> collapsed cls false s = true.
Proof.
  destruct s as [|c s]; simpl; [reflexivity|].
  destruct (cls c); [|auto]. rewrite andb_false_r. discriminate.
Qed.

Lemma collapsed_tail cls (b : bool) (c : ascii) s :
  collapsed cls b (String c s) = true -> collapsed cls false s = true.
Proof.
  simpl. destruct (cls c); [|auto].
  intros H. apply andb_true_iff in H. destruct H as [_ H].
  now apply collapsed_weaken.
Qed.

Lemma collapsed_sub_runs cls s : forall (b : bool),
  cls " "%char = true -> collapsed cls b (sub_runs cls b s) = true.
Proof.
  induction s as [|c s IH]; intros b Hsp; simpl; [reflexivity|].
  destruct (cls c) eqn:Ec.
  - destruct b; [now apply IH|]. simpl. rewrite Hsp. simpl. now apply IH.
  - simpl. rewrite Ec. now apply IH.
Qed.

Lemma sub_runs_fixed (cls1 cls2 : ascii -> bool) s : forall (b : bool),
  (forall c, cls2 c = true -> cls1 c = true) ->
  collapsed cls1 b s = true -> sub_runs cls2 b s = s.
Proof.
  induction s as [|c s IH]; intros b Hsub Hs; simpl; [reflexivity|].
  destruct (cls2 c) eqn:E2.
  - simpl in Hs. rewrite (Hsub c E2) in Hs.
    apply andb_true_iff in Hs. destruct Hs as [Hs Hrest].
    apply andb_true_iff in Hs. destruct Hs as [Hc Hb].
    apply Ascii.eqb_eq in Hc. apply negb_true_iff in Hb. subst c b.
    now rewrite IH.
  - rewrite IH; [reflexivity|assumption|]. now apply collapsed_tail in Hs.
Qed.

Lemma collapsed_lstrip cls p s :
  collapsed cls false s = true -> collapsed cls false (lstrip_by p s) = true.
Proof.
  induction s as [|c s IH]; simpl; [reflexivity|]. intros H.
  destruct (p c); [|exact H]. apply IH.
  now apply (collapsed_tail cls false c).
Qed.

Lemma collapsed_rstrip cls p s : forall (b : bool),
  collapsed cls b s = true -> collapsed cls b (rstrip_by p s) = true.
Proof.
  induction s as [|c s IH]; intros b H; simpl; [reflexivity|].
  assert (Hkeep : collapsed cls b (String c (rstrip_by p s)) = true).
  { simpl in *. destruct (cls c).
    - apply andb_true_iff in H. destruct H as [H1 H2]. rewrite H1. now apply IH.
    - now apply IH. }
  destruct (rstrip_by p s) as [|c' r]; [|exact Hkeep].
  destruct (p c); [reflexivity|exact Hkeep].
Qed.

Lemma rstrip_clean_tail p s : clean_tail p (rstrip_by p s) = true.
Proof.
  induction s as [|c s IH]; simpl; [reflexivity|].
  destruct (rstrip_by p s) as [|c' r].
  - destruct (p c) eqn:E; simpl; [reflexivity|now rewrite E].
  - exact IH.
Qed.

Lemma strip_clean s :
  clean_head is_space (strip s) = true /\ clean_tail is_space (strip s) = true.
Proof.
  unfold strip, strip_by. split.
  - apply rstrip_clean_head, lstrip_clean_head.
  - apply rstrip_clean_tail.
Qed.

Lemma collapsed_strip cls s :
  collapsed cls false s = true -> collapsed cls false (strip s) = true.
Proof.
  intros H. unfold strip, strip_by. now apply collapsed_rstrip, collapsed_lstrip.
Qed.

End Collapsed.

(** X4. The result of [norm_ws] has no leading or trailing whitespace, its
    only whitespace characters are single spaces, and [norm_ws] leaves it
    unchanged (it is idempotent). *)
Theorem norm_ws_normal_form (s : string) :
  clean_head is_space (norm_ws s) = true
  /\ clean_tail is_space (norm_ws s) = true
  /\ collapsed is_space false (norm_ws s) = true
  /\ norm_ws (norm_ws s) = norm_ws s.
Proof.
  assert (Hc : collapsed is_space false (norm_ws s) = true).
  { apply collapsed_strip, collapsed_sub_runs. reflexivity. }
  destruct (strip_clean (sub_runs is_space false s)) as [Hh Ht].
  repeat split; try assumption.
  unfold norm_ws at 1.
  rewrite (sub_runs_fixed is_space is_space) by auto.
  now apply strip_fixed.
Qed.

Lemma space_is_not_alnum (c : ascii) : is_space c = true -> not_alnum c = true.
Proof. destruct c as [[] [] [] [] [] [] [] []]; simpl; auto. Qed.

Lemma alnum_is_plain (c : ascii) :
  not_alnum c = false ->
  is_upper c = false /\ Ascii.eqb c "(" = false /\ Ascii.eqb c "|" = false.
Proof.
  destruct c as [[] [] [] [] [] [] [] []]; simpl; intros H;
    try discriminate H; auto.
Qed.

(** The characters of a collapsed key: lower-case letters, digits, spaces. *)
Lemma collapsed_alphabet (s : string) : forall (b : bool),
  collapsed not_alnum b s = true ->
  all_chars (fun c => negb (not_alnum c) || Ascii.eqb c " ") s = true.
Proof.
  induction s as [|c s IH]; intros b H; simpl; [reflexivity|].
  simpl in H. destruct (not_alnum c) eqn:E.
  - apply andb_true_iff in H. destruct H as [H Hrest].
    apply andb_true_iff in H. destruct H as [Hc _]. rewrite Hc. simpl.
    now apply (IH true).
  - simpl. now apply (IH false).
Qed.

Lemma key_chars_plain (c : ascii) :
  negb (not_alnum c) || Ascii.eqb c " " = true ->
  is_upper c = false /\ Ascii.eqb c "(" = false /\ Ascii.eqb c "|" = false.
Proof.
  destruct c as [[] [] [] [] [] [] [] []]; simpl; intros H;
    try discriminate H; auto.
Qed.

Lemma lower_fixed (s : string) :
  all_chars (fun c => negb (is_upper c)) s = true -> lower s = s.
Proof.
  induction s as [|c s IH]; simpl; [reflexivity|]. intros H.
  apply andb_true_iff in H. destruct H as [Hc Hs].
  unfold lower_char. apply negb_true_iff in Hc. now rewrite Hc, IH.
Qed.

Lemma remove_bracketed_fixed (s : string) :
  all_chars (fun c => negb (Ascii.eqb c "(")) s = true ->
  remove_bracketed 0 s = s.
Proof.
  induction s as [|c s IH]; simpl; [reflexivity|]. intros H.
  apply andb_true_iff in H. destruct H as [Hc Hs].
  apply negb_true_iff in Hc. now rewrite Hc, IH.
Qed.

Lemma norm_key_collapsed (s : string) :
  collapsed not_alnum false (norm_key s) = true.
Proof.
  unfold norm_key, norm_ws.
  set (x := sub_runs not_alnum false (remove_bracketed 0 (lower s))).
  assert (Hx : collapsed not_alnum false x = true)
    by (apply collapsed_sub_runs; reflexivity).
  rewrite (sub_runs_fixed not_alnum is_space);
    [now apply collapsed_strip|apply space_is_not_alnum|assumption].
Qed.

(** X5. An identity-key component ([norm_key]) consists of lower-case
    letters, digits and single spaces only, starts and ends with a letter or
    digit when it is not empty, holds no bar, and is left unchanged by
    [norm_key]: normalising twice is normalising once. *)
Theorem norm_key_normal_form (s : string) :
  all_chars (fun c => is_lower c || is_digit c || Ascii.eqb c " ") (norm_key s) = true
  /\ collapsed not_alnum false (norm_key s) = true
  /\ clean_head is_space (norm_key s) = true
  /\ clean_tail is_space (norm_key s) = true
  /\ has_char "|" (norm_key s) = false
  /\ norm_key (norm_key s) = norm_key s.
Proof.
  assert (Hc := norm_key_collapsed s).
  assert (Ha := collapsed_alphabet _ _ Hc).
  assert (Hclean : clean_head is_space (norm_key s) = true
                   /\ clean_tail is_space (norm_key s) = true).
  { unfold norm_key, norm_ws. apply strip_clean. }
  destruct Hclean as [Hh Ht].
  split; [|split; [exact Hc|split; [exact Hh|split; [exact Ht|split]]]].
  - revert Ha. apply all_chars_impl. intros c. unfold not_alnum.
    now rewrite negb_involutive.
  - clear Hc Hh Ht. induction (norm_key s) as [|c y IH]; simpl; [reflexivity|].
    simpl in Ha. apply andb_true_iff in Ha. destruct Ha as [Hk Hy].
    destruct (key_chars_plain c Hk) as [_ [_ Hbar]]. rewrite Hbar. now apply IH.
  - set (y := norm_key s) in *. unfold norm_key at 1, norm_ws.
    rewrite (lower_fixed y).
    2:{ revert Ha. apply all_chars_impl. intros c Hk. apply negb_true_iff.
        now apply key_chars_plain. }
    rewrite (remove_bracketed_fixed y).
    2:{ revert Ha. apply all_chars_impl. intros c Hk. apply negb_true_iff.
        now apply key_chars_plain. }
    rewrite (sub_runs_fixed not_alnum not_alnum) by auto.
    rewrite (sub_runs_fixed not_alnum is_space);
      [|apply space_is_not_alnum|assumption].
    now apply strip_fixed.
Qed.

Lemma lower_char_upper_char (c : ascii) : lower_char (upper_char c) = lower_char c.
Proof. destruct c as [[] [] [] [] [] [] [] []]; reflexivity. Qed.

Lemma lower_char_idem (c : ascii) : lower_char (lower_char c) = lower_char c.
Proof. destruct c as [[] [] [] [] [] [] [] []]; reflexivity. Qed.

Lemma lower_upper (s : string) : lower (upper s) = lower s.
Proof.
  induction s as [|c s IH]; simpl; [reflexivity|].
  now rewrite lower_char_upper_char, IH.
Qed.

Lemma lower_lower (s : string) : lower (lower s) = lower s.
Proof.
  induction s as [|c s IH]; simpl; [reflexivity|].
  now rewrite lower_char_idem, IH.
Qed.

Lemma lower_app (a b : string) : lower (a ++ b) = lower a ++ lower b.
Proof. induction a as [|c a IH]; simpl; [reflexivity|now rewrite IH]. Qed.

Lemma lower_char_keeps (c : ascii) :
  Ascii.eqb (lower_char c) "(" = Ascii.eqb c "("
  /\ Ascii.eqb (lower_char c) ")" = Ascii.eqb c ")"
  /\ Ascii.eqb (lower_char c) "010" = Ascii.eqb c "010".
Proof. destruct c as [[] [] [] [] [] [] [] []]; repeat split. Qed.

Lemma has_char_lower (s : string) :
  has_char "(" (lower s) = has_char "(" s
  /\ has_char ")" (lower s) = has_char ")" s
  /\ has_char "010" (lower s) = has_char "010" s.
Proof.
  induction s as [|c s [IH1 [IH2 IH3]]]; simpl; [auto|].
  destruct (lower_char_keeps c) as [-> [-> ->]]. now rewrite IH1, IH2, IH3.
Qed.

Lemma close_paren_found (x rest : string) :
  has_char ")" x = false -> has_char "010" x = false ->
  close_paren (x ++ String ")" rest) = Some (S (String.length x)).
Proof.
  induction x as [|c x IH]; simpl; [reflexivity|]. intros H1 H2.
  apply orb_false_iff in H1. destruct H1 as [Hc1 Hx1].
  apply orb_false_iff in H2. destruct H2 as [Hc2 Hx2].
  now rewrite Hc1, Hc2, IH.
Qed.

Lemma remove_bracketed_skip (x : string) (c : ascii) (rest : string) :
  remove_bracketed (S (String.length x)) (x ++ String c rest)
  = remove_bracketed 0 rest.
Proof. induction x as [|c' x IH]; [reflexivity|exact IH]. Qed.

Lemma remove_bracketed_plain (s rest : string) :
  has_char "(" s = false ->
  remove_bracketed 0 (s ++ rest) = s ++ remove_bracketed 0 rest.
Proof.
  induction s as [|c s IH]; [reflexivity|]. simpl. intros H.
  apply orb_false_iff in H. destruct H as [Hc Hs]. now rewrite Hc, IH.
Qed.

Lemma norm_key_drops_bracketed (s x rest : string) :
  has_char "(" s = false -> has_char ")" x = false -> has_char "010" x = false ->
  norm_key (s ++ String "(" (x ++ String ")" rest)) = norm_key (s ++ rest).
Proof.
  intros Hs Hx1 Hx2. unfold norm_key. f_equal. f_equal.
  destruct (has_char_lower s) as [Hs' _].
  destruct (has_char_lower x) as [_ [Hx1' Hx2']].
  rewrite !lower_app.
  change (lower (String "(" (x ++ String ")" rest)))
    with (String "(" (lower (x ++ String ")" rest))).
  rewrite lower_app.
  change (lower (String ")" rest)) with (String ")" (lower rest)).
  rewrite !remove_bracketed_plain by congruence. f_equal.
  change (remove_bracketed 0 (String "(" (lower x ++ String ")" (lower rest))))
    with (match close_paren (lower x ++ String ")" (lower rest)) with
          | Some n => remove_bracketed n (lower x ++ String ")" (lower rest))
          | None => String "(" (remove_bracketed 0 (lower x ++ String ")" (lower rest)))
          end).
  rewrite close_paren_found by congruence.
  apply remove_bracketed_skip.
Qed.

(** X6. What the identity key ignores.  Letter case: two tracks whose
    artists and titles differ only in case have the same [title_key].
    Bracketed remarks: in a title or artist, a part in round brackets that
    holds no line break and follows text without an opening bracket is
    dropped, so [norm_key] gives the same key with and without it. *)
Theorem title_key_ignores_case_and_brackets (t u : Track) :
  (lower (artist t) = lower (artist u) ->
   lower (name t) = lower (name u) ->
   title_key t = title_key u)
  /\ (forall s x rest,
        has_char "(" s = false -> has_char ")" x = false ->
        has_char "010" x = false ->
        lower (artist t) = lower (artist u) ->
        name t = s ++ rest ->
        lower (name u) = lower (s ++ String "(" (x ++ String ")" rest)) ->
        title_key t = title_key u).
Proof.
  split.
  - intros Ha Hn. unfold title_key, norm_key. now rewrite Ha, Hn.
  - intros s x rest Hs Hx1 Hx2 Ha Ht Hu. unfold title_key. f_equal.
    + unfold norm_key. now rewrite Ha.
    + f_equal. rewrite Ht, <- (norm_key_drops_bracketed s x rest) by assumption.
      unfold norm_key. now rewrite Hu.
Qed.

(** [track_a] and [track_b]: the artist in another case, the title with a
    remark in brackets. *)
Example title_key_of_a_remix :
  title_key track_a = "art|song" /\ title_key track_b = "art|song"
  /\ title_key (sample_track "9" "Art" "Song (a) (b)" "" 0 "" 0) = "art|song"
  /\ title_key (sample_track "9" "Art" "Song (a (b) c)" "" 0 "" 0) = "art|song c".
Proof. repeat split. Qed.

(* ===================================================================== *)
(** ** Duplicate keys and groups *)
(* ===================================================================== *)

Section DuplicateKeys.

Implicit Types (tracks : list Track) (t u : Track) (g : DupGroup).

Lemma norm_key_bar_free (s : string) : has_char "|" (norm_key s) = false.
Proof.
  assert (Ha := collapsed_alphabet _ _ (norm_key_collapsed s)).
  induction (norm_key s) as [|c y IH]; simpl; [reflexivity|].
  simpl in Ha. apply andb_true_iff in Ha. destruct Ha as [Hk Hy].
  destruct (key_chars_plain c Hk) as [_ [_ Hbar]]. rewrite Hbar. now apply IH.
Qed.

Lemma str_of_int_inj (n m : Z) : str_of_int n = str_of_int m -> n = m.
Proof.
  assert (Hdec : forall z, option_map Z.of_int
                   (DecimalString.NilZero.int_of_string (str_of_int z)) = Some z).
  { intros z. unfold str_of_int. rewrite <- (DecimalZ.of_to z) at 2.
    destruct (Z.to_int z) as [d|d].
    - destruct d; try (rewrite DecimalString.NilZero.isi; [reflexivity|discriminate|discriminate]).
      reflexivity.
    - destruct d; try (rewrite DecimalString.NilZero.isi; [reflexivity|discriminate|discriminate]).
      reflexivity. }
  intros Heq. assert (H := Hdec n). rewrite Heq, Hdec in H. now injection H.
Qed.

Lemma title_key_components t u :
  title_key t = title_key u ->
  norm_key (artist t) = norm_key (artist u) /\ norm_key (name t) = norm_key (name u).
Proof.
  unfold title_key. intros H. apply append_bar_inj in H; auto using norm_key_bar_free.
Qed.

Lemma sig_key_components t u k :
  sig_key t = Ok k -> sig_key u = Ok k ->
  title_key t = title_key u /\ duration t = duration u
  /\ rounded_bpm t = rounded_bpm u.
Proof.
  unfold sig_key. fold (rounded_bpm t) (rounded_bpm u). intros Ht Hu.
  destruct (rounded_bpm t) as [rt|]; [|discriminate].
  destruct (rounded_bpm u) as [ru|]; [|discriminate].
  unfold bind in Ht, Hu. injection Ht as Ht. injection Hu as Hu.
  rewrite <- Hu in Ht. clear Hu.
  rewrite !sig_key_form in Ht.
  apply append_bar_inj in Ht; try apply str_of_int_bar_free.
  destruct Ht as [Ht Hr].
  apply append_bar_inj in Ht; try apply str_of_int_bar_free.
  destruct Ht as [Ht Hd].
  apply str_of_int_inj in Hr, Hd. now subst.
Qed.

(** X7. The keys are unambiguous: two tracks have the same identity key only
    if their normalised artists are equal and their normalised titles are
    equal, and the same signature key only if, besides, their durations and
    their rounded tempos are equal; conversely tracks that agree on these
    fields get the same signature key. *)
Theorem duplicate_keys_are_unambiguous t u k :
  sig_key t = Ok k ->
  (title_key u = title_key t <->
   norm_key (artist u) = norm_key (artist t)
   /\ norm_key (name u) = norm_key (name t))
  /\ (sig_key u = Ok k <->
      title_key u = title_key t /\ duration u = duration t
      /\ rounded_bpm u = rounded_bpm t).
Proof.
  intros Ht. split; split.
  - apply title_key_components.
  - intros [Ha Hn]. unfold title_key. now rewrite Ha, Hn.
  - intros Hu. destruct (sig_key_components u t k Hu Ht) as [H1 [H2 H3]]. auto.
  - intros [H1 [H2 H3]]. rewrite <- Ht. unfold sig_key.
    fold (rounded_bpm t) (rounded_bpm u). now rewrite H1, H2, H3.
Qed.

Lemma duplicate_keys_are_unambiguous_witness :
  (title_key track_b = title_key track_a <->
   norm_key (artist track_b) = norm_key (artist track_a)
   /\ norm_key (name track_b) = norm_key (name track_a))
  /\ (sig_key track_b = Ok "art|song|300|128" <->
      title_key track_b = title_key track_a /\ duration track_b = duration track_a
      /\ rounded_bpm track_b = rounded_bpm track_a).
Proof.
  apply (duplicate_keys_are_unambiguous track_a track_b "art|song|300|128").
  reflexivity.
Defined.

Lemma report_groups_keys_NoDup ty (groups : dict (list Track)) :
  NoDup (map fst groups) -> NoDup (map GroupKey (report_groups ty groups)).
Proof.
  induction groups as [|[k grp] groups IH]; simpl; intros Hnd; [constructor|].
  inversion Hnd as [|? ? Hnotin Hnd']; subst.
  destruct (1 <? List.length grp)%nat; simpl; [|now apply IH].
  constructor; [|now apply IH].
  intros Hin. apply in_map_iff in Hin. destruct Hin as [g [Hk Hg]].
  apply in_report_groups in Hg. destruct Hg as [_ [Hg _]].
  apply Hnotin. rewrite <- Hk. change (GroupKey g) with (fst (GroupKey g, members g)).
  now apply in_map.
Qed.

(** X8. Every reported duplicate group has at least two members, and its
    members are exactly the tracks of the list that are filed under the
    group's key by the grouping of its type, in list order: the tracks with
    that non-empty case-folded path, with that non-blank identity key, or
    with that signature key.  Within a type no two groups share a key. *)
Theorem duplicate_groups_are_exact tracks groups :
  duplicates tracks = Ok groups ->
  (forall g, In g groups ->
     (2 <= List.length (members g))%nat
     /\ ((DuplicateType g = "Same Location"
          /\ members g = selected (fun u => truthy (loc_key u)) loc_key
                           (GroupKey g) tracks)
         \/ (DuplicateType g = "Same Artist+Title"
             /\ members g = selected title_kept title_key (GroupKey g) tracks)
         \/ (DuplicateType g = "Signature Match"
             /\ members g = selected (fun _ => true) sig_key_of
                              (GroupKey g) tracks)))
  /\ NoDup (map GroupKey (location_groups tracks))
  /\ NoDup (map GroupKey (title_groups tracks))
  /\ (forall sigs, signature_groups tracks = Ok sigs -> NoDup (map GroupKey sigs)).
Proof.
  unfold duplicates, signature_groups. intros Hrun.
  destruct (by_sig tracks) as [sigs|e] eqn:Esig; simpl in Hrun; [|discriminate].
  injection Hrun as <-.
  apply by_sig_grouped in Esig. destruct Esig as [-> Hok].
  split; [|split; [|split]].
  - intros g Hg.
    assert (Hcase :
      (In g (report_groups "Same Location"
               (grouped (fun u => truthy (loc_key u)) loc_key tracks []))
       \/ In g (report_groups "Same Artist+Title"
                  (grouped title_kept title_key tracks [])))
      \/ In g (report_groups "Signature Match"
                 (grouped (fun _ => true) sig_key_of tracks []))).
    { apply in_app_or in Hg. destruct Hg as [Hg|Hg]; [left; left; exact Hg|].
      apply in_app_or in Hg. destruct Hg as [Hg|Hg]; [left; right; exact Hg|].
      right. exact Hg. }
    destruct Hcase as [[Hg'|Hg']|Hg'];
      apply in_report_groups in Hg'; destruct Hg' as [Hty [Hin Hlen]];
      apply grouped_entry in Hin; destruct Hin as [Hsel _];
      (split; [lia|]); auto.
  - apply report_groups_keys_NoDup, by_loc_NoDup.
  - apply report_groups_keys_NoDup.
    apply (grouped_NoDup title_kept title_key). constructor.
  - intros sigs [= <-]. apply report_groups_keys_NoDup.
    apply (grouped_NoDup (fun _ => true) sig_key_of). constructor.
Qed.

Lemma duplicate_groups_are_exact_witness :
  NoDup (map GroupKey (location_groups [track_a; track_b; track_c]))
  /\ NoDup (map GroupKey (title_groups [track_a; track_b; track_c])).
Proof.
  destruct (duplicate_groups_are_exact [track_a; track_b; track_c] _ eq_refl)
    as [_ [Hloc [Htitle _]]].
  split; [exact Hloc|exact Htitle].
Defined.

(** *** Tempos that cannot be rounded *)

Lemma round_float_finite (x : float) :
  (exists n, round_float x = Ok n) <-> finite_float x = true.
Proof.
  unfold round_float, finite_float. destruct (Prim2SF x); split; intros H;
    try reflexivity; try discriminate; try (eexists; reflexivity);
    destruct H as [n H]; discriminate.
Qed.

Lemma float_truthy_nonfinite (x : float) :
  finite_float x = false -> float_truthy x = true.
Proof.
  unfold finite_float, float_truthy. rewrite FloatAxioms.eqb_spec.
  replace (Prim2SF 0) with (S754_zero false) by reflexivity.
  destruct (Prim2SF x) as [z|i| |sg m e]; try discriminate;
    [destruct i; reflexivity|reflexivity].
Qed.

Lemma rounded_bpm_finite t :
  (exists n, rounded_bpm t = Ok n) <-> finite_float (bpm t) = true.
Proof.
  unfold rounded_bpm. destruct (float_truthy (bpm t)) eqn:E.
  - apply round_float_finite.
  - split; [intros _|intros _; eexists; reflexivity].
    destruct (finite_float (bpm t)) eqn:F; [reflexivity|].
    apply float_truthy_nonfinite in F. congruence.
Qed.

Lemma sig_key_finite t :
  (exists k, sig_key t = Ok k) <-> finite_float (bpm t) = true.
Proof.
  rewrite <- rounded_bpm_finite. unfold sig_key. fold (rounded_bpm t).
  destruct (rounded_bpm t) as [n|e]; simpl; split; intros [x H];
    try discriminate; eexists; reflexivity.
Qed.

Lemma by_sig_returns tracks : forall (d : dict (list Track)),
  (exists d', for_each (fun d t => k <- sig_key t ;; Ok (dd_append k t d)) tracks d
              = Ok d')
  <-> forall t, In t tracks -> finite_float (bpm t) = true.
Proof.
  induction tracks as [|t tracks IH]; intros d; simpl.
  - split; [intros _ t []|intros _; eexists; reflexivity].
  - split.
    + intros [d' H]. destruct (sig_key t) as [k|e] eqn:Ek; [|discriminate].
      simpl in H. intros u [<-|Hu].
      * apply sig_key_finite. eauto.
      * apply (proj1 (IH (dd_append k t d))); eauto.
    + intros Hall.
      destruct (proj2 (sig_key_finite t) (Hall t (or_introl eq_refl))) as [k Hk].
      rewrite Hk. simpl. apply IH. intros u Hu. apply Hall. now right.
Qed.

(** X9. The duplicate pass completes exactly when the tempo of every track is
    a finite number: a track whose tempo is an infinity or a NaN (which
    [safe_float] returns for the attribute texts [inf] and [nan]) makes the
    rounding of the signature key raise, and the pass reports nothing. *)
Theorem duplicates_need_finite_tempos tracks :
  (exists groups, duplicates tracks = Ok groups)
  <-> (forall t, In t tracks -> finite_float (bpm t) = true).
Proof.
  rewrite <- (by_sig_returns tracks []).
  unfold duplicates, signature_groups. fold (by_sig tracks).
  destruct (by_sig tracks) as [sigs|e]; simpl; split; intros [x H];
    try discriminate; eexists; reflexivity.
Qed.

(** A track element whose tempo attribute reads [nan] is materialised, and
    then stops the duplicate pass. *)
Example tempo_nan_stops_the_duplicate_pass :
  exists t,
    track_of_attrib "\" [("TrackID", "1"); ("AverageBpm", "nan")] = Ok t
    /\ finite_float (bpm t) = false
    /\ duplicates [track_a; t] = Raise ValueError.
Proof. eexists. repeat split; reflexivity. Qed.

End DuplicateKeys.

(** *** Groups by identity key and by signature *)

Section GroupsComplete.

Variables (keep : Track -> bool) (key : Track -> string) (ty : string).

Implicit Types (tracks : list Track) (t : Track) (g : DupGroup).

Lemma group_of_kept_track tracks t :
  In t tracks -> keep t = true ->
  filter (fun g => String.eqb (GroupKey g) (key t))
    (report_groups ty (grouped keep key tracks []))
  = if (1 <? List.length (selected keep key (key t) tracks))%nat
    then [mkDupGroup ty (key t) (selected keep key (key t) tracks)] else [].
Proof.
  intros Hin Hkeep.
  rewrite report_groups_for by (apply grouped_NoDup; constructor).
  rewrite grouped_get. simpl.
  destruct (selected keep key (key t) tracks) as [|x l] eqn:E; [|reflexivity].
  assert (Ht : In t (selected keep key (key t) tracks))
    by (apply selected_in; auto).
  rewrite E in Ht. contradiction.
Qed.

Lemma group_of_member tracks g t :
  In g (report_groups ty (grouped keep key tracks [])) -> In t (members g) ->
  In t tracks /\ keep t = true
  /\ g = mkDupGroup ty (key t) (selected keep key (key t) tracks)
  /\ (1 < List.length (selected keep key (key t) tracks))%nat.
Proof.
  intros Hg Ht. apply in_report_groups in Hg. destruct Hg as [Hty [Hin Hlen]].
  apply grouped_entry in Hin. destruct Hin as [Hsel _]. rewrite Hsel in Ht.
  apply selected_in in Ht. destruct Ht as [Hin [Hkeep Hkey]].
  rewrite <- Hkey in Hsel. split; [assumption|]. split; [assumption|]. split.
  - destruct g; simpl in *. now subst.
  - now rewrite <- Hsel.
Qed.

End GroupsComplete.

(** X10. Artist+title grouping: for a track of the list whose identity key
    is not blank, exactly one "Same Artist+Title" group is reported for its
    key when at least two kept tracks share it, holding all of them, and
    none otherwise; a reported group that contains a track is the group of
    that track's key, and a track with a blank identity key is in no group. *)
Theorem title_groups_are_complete (tracks : list Track) (t : Track) :
  In t tracks ->
  (title_kept t = true ->
   filter (fun g => String.eqb (GroupKey g) (title_key t)) (title_groups tracks)
   = if (1 <? List.length (selected title_kept title_key (title_key t) tracks))%nat
     then [mkDupGroup "Same Artist+Title" (title_key t)
             (selected title_kept title_key (title_key t) tracks)]
     else [])
  /\ (forall g, In g (title_groups tracks) -> In t (members g) ->
        title_kept t = true
        /\ g = mkDupGroup "Same Artist+Title" (title_key t)
                 (selected title_kept title_key (title_key t) tracks)
        /\ (2 <= List.length (members g))%nat).
Proof.
  intros Hin. split.
  - intros Hkept. now apply (group_of_kept_track title_kept title_key).
  - intros g Hg Ht.
    destruct (group_of_member title_kept title_key _ tracks g t Hg Ht)
      as [_ [Hkept [-> Hlen]]].
    simpl. repeat split; auto.
Qed.

Lemma title_groups_are_complete_witness :
  filter (fun g => String.eqb (GroupKey g) "art|song")
    (title_groups [track_a; track_b; track_c])
  = [mkDupGroup "Same Artist+Title" "art|song" [track_a; track_b]].
Proof.
  destruct (title_groups_are_complete [track_a; track_b; track_c] track_a
              (or_introl eq_refl)) as [Hgroup _].
  apply (Hgroup eq_refl).
Defined.

(** X11. Signature grouping, when the pass completes: for every track of the
    list exactly one "Signature Match" group is reported for its signature
    key when at least two tracks have that key, holding all of them, and none
    otherwise; a reported group that contains a track is the group of that
    track's signature key. *)
Theorem signature_groups_are_complete (tracks : list Track) (sigs : list DupGroup)
  (t : Track) :
  signature_groups tracks = Ok sigs ->
  In t tracks ->
  sig_key t = Ok (sig_key_of t)
  /\ filter (fun g => String.eqb (GroupKey g) (sig_key_of t)) sigs
     = (if (1 <? List.length (selected (fun _ => true) sig_key_of
                                (sig_key_of t) tracks))%nat
        then [mkDupGroup "Signature Match" (sig_key_of t)
                (selected (fun _ => true) sig_key_of (sig_key_of t) tracks)]
        else [])
  /\ (forall g, In g sigs -> In t (members g) ->
        g = mkDupGroup "Signature Match" (sig_key_of t)
              (selected (fun _ => true) sig_key_of (sig_key_of t) tracks)).
Proof.
  unfold signature_groups. intros Hrun Hin.
  destruct (by_sig tracks) as [d|e] eqn:Esig; simpl in Hrun; [|discriminate].
  injection Hrun as <-. apply by_sig_grouped in Esig. destruct Esig as [-> Hok].
  split; [now apply Hok|]. split.
  - now apply (group_of_kept_track (fun _ => true) sig_key_of).
  - intros g Hg Ht.
    now destruct (group_of_member (fun _ => true) sig_key_of _ tracks g t Hg Ht)
      as [_ [_ [-> _]]].
Qed.

Lemma signature_groups_are_complete_witness :
  sig_key track_a = Ok (sig_key_of track_a)
  /\ filter (fun g => String.eqb (GroupKey g) (sig_key_of track_a))
       [mkDupGroup "Signature Match" "art|song|300|128" [track_a; track_b]]
     = (if (1 <? List.length (selected (fun _ => true) sig_key_of
                                (sig_key_of track_a) [track_a; track_b; track_c]))%nat
        then [mkDupGroup "Signature Match" (sig_key_of track_a)
                (selected (fun _ => true) sig_key_of (sig_key_of track_a)
                   [track_a; track_b; track_c])]
        else [])
  /\ (forall g,
        In g [mkDupGroup "Signature Match" "art|song|300|128" [track_a; track_b]] ->
        In track_a (members g) ->
        g = mkDupGroup "Signature Match" (sig_key_of track_a)
              (selected (fun _ => true) sig_key_of (sig_key_of track_a)
                 [track_a; track_b; track_c])).
Proof.
  apply (signature_groups_are_complete [track_a; track_b; track_c] _ track_a).
  - reflexivity.
  - left. reflexivity.
Defined.

(** ** Reading the secondary table *)

Section ReadMik.

Variable os_sep : string.

Implicit Types (f : CsvFile) (data : dict MikEntry) (m : MikEntry).

Lemma find_some_test (test : string -> string -> bool) (cands cols : list string) c :
  first_match test cands cols = Some c ->
  In c cols /\ exists cand, In cand cands /\ test cand c = true.
Proof.
  induction cands as [|cand cands IH]; simpl; [discriminate|].
  destruct (find (test cand) cols) as [c'|] eqn:E.
  - intros [= ->]. apply find_some in E. destruct E as [Hin Ht].
    split; [assumption|]. exists cand. auto.
  - intros H. destruct (IH H) as [Hin [cand' [Hc Ht]]].
    split; [assumption|]. exists cand'. auto.
Qed.

Lemma first_match_found (test : string -> string -> bool) (cands cols : list string)
  cand c :
  In cand cands -> In c cols -> test cand c = true ->
  exists c', first_match test cands cols = Some c'.
Proof.
  intros Hcand Hc Ht. induction cands as [|cand' cands IH]; [contradiction|].
  simpl. destruct (find (test cand') cols) as [c'|] eqn:E; [now exists c'|].
  destruct Hcand as [->|Hcand]; [|now apply IH].
  apply (find_none _ _ E) in Hc. congruence.
Qed.

Lemma prefix_same (s : string) : String.prefix s s = true.
Proof.
  induction s as [|a s IH]; [reflexivity|].
  now rewrite prefix_cons, Ascii.eqb_refl.
Qed.

Lemma contains_same (s : string) : contains s s = true.
Proof.
  destruct s as [|a s]; [reflexivity|].
  change (contains (String a s) (String a s))
    with (String.prefix (String a s) (String a s) || contains s (String a s)).
  now rewrite prefix_same.
Qed.

(** X12. Column lookup [find_col]: a returned header is one of the headers and
    contains a candidate name, case ignored; no header is returned exactly
    when no header contains any candidate; and when some header equals a
    candidate, case ignored, the returned header equals a candidate, even if
    an earlier candidate is contained in another header. *)
Theorem find_col_sound_and_complete (cols cands : list string) :
  (forall c, find_col cols cands = Some c ->
     In c cols
     /\ exists cand, In cand cands /\ contains (lower c) (lower cand) = true)
  /\ (find_col cols cands = None <->
      forall c cand, In c cols -> In cand cands ->
        contains (lower c) (lower cand) = false)
  /\ ((exists c cand, In c cols /\ In cand cands /\ lower c = lower cand) ->
      exists c cand, find_col cols cands = Some c
                     /\ In c cols /\ In cand cands /\ lower c = lower cand).
Proof.
  unfold find_col. split; [|split].
  - intros c.
    destruct (first_match _ cands cols) as [c'|] eqn:E.
    + intros [= ->]. apply find_some_test in E.
      destruct E as [Hin [cand [Hc Ht]]]. split; [assumption|].
      exists cand. split; [assumption|]. apply String.eqb_eq in Ht.
      rewrite Ht. apply contains_same.
    + intros H. apply find_some_test in H. exact H.
  - split.
    + destruct (first_match _ cands cols) as [c'|] eqn:E; [discriminate|].
      intros Hnone c cand Hc Hcand.
      destruct (contains (lower c) (lower cand)) eqn:Et; [|reflexivity].
      destruct (first_match_found
                  (fun cand c => contains (lower c) (lower cand))
                  cands cols cand c Hcand Hc Et) as [c' Hc'].
      congruence.
    + intros Hall. rewrite first_match_none.
      * apply first_match_none. intros. now apply Hall.
      * intros cand c Hcand Hc. apply not_true_is_false. intros Heq.
        apply String.eqb_eq in Heq.
        specialize (Hall c cand Hc Hcand). rewrite Heq, contains_same in Hall.
        discriminate.
  - intros [c [cand [Hc [Hcand Heq]]]].
    destruct (first_match_found
                (fun cand c => String.eqb (lower c) (lower cand))
                cands cols cand c Hcand Hc) as [c' Hc'].
    { now apply String.eqb_eq. }
    rewrite Hc'. apply find_some_test in Hc'.
    destruct Hc' as [Hin [cand' [Hcand' Ht]]]. apply String.eqb_eq in Ht.
    exists c', cand'. auto.
Qed.

(** An exact header wins over an earlier candidate contained in another one. *)
Example find_col_prefers_exact_header :
  find_col ["Profile"; "Location"] path_cands = Some "Location"
  /\ find_col ["Profile"; "Title"] path_cands = Some "Profile"
  /\ find_col ["Title"; "Tempo (BPM)"] bpm_cands = Some "Tempo (BPM)".
Proof. repeat split. Qed.

Lemma read_mik_step_returns pc bc kc data row :
  exists data', read_mik_step os_sep pc bc kc data row = Ok data'
  /\ ((row_path os_sep pc row = "" /\ data' = data)
      \/ (row_path os_sep pc row <> ""
          /\ exists b,
             data' = dict_set (lower (row_path os_sep pc row))
                       (mkMikEntry (row_path os_sep pc row) b (cell_of kc row) row)
                       data)).
Proof.
  unfold read_mik_step. fold (row_path os_sep pc row).
  destruct (truthy (row_path os_sep pc row)) eqn:E; simpl.
  - apply truthy_nonempty in E. destruct bc as [c|].
    + rewrite safe_float_returns. simpl. eexists. split; [reflexivity|].
      right. split; [assumption|]. eexists. reflexivity.
    + simpl. eexists. split; [reflexivity|].
      right. split; [assumption|]. eexists. reflexivity.
  - eexists. split; [reflexivity|]. left. split; [|reflexivity].
    destruct (row_path os_sep pc row); [reflexivity|discriminate].
Qed.

Lemma read_mik_rows pc bc kc (rows all : list (dict string)) :
  forall data,
  (forall row, In row rows -> In row all) ->
  NoDup (map fst data) ->
  (forall k m, In (k, m) data ->
     k = lower (m_path m) /\ k <> "" /\ In (m_row m) all
     /\ m_path m = row_path os_sep pc (m_row m)
     /\ m_key m = cell_of kc (m_row m)) ->
  exists data',
    for_each (read_mik_step os_sep pc bc kc) rows data = Ok data'
    /\ NoDup (map fst data')
    /\ (forall k m, In (k, m) data' ->
          k = lower (m_path m) /\ k <> "" /\ In (m_row m) all
          /\ m_path m = row_path os_sep pc (m_row m)
          /\ m_key m = cell_of kc (m_row m))
    /\ (forall k,
          option_map m_row (dict_get k data')
          = match find_last
                    (fun row => truthy (row_path os_sep pc row)
                                && String.eqb (lower (row_path os_sep pc row)) k)
                    rows with
            | Some row => Some row
            | None => option_map m_row (dict_get k data)
            end).
Proof.
  induction rows as [|row rows IH]; intros data Hall Hnd Hinv; simpl.
  - exists data. auto.
  - destruct (read_mik_step_returns pc bc kc data row) as [data1 [-> Hd]].
    simpl.
    destruct (IH data1) as [data' [Hrun [Hnd' [Hinv' Hlast]]]].
    + intros r Hr. apply Hall. now right.
    + destruct Hd as [[_ ->]|[_ [b ->]]]; [assumption|now apply dict_set_NoDup].
    + destruct Hd as [[_ ->]|[Hne [b ->]]]; [assumption|].
      intros k m Hin. apply dict_set_in in Hin.
      destruct Hin as [[-> ->]|Hin]; [|now apply Hinv].
      simpl. split; [reflexivity|]. split.
      * apply truthy_nonempty. rewrite lower_nonempty. now apply truthy_nonempty.
      * split; [|split; reflexivity]. apply Hall. now left.
    + exists data'. split; [assumption|]. split; [assumption|].
      split; [assumption|]. intros k. rewrite Hlast.
      unfold find_last. simpl. rewrite find_app_last.
      destruct (find _ (rev rows)); [reflexivity|].
      destruct Hd as [[He ->]|[Hne [b ->]]].
      * now rewrite He.
      * apply truthy_nonempty in Hne. rewrite Hne. simpl.
        destruct (String.eqb (lower (row_path os_sep pc row)) k) eqn:E.
        -- apply String.eqb_eq in E. subst k. now rewrite dict_get_set_same.
        -- apply String.eqb_neq in E. now rewrite dict_get_set_other.
Qed.

Lemma read_mik_csv_entries f :
  exists mik, read_mik_csv os_sep f = Ok mik
    /\ NoDup (map fst mik)
    /\ (forall k m, In (k, m) mik -> mik_entry_ok os_sep f k m)
    /\ (forall k,
          option_map m_row (dict_get k mik)
          = find_last
              (fun row =>
                 truthy (row_path os_sep (find_col (fieldnames f) path_cands) row)
                 && String.eqb
                      (lower (row_path os_sep (find_col (fieldnames f) path_cands) row))
                      k)
              (csv_rows f)).
Proof.
  unfold read_mik_csv, mik_entry_ok.
  destruct (read_mik_rows (find_col (fieldnames f) path_cands)
              (find_col (fieldnames f) bpm_cands)
              (find_col (fieldnames f) key_cands)
              (csv_rows f) (csv_rows f) [])
    as [mik [Hrun [Hnd [Hinv Hlast]]]]; [auto|constructor|intros ? ? []|].
  exists mik. split; [assumption|]. split; [assumption|]. split; [assumption|].
  intros k. rewrite Hlast. simpl. now destruct (find_last _ (csv_rows f)).
Qed.


End ReadMik.

(** The table of the sample run: the blank row is skipped, the repeated file
    keeps its last row, an unparsable tempo becomes 0. *)
Example read_mik_csv_sample :
  read_mik_csv "\" csv_with_paths
  = Ok [("d:\music\a.mp3",
         mkMikEntry "d:\music\A.MP3" 127 "8A"
           [("File Path", "d:/music/A.MP3"); ("BPM", "127"); ("Key", "8A")]);
        ("e:\new.mp3",
         mkMikEntry "E:\new.mp3" 0 ""
           [("File Path", " E:/new.mp3 "); ("BPM", "n/a"); ("Key", "")])].
Proof. reflexivity. Qed.

(** ** Files known to one source only *)

Section OneSided.

Implicit Types (tracks : list Track) (mik : dict MikEntry) (t : Track)
  (m : MikEntry) (pth : string).

Lemma missing_in_mik_row tracks mik pth t :
  dict_get pth (rb_paths tracks) = Some t ->
  dict_get pth mik = None ->
  rows_for pth (missing_in_mik (rb_paths tracks) mik
                ++ missing_in_rb (rb_paths tracks) mik
                ++ flat_map (diff_rows mik) (rb_paths tracks))%list
  = [missing_row t].
Proof.
  intros Ht Hm.
  assert (Hnd := rb_paths_NoDup tracks).
  assert (Hne : pth <> "").
  { apply dict_get_in in Ht. now apply rb_paths_key in Ht. }
  unfold rows_for. rewrite !filter_app.
  replace (filter _ (missing_in_rb _ mik)) with (@nil MikRow).
  replace (filter _ (flat_map (diff_rows mik) _)) with (@nil MikRow).
  - rewrite app_nil_r. unfold missing_in_mik.
    rewrite (filter_flat_map_keyed (fun r => lower (RB_Path r))); auto.
    + rewrite Ht. unfold dict_mem. now rewrite Hm.
    + intros k u r Hin. apply rb_paths_key in Hin. destruct Hin as [-> _].
      destruct (negb (dict_mem (loc_key u) mik)); [|contradiction].
      now intros [<-|[]].
  - symmetry.
    rewrite (filter_flat_map_keyed (fun r => lower (RB_Path r))); auto.
    + rewrite Ht. unfold diff_rows. simpl. now rewrite Hm.
    + intros k u r Hin. apply rb_paths_key in Hin. destruct Hin as [-> _].
      unfold diff_rows. simpl. destruct (dict_get (loc_key u) mik); [|contradiction].
      destruct (truthy_list _); [|contradiction]. now intros [<-|[]].
  - symmetry. apply filter_none. intros r Hr. unfold missing_in_rb in Hr.
    apply in_flat_map in Hr. destruct Hr as [[k m'] [_ Hr]].
    destruct (negb (dict_mem k (rb_paths tracks))); [|contradiction].
    destruct Hr as [<-|[]]. simpl. now destruct pth.
Qed.

Lemma missing_in_rb_row tracks mik pth m :
  NoDup (map fst mik) ->
  (forall k m', In (k, m') mik -> k = lower (m_path m') /\ k <> "") ->
  dict_get pth mik = Some m ->
  dict_get pth (rb_paths tracks) = None ->
  filter (fun r => String.eqb (lower (MIK_Path r)) pth)
    (missing_in_mik (rb_paths tracks) mik
     ++ missing_in_rb (rb_paths tracks) mik
     ++ flat_map (diff_rows mik) (rb_paths tracks))%list
  = [unmatched_row m].
Proof.
  intros Hnd Hkeys Hm Ht.
  assert (Hne : pth <> "").
  { apply dict_get_in in Hm. now apply Hkeys in Hm. }
  rewrite !filter_app.
  replace (filter _ (missing_in_mik _ mik)) with (@nil MikRow).
  replace (filter _ (flat_map (diff_rows mik) _)) with (@nil MikRow).
  - rewrite app_nil_r. simpl. unfold missing_in_rb.
    rewrite (filter_flat_map_keyed (fun r => lower (MIK_Path r))); auto.
    + rewrite Hm. unfold dict_mem. now rewrite Ht.
    + intros k u r Hin. apply Hkeys in Hin. destruct Hin as [-> _].
      destruct (negb (dict_mem (lower (m_path u)) (rb_paths tracks)));
        [|contradiction].
      now intros [<-|[]].
  - symmetry. apply filter_none. intros r Hr.
    apply in_flat_map in Hr. destruct Hr as [[k u] [Hin Hr]].
    unfold diff_rows in Hr. simpl in Hr.
    destruct (dict_get k mik) as [m'|] eqn:Em; [|contradiction].
    destruct (truthy_list _); [|contradiction]. destruct Hr as [<-|[]]. simpl.
    apply dict_get_in in Em. apply Hkeys in Em. destruct Em as [<- _].
    apply String.eqb_neq. intros ->.
    apply dict_get_none_notin in Ht. apply Ht.
    apply (in_map fst) in Hin. exact Hin.
  - symmetry. apply filter_none. intros r Hr. unfold missing_in_mik in Hr.
    apply in_flat_map in Hr. destruct Hr as [[k u] [_ Hr]].
    destruct (negb (dict_mem k mik)); [|contradiction].
    destruct Hr as [<-|[]]. simpl. now destruct pth.
Qed.

(** X14. Comparing the library with a secondary table that was read never
    raises, and files known to one side only are reported once: a library
    path with no entry in the table gets exactly one row, "Missing in MIK",
    carrying the track's own fields, and a table path with no track in the
    library gets exactly one row, "Missing in Rekordbox", carrying the table's
    path, tempo and key. *)
Theorem one_sided_files_are_reported_once (os_sep : string) (f : CsvFile)
  tracks mik :
  read_mik_csv os_sep f = Ok mik ->
  exists rows,
    mik_pass os_sep (Some f) tracks = Ok rows
    /\ (forall pth t,
          dict_get pth (rb_paths tracks) = Some t ->
          dict_get pth mik = None ->
          rows_for pth rows = [missing_row t])
    /\ (forall pth m,
          dict_get pth mik = Some m ->
          dict_get pth (rb_paths tracks) = None ->
          filter (fun r => String.eqb (lower (MIK_Path r)) pth) rows
          = [unmatched_row m]).
Proof.
  intros Hread.
  destruct (read_mik_csv_entries os_sep f) as [mik' [Hrun [Hnd [Hok _]]]].
  assert (mik' = mik) by congruence. subst mik'.
  eexists. split; [|split].
  - unfold mik_pass. rewrite Hread. simpl. apply mik_compare_rows.
  - intros pth t Ht Hm. now apply missing_in_mik_row.
  - intros pth m Hm Ht. apply missing_in_rb_row; auto.
    intros k m' Hin. apply Hok in Hin. unfold mik_entry_ok in Hin. tauto.
Qed.

Lemma one_sided_files_are_reported_once_witness :
  exists rows,
    mik_pass "\" (Some csv_with_paths)
      [track_a; sample_track "9" "X" "Y" "F:\only.mp3" 0 "" 0] = Ok rows
    /\ rows_for "f:\only.mp3" rows
       = [missing_row (sample_track "9" "X" "Y" "F:\only.mp3" 0 "" 0)]
    /\ filter (fun r => String.eqb (lower (MIK_Path r)) "e:\new.mp3") rows
       = [unmatched_row
            (mkMikEntry "E:\new.mp3" 0 ""
               [("File Path", " E:/new.mp3 "); ("BPM", "n/a"); ("Key", "")])].
Proof.
  destruct (one_sided_files_are_reported_once "\" csv_with_paths
              [track_a; sample_track "9" "X" "Y" "F:\only.mp3" 0 "" 0] _ eq_refl)
    as [rows [Hrun [Hrb Hmik]]].
  exists rows. split; [exact Hrun|]. split.
  - apply Hrb; reflexivity.
  - apply Hmik; reflexivity.
Defined.

(** The whole comparison of the sample run. *)
Example mik_pass_sample :
  mik_pass "\" (Some csv_with_paths)
    [track_a; sample_track "9" "X" "Y" "F:\only.mp3" 0 "" 0]
  = Ok [missing_row (sample_track "9" "X" "Y" "F:\only.mp3" 0 "" 0);
        unmatched_row
          (mkMikEntry "E:\new.mp3" 0 ""
             [("File Path", " E:/new.mp3 "); ("BPM", "n/a"); ("Key", "")]);
        mkMikRow "BPM diff" "1" "Art" "Song" "D:\Music\a.mp3" "d:\music\A.MP3"
          (CFloat 128) (CFloat 127) "8A" "8A"].
Proof. reflexivity. Qed.

End OneSided.

(** ** Reading the playlist tree *)

Section PlaylistTree.

Implicit Types (st : pl_state) (ev : xml_event) (p : Playlist).

Lemma Subseq_In {A : Type} (l1 l2 : list A) (x : A) :
  Subseq l1 l2 -> In x l1 -> In x l2.
Proof.
  induction 1 as [|y l1 l2 _ IH|y l1 l2 _ IH]; simpl; [tauto| |].
  - intros H. right. now apply IH.
  - intros [->|H]; [now left|right; now apply IH].
Qed.

Lemma dedupe_by_path_In (emitted : list Playlist) p :
  In p (dedupe_by_path emitted) -> In p emitted.
Proof.
  unfold dedupe_by_path. rewrite dedupe_fold. simpl.
  apply Subseq_In, first_by_path_Subseq.
Qed.

Lemma strip_by_clean (cls : ascii -> bool) (s : string) :
  clean_head cls (strip_by cls s) = true /\ clean_tail cls (strip_by cls s) = true.
Proof.
  unfold strip_by. split.
  - apply rstrip_clean_head, lstrip_clean_head.
  - apply rstrip_clean_tail.
Qed.

Lemma parse_playlists_step_returns st ev :
  tree_state_ok st ->
  exists st', parse_playlists_step st ev = Ok st' /\ tree_state_ok st'.
Proof.
  intros [Hcur Hpl]. destruct ev as [event elem]. unfold parse_playlists_step.
  set (inp := if is_start event && String.eqb (upper (tag elem)) "PLAYLISTS"
              then true
              else if is_end event && String.eqb (upper (tag elem)) "PLAYLISTS"
                   then false else in_playlists st).
  cbn [in_playlists stack current_tracks playlists].
  destruct (negb inp).
  { eexists. split; [reflexivity|]. now split. }
  destruct (String.eqb (upper (tag elem)) "NODE" && is_start event).
  { eexists. split; [reflexivity|]. split; [intros ? []|exact Hpl]. }
  destruct (String.eqb (upper (tag elem)) "TRACK" && is_start event).
  { destruct (dict_get "Key" (attrib elem)) as [k|].
    - destruct (truthy k) eqn:Ek.
      + eexists. split; [reflexivity|]. split; [|exact Hpl].
        cbn [current_tracks]. intros k' Hin. apply in_app_or in Hin.
        destruct Hin as [Hin|[<-|[]]]; [now apply Hcur|now apply truthy_nonempty].
      + eexists. split; [reflexivity|]. now split.
    - eexists. split; [reflexivity|]. now split. }
  destruct (String.eqb (upper (tag elem)) "NODE" && is_end event).
  - destruct (stack st) as [|[name attrs] below].
    + eexists. split; [reflexivity|]. split; [intros ? []|exact Hpl].
    + rewrite safe_int_returns. cbn [bind].
      set (n := or_default (safe_int (attr_or "Entries" (PInt 0) attrs) 0) 0%Z).
      eexists. split; [reflexivity|]. split; [intros ? []|].
      cbn [playlists]. intros p Hin. apply in_app_or in Hin.
      destruct Hin as [Hin|Hin]; [now apply Hpl|].
      destruct (truthy_list (current_tracks st) || negb (n =? 0)%Z) eqn:Efound;
        [|contradiction].
      destruct Hin as [<-|[]]. unfold playlist_ok.
      cbn [entries track_keys pl_name pl_path].
      assert (Hent : (if negb (n =? 0)%Z then n
                      else Z.of_nat (List.length (current_tracks st))) <> 0%Z).
      { destruct (n =? 0)%Z eqn:En; simpl.
        - rewrite orb_false_r in Efound.
          destruct (current_tracks st); [discriminate|]. simpl List.length. lia.
        - now apply Z.eqb_neq. }
      split; [exact Hent|]. split; [exact Hcur|].
      intros Hname. apply truthy_nonempty in Hname. rewrite Hname.
      apply strip_by_clean.
  - eexists. split; [reflexivity|]. now split.
Qed.

Lemma parse_playlists_loop (ctx : list xml_event) : forall st,
  tree_state_ok st ->
  exists st', for_each parse_playlists_step ctx st = Ok st' /\ tree_state_ok st'.
Proof.
  induction ctx as [|ev ctx IH]; intros st Hst; simpl.
  - exists st. auto.
  - destruct (parse_playlists_step_returns st ev Hst) as [st1 [-> Hst1]].
    simpl. now apply IH.
Qed.

Lemma parse_playlists_outside (ctx : list xml_event) : forall st,
  in_playlists st = false ->
  forallb (fun ev => negb (has_tag "PLAYLISTS" ev)) ctx = true ->
  exists st', for_each parse_playlists_step ctx st = Ok st'
              /\ playlists st' = playlists st.
Proof.
  induction ctx as [|[event elem] ctx IH]; intros st Hin Hall; simpl.
  - exists st. auto.
  - simpl in Hall. apply andb_true_iff in Hall. destruct Hall as [Hev Hall].
    unfold has_tag in Hev. simpl in Hev. apply negb_true_iff in Hev.
    rewrite Hev, !andb_false_r, Hin. simpl.
    destruct (IH (mkPlState false (stack st) (current_tracks st) (playlists st))
                eq_refl Hall) as [st' [Hrun Hpl]].
    exists st'. auto.
Qed.

(** X15. [parse_playlists] never raises.  The playlists it returns have
    distinct paths; each has a non-zero entry count and only non-empty track
    keys, and when its name is not empty its path neither starts nor ends
    with a slash.  A document in which no element is tagged PLAYLISTS gives
    no playlist, whatever NODE and TRACK elements it holds. *)
Theorem parse_playlists_returns (ctx : list xml_event) :
  exists pls,
    parse_playlists ctx = Ok pls
    /\ NoDup (map pl_path pls)
    /\ (forall p, In p pls -> playlist_ok p)
    /\ (forallb (fun ev => negb (has_tag "PLAYLISTS" ev)) ctx = true -> pls = []).
Proof.
  unfold parse_playlists.
  destruct (parse_playlists_loop ctx (mkPlState false [] [] []))
    as [st [Hrun [_ Hok]]].
  { split; intros ? []. }
  rewrite Hrun. simpl. eexists. split; [reflexivity|]. split; [|split].
  - apply dedupe_by_path_NoDup.
  - intros p Hin. apply Hok. now apply dedupe_by_path_In.
  - intros Hall.
    destruct (parse_playlists_outside ctx (mkPlState false [] [] []) eq_refl Hall)
      as [st' [Hrun' Hpl]].
    assert (st' = st) by congruence. subst st'. now rewrite Hpl.
Qed.

End PlaylistTree.

(** ** De-duplication keeps the first emission *)

Section FirstEmission.

Implicit Types (emitted ps pre : list Playlist) (seen : pyset).

Lemma first_by_path_positions ps : forall pre seen,
  (forall k, set_mem k seen = existsb (has_path k) pre) ->
  first_by_path seen ps
  = map snd
      (filter
         (fun ip =>
            negb (existsb (has_path (pl_path (snd ip)))
                    (firstn (fst ip) (pre ++ ps))))
         (combine (seq (List.length pre) (List.length ps)) ps)).
Proof.
  induction ps as [|p ps IH]; intros pre seen Hseen; [reflexivity|].
  cbn [List.length seq combine filter first_by_path fst snd].
  rewrite firstn_app, firstn_all, Nat.sub_diag, app_nil_r, <- Hseen.
  replace (pre ++ p :: ps)%list with ((pre ++ [p]) ++ ps)%list
    by (now rewrite <- app_assoc).
  rewrite <- (last_length pre p).
  destruct (set_mem (pl_path p) seen) eqn:E; cbn [negb map snd].
  - apply IH. intros k. rewrite existsb_app, Hseen. cbn [existsb].
    rewrite orb_false_r.
    destruct (has_path k p) eqn:Ek; [|now rewrite orb_false_r].
    unfold has_path in Ek. apply String.eqb_eq in Ek. subst k.
    now rewrite <- Hseen, E.
  - f_equal. apply IH. intros k. rewrite existsb_app, <- Hseen.
    unfold set_mem, has_path. cbn [existsb].
    rewrite orb_false_r, (String.eqb_sym (pl_path p) k). apply orb_comm.
Qed.

(** C9. De-duplication by path keeps the first occurrence.  For every list
    of emitted records the de-duplication loop returns exactly the records
    that stand at the first position of their path, in emission order: the
    record at position [i] is kept when none of the [i] records before it has
    its path, and dropped otherwise.  Hence the result has at most one record
    per path, the record found under a path is the first one emitted with
    it, and the result is a subsequence of the emitted list.
    [parse_playlists] returns, for every document, this selection of the
    records its event loop has emitted. *)
Theorem dedupe_keeps_first_occurrence :
  (forall emitted,
     dedupe_by_path emitted = first_emissions emitted
     /\ NoDup (map pl_path (dedupe_by_path emitted))
     /\ (forall p, find (has_path p) (dedupe_by_path emitted)
                   = find (has_path p) emitted)
     /\ Subseq (dedupe_by_path emitted) emitted)
  /\ (forall ctx, exists emitted,
        emitted_by ctx = Ok emitted
        /\ parse_playlists ctx = Ok (first_emissions emitted)).
Proof.
  assert (Hfirst : forall emitted, dedupe_by_path emitted = first_emissions emitted).
  { intros emitted. unfold dedupe_by_path, first_emissions.
    rewrite dedupe_fold. simpl.
    now rewrite (first_by_path_positions emitted [] []). }
  split.
  - intros emitted. split; [apply Hfirst|].
    unfold dedupe_by_path. rewrite dedupe_fold. simpl.
    split; [apply first_by_path_NoDup|split].
    + intros p. now rewrite first_by_path_find.
    + apply first_by_path_Subseq.
  - intros ctx. unfold emitted_by, parse_playlists.
    destruct (parse_playlists_loop ctx (mkPlState false [] [] []))
      as [st [Hrun _]].
    { split; intros ? []. }
    rewrite Hrun. simpl. exists (playlists st). split; [reflexivity|].
    now rewrite Hfirst.
Qed.

(** A document that emits the path [Sets] twice: the first record is kept at
    its place, the later one is dropped. *)
Example first_emission_of_a_repeated_path :
  emitted_by document_repeating_a_path
  = Ok [mkPlaylist "Sets" "Sets" "1" 1 ["1"];
        mkPlaylist "Warmup" "Warmup" "1" 1 ["2"];
        mkPlaylist "Sets" "Sets" "1" 1 ["3"]]
  /\ parse_playlists document_repeating_a_path
     = Ok [mkPlaylist "Sets" "Sets" "1" 1 ["1"];
           mkPlaylist "Warmup" "Warmup" "1" 1 ["2"]]
  /\ first_emissions
       [mkPlaylist "Sets" "Sets" "1" 1 ["1"];
        mkPlaylist "Warmup" "Warmup" "1" 1 ["2"];
        mkPlaylist "Sets" "Sets" "1" 1 ["1"]]
     = [mkPlaylist "Sets" "Sets" "1" 1 ["1"];
        mkPlaylist "Warmup" "Warmup" "1" 1 ["2"]].
Proof. repeat split. Qed.

End FirstEmission.

(** ** Reading the collection *)

Section Collection.

Variable os_sep : string.

Implicit Types (ctx : list xml_event) (ev : xml_event) (t : Track).

Lemma iter_tracks_step_cases (inc : bool) (out : list Track) ev :
  exists inc',
    (closes_track ev = true
     /\ iter_tracks_step os_sep (inc, out) ev
        = (p <- fileurl_to_path os_sep (raw_location (attrib (snd ev))) ;;
           Ok (inc', (out ++ [track_record (attrib (snd ev)) p])%list)))
    \/ iter_tracks_step os_sep (inc, out) ev = Ok (inc', out).
Proof.
  destruct ev as [event elem]. unfold iter_tracks_step.
  set (inc' := if is_start event && String.eqb (upper (tag elem)) "COLLECTION"
               then true
               else if is_end event && String.eqb (upper (tag elem)) "COLLECTION"
                    then false else inc).
  exists inc'.
  destruct (is_end event && inc' && String.eqb (upper (tag elem)) "TRACK") eqn:E.
  - left. split.
    + unfold closes_track. simpl.
      destruct (is_end event), inc'; try discriminate E. exact E.
    + rewrite track_of_attrib_numeric. simpl.
      now destruct (fileurl_to_path os_sep (raw_location (attrib elem))).
  - now right.
Qed.

Lemma iter_tracks_loop ctx : forall (inc : bool) (out : list Track),
  match for_each (iter_tracks_step os_sep) ctx (inc, out) with
  | Ok st =>
      exists new,
        snd st = (out ++ new)%list
        /\ (List.length new <= List.length (filter closes_track ctx))%nat
        /\ forall t, In t new ->
             exists ev, In ev ctx /\ closes_track ev = true
               /\ fileurl_to_path os_sep (raw_location (attrib (snd ev)))
                  = Ok (location_path t)
               /\ t = track_record (attrib (snd ev)) (location_path t)
  | Raise e =>
      exists ev, In ev ctx /\ closes_track ev = true
        /\ fileurl_to_path os_sep (raw_location (attrib (snd ev))) = Raise e
  end.
Proof.
  induction ctx as [|ev ctx IH]; intros inc out.
  - simpl. exists []. rewrite app_nil_r. split; [reflexivity|].
    split; [constructor|intros ? []].
  - cbn [for_each filter].
    destruct (iter_tracks_step_cases inc out ev) as [inc' [[Hc ->]| ->]].
    + rewrite Hc.
      destruct (fileurl_to_path os_sep (raw_location (attrib (snd ev))))
        as [p|e] eqn:Ep.
      * cbn [bind].
        specialize (IH inc' (out ++ [track_record (attrib (snd ev)) p])%list).
        destruct (for_each _ ctx _) as [st|e].
        -- destruct IH as [new [Hout [Hlen Hnew]]].
           exists (track_record (attrib (snd ev)) p :: new). split; [|split].
           ++ now rewrite Hout, <- app_assoc.
           ++ simpl. lia.
           ++ intros t [<-|Hin].
              ** exists ev. simpl. auto.
              ** destruct (Hnew t Hin) as [ev' [Hev H]]. exists ev'.
                 split; [now right|exact H].
        -- destruct IH as [ev' [Hev H]]. exists ev'. split; [now right|exact H].
      * cbn [bind]. exists ev. simpl. auto.
    + cbn [bind]. specialize (IH inc' out).
      destruct (for_each _ ctx _) as [st|e].
      * destruct IH as [new [Hout [Hlen Hnew]]]. exists new.
        split; [assumption|]. split.
        -- destruct (closes_track ev); simpl; lia.
        -- intros t Hin. destruct (Hnew t Hin) as [ev' [Hev H]]. exists ev'.
           split; [now right|exact H].
      * destruct IH as [ev' [Hev H]]. exists ev'. split; [now right|exact H].
Qed.

Lemma iter_tracks_outside ctx : forall (out : list Track),
  forallb (fun ev => negb (has_tag "COLLECTION" ev)) ctx = true ->
  for_each (iter_tracks_step os_sep) ctx (false, out) = Ok (false, out).
Proof.
  induction ctx as [|[event elem] ctx IH]; intros out Hall; [reflexivity|].
  simpl in Hall. apply andb_true_iff in Hall. destruct Hall as [Hev Hall].
  unfold has_tag in Hev. simpl in Hev. apply negb_true_iff in Hev.
  cbn [for_each].
  replace (iter_tracks_step os_sep (false, out) (event, elem))
    with (@Ok (bool * list Track) (false, out)).
  - cbn [bind]. now apply IH.
  - unfold iter_tracks_step. now rewrite Hev, !andb_false_r.
Qed.

(** X16. [iter_tracks] built from the events of a document.  When it returns,
    every track it yields is the record of a closing TRACK element of the
    document: its attributes read with the defaults, its path the conversion
    of the element's Location; there are at most as many tracks as closing
    TRACK elements.  When it raises, the exception comes from converting the
    Location of a closing TRACK element.  A document in which no element is
    tagged COLLECTION yields no track and converts no Location. *)
Theorem iter_tracks_outcomes ctx :
  (forall tracks, iter_tracks os_sep ctx = Ok tracks ->
     (List.length tracks <= List.length (filter closes_track ctx))%nat
     /\ forall t, In t tracks ->
          exists ev, In ev ctx /\ closes_track ev = true
            /\ fileurl_to_path os_sep (raw_location (attrib (snd ev)))
               = Ok (location_path t)
            /\ t = track_record (attrib (snd ev)) (location_path t))
  /\ (forall e, iter_tracks os_sep ctx = Raise e ->
        exists ev, In ev ctx /\ closes_track ev = true
          /\ fileurl_to_path os_sep (raw_location (attrib (snd ev))) = Raise e)
  /\ (forallb (fun ev => negb (has_tag "COLLECTION" ev)) ctx = true ->
      iter_tracks os_sep ctx = Ok []).
Proof.
  unfold iter_tracks. assert (Hloop := iter_tracks_loop ctx false []).
  split; [|split].
  - intros tracks Hrun.
    destruct (for_each _ ctx _) as [st|e]; [|discriminate]. simpl in Hrun.
    injection Hrun as <-. destruct Hloop as [new [-> H]]. exact H.
  - intros e Hrun.
    destruct (for_each _ ctx _) as [st|e']; [discriminate|]. simpl in Hrun.
    injection Hrun as <-. exact Hloop.
  - intros Hall. now rewrite iter_tracks_outside.
Qed.

End Collection.

(** ** Locations that cannot be converted *)

Section Brackets.

Variable os_sep : string.

Implicit Types (s url loc : string) (ch : ascii) (p : ascii -> bool).

Lemma has_char_lstrip ch p s :
  has_char ch s = false -> has_char ch (lstrip_by p s) = false.
Proof.
  induction s as [|c s IH]; simpl; [reflexivity|]. intros H.
  apply orb_false_iff in H. destruct H as [Hc Hs].
  destruct (p c); [now apply IH|]. simpl. now rewrite Hc, Hs.
Qed.

Lemma has_char_rstrip ch p s :
  has_char ch s = false -> has_char ch (rstrip_by p s) = false.
Proof.
  induction s as [|c s IH]; simpl; [reflexivity|]. intros H.
  apply orb_false_iff in H. destruct H as [Hc Hs]. specialize (IH Hs).
  destruct (rstrip_by p s) as [|c' r].
  - destruct (p c); simpl; [reflexivity|now rewrite Hc].
  - change (Ascii.eqb c ch || has_char ch (String c' r) = false).
    now rewrite Hc, IH.
Qed.

Lemma has_char_remove ch p s :
  has_char ch s = false -> has_char ch (remove_chars p s) = false.
Proof.
  induction s as [|c s IH]; simpl; [reflexivity|]. intros H.
  apply orb_false_iff in H. destruct H as [Hc Hs].
  destruct (p c); [now apply IH|]. simpl. now rewrite Hc, IH.
Qed.

Lemma has_char_break ch p s :
  has_char ch s = false ->
  has_char ch (fst (break_at p s)) = false
  /\ has_char ch (snd (break_at p s)) = false.
Proof.
  induction s as [|c s IH]; simpl; [auto|]. intros H.
  destruct (p c); [simpl; auto|].
  apply orb_false_iff in H. destruct H as [Hc Hs].
  destruct (IH Hs) as [H1 H2]. destruct (break_at p s) as [a b]. simpl in *.
  now rewrite Hc, H1.
Qed.

Lemma has_char_substring ch s : forall (n m : nat),
  has_char ch s = false -> has_char ch (String.substring n m s) = false.
Proof.
  induction s as [|c s IH]; intros n m H.
  - now destruct n, m.
  - simpl in H. apply orb_false_iff in H. destruct H as [Hc Hs].
    destruct n as [|n]; [destruct m as [|m]|]; simpl; [reflexivity| |now apply IH].
    rewrite Hc. now apply IH.
Qed.

Lemma has_char_scheme_rest ch url :
  has_char ch url = false -> has_char ch (snd (split_scheme url)) = false.
Proof.
  intros H. unfold split_scheme.
  destruct (has_char_break ch (Ascii.eqb ":") url H) as [_ Hb].
  destruct (break_at (Ascii.eqb ":") url) as [a b]. simpl in Hb.
  destruct a as [|c0 a]; [exact H|]. destruct b as [|c b]; [exact H|].
  destruct (is_alpha c0 && all_chars is_scheme_char (String c0 a)); [|exact H].
  simpl in *. apply orb_false_iff in Hb. tauto.
Qed.

Lemma split_netloc_only_value_error url e :
  split_netloc url = Raise e -> e = ValueError.
Proof.
  unfold split_netloc. destruct (startswith url "//"); [|discriminate].
  destruct (break_at _ _) as [nl rest].
  destruct (xorb _ _); [|discriminate]. now intros [= <-].
Qed.

Lemma split_netloc_without_brackets url :
  has_char "[" url = false -> has_char "]" url = false ->
  exists r, split_netloc url = Ok r.
Proof.
  intros Ho Hc. unfold split_netloc.
  destruct (startswith url "//"); [|eexists; reflexivity].
  set (u := String.substring 2 (String.length url - 2) url).
  assert (Ho' : has_char "[" u = false) by now apply has_char_substring.
  assert (Hc' : has_char "]" u = false) by now apply has_char_substring.
  destruct (has_char_break "[" is_netloc_end u Ho') as [Ho'' _].
  destruct (has_char_break "]" is_netloc_end u Hc') as [Hc'' _].
  destruct (break_at is_netloc_end u) as [nl rest]. simpl in *.
  rewrite Ho'', Hc''. eexists. reflexivity.
Qed.

Lemma urlsplit_raises url e :
  urlsplit url = Raise e ->
  e = ValueError /\ (has_char "[" url || has_char "]" url = true).
Proof.
  unfold urlsplit. intros H.
  set (u := remove_chars is_tab_or_newline (lstrip_by is_c0_or_space url)) in *.
  assert (Hrest := fun ch => has_char_scheme_rest ch u).
  destruct (split_scheme u) as [sch u']. simpl in Hrest.
  destruct (split_netloc u') as [[nl u'']|e'] eqn:Enet.
  - simpl in H. destruct (split_once "#" u'') as [x frag].
    destruct (split_once "?" x). discriminate H.
  - simpl in H. injection H as <-.
    split; [now apply split_netloc_only_value_error in Enet|].
    destruct (has_char "[" url) eqn:Ho; [reflexivity|].
    destruct (has_char "]" url) eqn:Hc; [reflexivity|]. exfalso.
    destruct (split_netloc_without_brackets u') as [r Hr].
    + apply Hrest. unfold u. now apply has_char_remove, has_char_lstrip.
    + apply Hrest. unfold u. now apply has_char_remove, has_char_lstrip.
    + congruence.
Qed.

(** X17. What [fileurl_to_path] can do with a location.  A location that is
    not a file URL (after trimming, it does not start with [file:], case
    ignored) is returned trimmed and never raises.  When the conversion
    raises, the exception is a ValueError, the location is a file URL, and it
    holds a square bracket: a location without square brackets always
    converts. *)
Theorem fileurl_to_path_outcomes (loc : string) :
  (is_file_url loc = false -> fileurl_to_path os_sep loc = Ok (strip loc))
  /\ (forall e, fileurl_to_path os_sep loc = Raise e ->
        e = ValueError /\ is_file_url loc = true
        /\ has_char "[" loc || has_char "]" loc = true)
  /\ (has_char "[" loc = false -> has_char "]" loc = false ->
      exists q, fileurl_to_path os_sep loc = Ok q).
Proof.
  assert (Hraise : forall e, fileurl_to_path os_sep loc = Raise e ->
            e = ValueError /\ is_file_url loc = true
            /\ has_char "[" loc || has_char "]" loc = true).
  { intros e. unfold fileurl_to_path, is_file_url.
    destruct (truthy loc); [|discriminate]. simpl.
    destruct (startswith (lower (strip loc)) "file:"); [|discriminate]. simpl.
    destruct (urlsplit (strip loc)) as [r|e'] eqn:Eu; [discriminate|]. simpl.
    intros [= <-]. apply urlsplit_raises in Eu. destruct Eu as [-> Hb].
    split; [reflexivity|]. split; [reflexivity|].
    destruct (has_char "[" loc) eqn:Ho; [reflexivity|].
    destruct (has_char "]" loc) eqn:Hc; [reflexivity|]. simpl.
    unfold strip, strip_by in Hb.
    rewrite (has_char_rstrip "[" is_space _ (has_char_lstrip "[" is_space loc Ho)) in Hb.
    rewrite (has_char_rstrip "]" is_space _ (has_char_lstrip "]" is_space loc Hc)) in Hb.
    discriminate Hb. }
  split; [|split].
  - unfold fileurl_to_path, is_file_url. intros H.
    destruct loc; [reflexivity|]. simpl truthy. cbn [negb]. now rewrite H.
  - exact Hraise.
  - intros Ho Hc. destruct (fileurl_to_path os_sep loc) as [q|e] eqn:E.
    + now exists q.
    + destruct (Hraise e eq_refl) as [_ [_ Hb]]. rewrite Ho, Hc in Hb.
      discriminate Hb.
Qed.

End Brackets.

(** ** File URLs that name a host *)

Section HostUrl.

Variable os_sep : string.

Implicit Types (h rest s : string) (d c : ascii).

Lemma all_chars_app (p : ascii -> bool) s1 s2 :
  all_chars p (s1 ++ s2) = all_chars p s1 && all_chars p s2.
Proof.
  induction s1 as [|c s1 IH]; simpl; [reflexivity|].
  now rewrite IH, andb_assoc.
Qed.

Lemma break_at_app (p : ascii -> bool) h c s :
  all_chars (fun x => negb (p x)) h = true -> p c = true ->
  break_at p (h ++ String c s) = (h, String c s).
Proof.
  intros Hh Hc. induction h as [|x h IH]; simpl.
  - now rewrite Hc.
  - simpl in Hh. apply andb_true_iff in Hh. destruct Hh as [Hx Hh].
    apply negb_true_iff in Hx. now rewrite Hx, IH.
Qed.

Lemma has_char_none ch s :
  all_chars (fun x => negb (Ascii.eqb x ch)) s = true -> has_char ch s = false.
Proof.
  induction s as [|c s IH]; simpl; [reflexivity|]. intros H.
  apply andb_true_iff in H. destruct H as [Hc Hs].
  apply negb_true_iff in Hc. now rewrite Hc, IH.
Qed.

Lemma replace_slash_plain (new : string) h s :
  all_chars (fun x => negb (Ascii.eqb x "/")) h = true ->
  replace "/" new (h ++ s) = h ++ replace "/" new s.
Proof.
  induction h as [|c h IH]; simpl; [reflexivity|]. intros H.
  apply andb_true_iff in H. destruct H as [Hc Hh]. apply negb_true_iff in Hc.
  change (replace "/" new (String c (h ++ s)) = String c (h ++ replace "/" new s)).
  now rewrite replace_slash_step, Hc, IH.
Qed.

Lemma drive_rooted_needs_letter c s :
  is_alpha c = false -> drive_rooted (String "/" (String c s)) = false.
Proof.
  intros Hc. destruct s as [|c2 s]; [reflexivity|].
  destruct s as [|c3 s].
  - destruct c2 as [[] [] [] [] [] [] [] []]; reflexivity.
  - destruct c2 as [[] [] [] [] [] [] [] []]; try reflexivity.
    destruct c3 as [[] [] [] [] [] [] [] []]; try reflexivity. exact Hc.
Qed.

Lemma host_char_facts c :
  host_char c = true ->
  url_char c = true /\ Ascii.eqb c "/" = false /\ Ascii.eqb c "[" = false
  /\ Ascii.eqb c "]" = false /\ is_netloc_end c = false.
Proof.
  destruct c as [[] [] [] [] [] [] [] []]; simpl; intros H;
    try discriminate H; repeat split; reflexivity.
Qed.

Lemma urlsplit_host_url h d rest :
  is_alpha d = true -> all_chars host_char h = true ->
  all_chars url_char rest = true ->
  urlsplit (host_url h d rest)
  = Ok (mkSplit "file" h (String "/" (String d (":/" ++ rest))) "" "").
Proof.
  intros Hd Hh Hrest. destruct (alpha_facts d Hd) as [Hu [Hpc [Hsl Hco]]].
  set (tail := String "/" (String d (":/" ++ rest))).
  assert (Htail : all_chars url_char tail = true).
  { unfold tail. simpl. now rewrite Hu, Hrest. }
  assert (Hhost : forall p, (forall c, host_char c = true -> p c = true) ->
            all_chars p h = true).
  { intros p Hp. now apply (all_chars_impl host_char). }
  assert (Hurl : all_chars url_char (h ++ tail) = true).
  { rewrite all_chars_app, Htail, andb_true_r. apply Hhost.
    intros c Hc. now apply host_char_facts. }
  unfold urlsplit.
  replace (lstrip_by is_c0_or_space (host_url h d rest)) with (host_url h d rest)
    by reflexivity.
  replace (remove_chars is_tab_or_newline (host_url h d rest))
    with ("file://" ++ h ++ tail).
  2:{ symmetry. change (host_url h d rest) with ("file://" ++ h ++ tail).
      apply remove_chars_none.
      change (all_chars (fun c => negb (is_tab_or_newline c)) (h ++ tail) = true).
      apply (all_chars_impl url_char); [|assumption].
      intros c Hc. apply negb_true_iff. now apply url_char_facts. }
  replace (split_scheme ("file://" ++ h ++ tail)) with ("file", "//" ++ h ++ tail)
    by reflexivity.
  replace (split_netloc ("//" ++ h ++ tail)) with (Ok (h, tail)).
  2:{ unfold split_netloc.
      replace (startswith ("//" ++ h ++ tail) "//") with true.
      2:{ unfold startswith.
          change ("//" ++ h ++ tail) with (String "/" (String "/" (h ++ tail))).
          rewrite !prefix_cons. simpl. now destruct (h ++ tail). }
      replace (String.substring 2 (String.length ("//" ++ h ++ tail) - 2)
                 ("//" ++ h ++ tail))
        with (String.substring 0 (String.length (h ++ tail) - 0) (h ++ tail))
        by reflexivity.
      replace (String.length (h ++ tail) - 0)%nat with (String.length (h ++ tail))
        by lia.
      rewrite substring_full. unfold tail. rewrite break_at_app.
      - rewrite !has_char_none; [reflexivity| |].
        + apply Hhost. intros c Hc. apply negb_true_iff. now apply host_char_facts.
        + apply Hhost. intros c Hc. apply negb_true_iff. now apply host_char_facts.
      - apply Hhost. intros c Hc. apply negb_true_iff. now apply host_char_facts.
      - reflexivity. }
  cbn [bind]. unfold split_once.
  rewrite (break_at_none (Ascii.eqb "#") tail).
  2:{ apply (all_chars_impl url_char); [|assumption].
      intros c Hc. apply negb_true_iff. now apply url_char_facts. }
  rewrite (break_at_none (Ascii.eqb "?") tail).
  2:{ apply (all_chars_impl url_char); [|assumption].
      intros c Hc. apply negb_true_iff. now apply url_char_facts. }
  reflexivity.
Qed.

(** X18. A file URL that names a host, [file://<h>/<d>:/<rest>]: when the
    host is empty or is [localhost] in any case, the result is the path on
    the lettered drive written with the host separator, as for a URL without
    host; for any other host the result is the UNC-style path, two separators
    and the host in front of the drive path, the drive letter kept.  The host
    holds no slash, square bracket, [?], [#], space or control character;
    [rest] is as in the URL without host. *)
Theorem file_url_with_host (h : string) (d : ascii) (rest : string) :
  is_alpha d = true ->
  all_chars host_char h = true ->
  all_chars url_char rest = true ->
  fileurl_to_path os_sep (host_url h d rest)
  = Ok (if this_machine h then drive_path os_sep d (unquote rest)
        else os_sep ++ os_sep ++ h ++ os_sep ++ drive_path os_sep d (unquote rest)).
Proof.
  intros Hd Hh Hrest. destruct (alpha_facts d Hd) as [Hurl [Hpc [Hsl Hco]]].
  unfold fileurl_to_path.
  replace (truthy (host_url h d rest)) with true by reflexivity. cbn [negb].
  rewrite (strip_fixed (host_url h d rest)).
  2:{ reflexivity. }
  2:{ change (clean_tail is_space
                (String "f" ("ile://" ++ h ++ String "/" (String d (":/" ++ rest))))
              = true).
      apply clean_tail_url_chars; [reflexivity|].
      change (all_chars url_char (h ++ String "/" (String d (":/" ++ rest))) = true).
      rewrite all_chars_app. simpl. rewrite Hurl, Hrest, andb_true_r.
      apply (all_chars_impl host_char); [|assumption].
      intros c Hc. now apply host_char_facts. }
  replace (startswith (lower (host_url h d rest)) "file:") with true by reflexivity.
  cbn [negb]. rewrite urlsplit_host_url by assumption. cbn [bind path netloc].
  rewrite (unquote_plain_prefix "/") by reflexivity.
  rewrite (unquote_plain_prefix d) by assumption.
  change (":/" ++ rest) with (String ":" (String "/" rest)).
  rewrite (unquote_plain_prefix ":") by reflexivity.
  rewrite (unquote_plain_prefix "/") by reflexivity.
  set (u := unquote rest).
  assert (Hlocal : replace "/" os_sep (String d (String ":" (String "/" u)))
                   = drive_path os_sep d u).
  { rewrite !replace_slash_step.
    replace (Ascii.eqb d "/") with false by (symmetry; now apply Ascii.eqb_neq).
    reflexivity. }
  unfold this_machine.
  destruct (truthy h && negb (String.eqb (lower h) "localhost")) eqn:E.
  - replace (negb (truthy h) || String.eqb (lower h) "localhost") with false.
    2:{ destruct (truthy h), (String.eqb (lower h) "localhost");
          try discriminate E; reflexivity. }
    change ("//" ++ h ++ String "/" (String d (String ":" (String "/" u))))
      with (String "/" (String "/" (h ++ String "/" (String d (String ":" (String "/" u)))))).
    rewrite drive_rooted_needs_letter by reflexivity.
    rewrite !replace_slash_step. cbn [Ascii.eqb Bool.eqb].
    rewrite replace_slash_plain.
    2:{ apply (all_chars_impl host_char); [|assumption].
        intros c Hc. apply negb_true_iff. now apply host_char_facts. }
    rewrite replace_slash_step. cbn [Ascii.eqb Bool.eqb].
    now rewrite Hlocal.
  - replace (negb (truthy h) || String.eqb (lower h) "localhost") with true.
    2:{ destruct (truthy h), (String.eqb (lower h) "localhost");
          try discriminate E; reflexivity. }
    replace (drive_rooted (String "/" (String d (String ":" (String "/" u)))))
      with true by (simpl; now rewrite Hd).
    replace (String.substring 1 _ _)
      with (String.substring 0
              (String.length (String d (String ":" (String "/" u))))
              (String d (String ":" (String "/" u))))
      by reflexivity.
    rewrite substring_full. now rewrite Hlocal.
Qed.

End HostUrl.

Lemma file_url_with_host_witness :
  fileurl_to_path "\" "file://LocalHost/D:/Music/a%20b.mp3" = Ok "D:\Music\a b.mp3"
  /\ fileurl_to_path "\" "file://nas/D:/Music/a%20b.mp3" = Ok "\\nas\D:\Music\a b.mp3".
Proof.
  split.
  - apply (file_url_with_host "\" "LocalHost" "D" "Music/a%20b.mp3"); reflexivity.
  - apply (file_url_with_host "\" "nas" "D" "Music/a%20b.mp3"); reflexivity.
Defined.

(** ** Normalising twice *)

Section Twice.

Variable os_sep : string.

Implicit Types (h rest s q u : string) (c : ascii) (cls : ascii -> bool).

Lemma fileurl_to_path_plain q :
  is_file_url q = false -> fileurl_to_path os_sep q = Ok (strip q).
Proof.
  unfold is_file_url, fileurl_to_path. intros H.
  destruct q as [|c q]; [reflexivity|]. cbn [truthy negb]. now rewrite H.
Qed.

Lemma prefix_empty s : String.prefix "" s = true.
Proof. now destruct s. Qed.

Lemma prefix_lower_rstrip cls s : forall (a : string),
  String.prefix a (lower (rstrip_by cls s)) = true ->
  String.prefix a (lower s) = true.
Proof.
  induction s as [|c s IH]; intros a; [trivial|].
  destruct a as [|x a]; [intros _; apply prefix_empty|].
  cbn [rstrip_by]. destruct (rstrip_by cls s) as [|c' r] eqn:Er.
  - destruct (cls c); [discriminate|].
    cbn [lower]. rewrite !prefix_cons.
    destruct (Ascii.eqb x (lower_char c)); [|discriminate].
    destruct a; [intros _; apply prefix_empty|discriminate].
  - change (lower (String c (String c' r)))
      with (String (lower_char c) (lower (String c' r))).
    cbn [lower]. rewrite !prefix_cons.
    destruct (Ascii.eqb x (lower_char c)); [|discriminate].
    apply IH.
Qed.

Lemma plain_location q :
  clean_head is_space q = true -> startswith (lower q) "file:" = false ->
  is_file_url q = false.
Proof.
  intros Hh Hf. unfold is_file_url, strip, strip_by.
  rewrite (lstrip_fixed is_space q Hh).
  destruct (startswith (lower (rstrip_by is_space q)) "file:") eqn:E;
    [|reflexivity].
  unfold startswith in *. apply prefix_lower_rstrip in E. congruence.
Qed.

(** A location that is not a file URL and has no leading whitespace is a
    fixed point exactly when it has no trailing whitespace. *)
Lemma twice_plain q :
  clean_head is_space q = true -> startswith (lower q) "file:" = false ->
  (fileurl_to_path os_sep q = Ok q <-> clean_tail is_space q = true).
Proof.
  intros Hh Hf. rewrite (fileurl_to_path_plain q (plain_location q Hh Hf)).
  split.
  - intros [= Hs]. rewrite <- Hs. apply strip_clean.
  - intros Ht. now rewrite strip_fixed.
Qed.

Lemma clean_tail_cons c s :
  is_space c = false -> clean_tail is_space (String c s) = clean_tail is_space s.
Proof. intros H. destruct s; simpl; [now rewrite H|reflexivity]. Qed.

Lemma clean_tail_app cls s c u :
  clean_tail cls (s ++ String c u) = clean_tail cls (String c u).
Proof.
  induction s as [|a s IH]; [reflexivity|].
  rewrite <- IH. cbn [append].
  destruct (s ++ String c u) eqn:E; [|reflexivity].
  destruct s; discriminate E.
Qed.

Lemma replace_slash_tail (sc : ascii) u :
  is_space sc = false ->
  clean_tail is_space (replace "/" (String sc "") u) = clean_tail is_space u.
Proof.
  intros Hsc. induction u as [|c u IH]; [reflexivity|].
  rewrite replace_slash_step. destruct (Ascii.eqb c "/") eqn:Ec.
  - apply Ascii.eqb_eq in Ec. subst c.
    change (String sc "" ++ replace "/" (String sc "") u)
      with (String sc (replace "/" (String sc "") u)).
    rewrite clean_tail_cons, IH by assumption.
    symmetry. now apply clean_tail_cons.
  - destruct u as [|c' u]; [reflexivity|].
    change (clean_tail is_space (String c (String c' u)))
      with (clean_tail is_space (String c' u)).
    rewrite <- IH, replace_slash_step.
    destruct (Ascii.eqb c' "/"); reflexivity.
Qed.

Lemma drive_rooted_shape u :
  drive_rooted (String "/" u) = true ->
  exists d u', u = String d (String ":" (String "/" u')) /\ is_alpha d = true.
Proof.
  destruct u as [|d u]; [discriminate|].
  destruct u as [|c2 u]; [discriminate|].
  destruct c2 as [[] [] [] [] [] [] [] []]; try discriminate.
  destruct u as [|c3 u]; [discriminate|].
  destruct c3 as [[] [] [] [] [] [] [] []]; try discriminate.
  intros H. exists d, u. split; [reflexivity|exact H].
Qed.

Lemma urlsplit_file_url h rest :
  all_chars host_char h = true -> all_chars url_char rest = true ->
  urlsplit (file_url h rest) = Ok (mkSplit "file" h (String "/" rest) "" "").
Proof.
  intros Hh Hrest.
  set (tail := String "/" rest).
  assert (Htail : all_chars url_char tail = true).
  { unfold tail. simpl. exact Hrest. }
  assert (Hhost : forall p, (forall c, host_char c = true -> p c = true) ->
            all_chars p h = true).
  { intros p Hp. now apply (all_chars_impl host_char). }
  assert (Hurl : all_chars url_char (h ++ tail) = true).
  { rewrite all_chars_app, Htail, andb_true_r. apply Hhost.
    intros c Hc. now apply host_char_facts. }
  unfold urlsplit.
  replace (lstrip_by is_c0_or_space (file_url h rest)) with (file_url h rest)
    by reflexivity.
  replace (remove_chars is_tab_or_newline (file_url h rest))
    with ("file://" ++ h ++ tail).
  2:{ symmetry. change (file_url h rest) with ("file://" ++ h ++ tail).
      apply remove_chars_none.
      change (all_chars (fun c => negb (is_tab_or_newline c)) (h ++ tail) = true).
      apply (all_chars_impl url_char); [|assumption].
      intros c Hc. apply negb_true_iff. now apply url_char_facts. }
  replace (split_scheme ("file://" ++ h ++ tail)) with ("file", "//" ++ h ++ tail)
    by reflexivity.
  replace (split_netloc ("//" ++ h ++ tail)) with (Ok (h, tail)).
  2:{ unfold split_netloc.
      replace (startswith ("//" ++ h ++ tail) "//") with true.
      2:{ unfold startswith.
          change ("//" ++ h ++ tail) with (String "/" (String "/" (h ++ tail))).
          rewrite !prefix_cons. simpl. now destruct (h ++ tail). }
      replace (String.substring 2 (String.length ("//" ++ h ++ tail) - 2)
                 ("//" ++ h ++ tail))
        with (String.substring 0 (String.length (h ++ tail) - 0) (h ++ tail))
        by reflexivity.
      replace (String.length (h ++ tail) - 0)%nat with (String.length (h ++ tail))
        by lia.
      rewrite substring_full. unfold tail. rewrite break_at_app.
      - rewrite !has_char_none; [reflexivity| |].
        + apply Hhost. intros c Hc. apply negb_true_iff. now apply host_char_facts.
        + apply Hhost. intros c Hc. apply negb_true_iff. now apply host_char_facts.
      - apply Hhost. intros c Hc. apply negb_true_iff. now apply host_char_facts.
      - reflexivity. }
  cbn [bind]. unfold split_once.
  rewrite (break_at_none (Ascii.eqb "#") tail).
  2:{ apply (all_chars_impl url_char); [|assumption].
      intros c Hc. apply negb_true_iff. now apply url_char_facts. }
  rewrite (break_at_none (Ascii.eqb "?") tail).
  2:{ apply (all_chars_impl url_char); [|assumption].
      intros c Hc. apply negb_true_iff. now apply url_char_facts. }
  reflexivity.
Qed.

(** The conversion of [file://<h>/<rest>], step by step: the decoded path,
    the host put in front of it unless it stands for this machine, the slash
    before a drive letter dropped, the separators replaced. *)
Lemma fileurl_to_path_file_url h rest :
  all_chars host_char h = true -> all_chars url_char rest = true ->
  fileurl_to_path os_sep (file_url h rest)
  = Ok (replace "/" os_sep
          (if this_machine h
           then if drive_rooted (String "/" (unquote rest))
                then unquote rest else String "/" (unquote rest)
           else String "/" (String "/" (h ++ String "/" (unquote rest))))).
Proof.
  intros Hh Hrest. unfold fileurl_to_path.
  replace (truthy (file_url h rest)) with true by reflexivity. cbn [negb].
  rewrite (strip_fixed (file_url h rest)).
  2:{ reflexivity. }
  2:{ change (clean_tail is_space (String "f" ("ile://" ++ h ++ String "/" rest))
              = true).
      apply clean_tail_url_chars; [reflexivity|].
      change (all_chars url_char (h ++ String "/" rest) = true).
      rewrite all_chars_app. simpl. rewrite Hrest, andb_true_r.
      apply (all_chars_impl host_char); [|assumption].
      intros c Hc. now apply host_char_facts. }
  replace (startswith (lower (file_url h rest)) "file:") with true by reflexivity.
  cbn [negb]. rewrite urlsplit_file_url by assumption. cbn [bind path netloc].
  rewrite (unquote_plain_prefix "/") by reflexivity.
  set (u := unquote rest). unfold this_machine.
  destruct (truthy h && negb (String.eqb (lower h) "localhost")) eqn:E.
  - replace (negb (truthy h) || String.eqb (lower h) "localhost") with false.
    2:{ destruct (truthy h), (String.eqb (lower h) "localhost");
          try discriminate E; reflexivity. }
    change ("//" ++ h ++ String "/" u)
      with (String "/" (String "/" (h ++ String "/" u))).
    now rewrite drive_rooted_needs_letter by reflexivity.
  - replace (negb (truthy h) || String.eqb (lower h) "localhost") with true.
    2:{ destruct (truthy h), (String.eqb (lower h) "localhost");
          try discriminate E; reflexivity. }
    destruct (drive_rooted (String "/" u)); [|reflexivity].
    replace (String.substring 1 (String.length (String "/" u) - 1) (String "/" u))
      with (String.substring 0 (String.length u - 0) u) by reflexivity.
    replace (String.length u - 0)%nat with (String.length u) by lia.
    now rewrite substring_full.
Qed.

End Twice.

(** C4 (amended).  On a host whose separator is [/] or [\]:
    normalising twice gives what normalising once gives for every location
    that is not a file URL; and for a file URL [file://<h>/<rest>] (host
    possibly empty, no query or fragment, no space or control character) the
    first pass returns the decoded path (behind the host unless the host
    stands for this machine, without the slash before a drive letter, the
    separators replaced), and the second pass returns that path again
    exactly when the percent-decoded [rest] does not end in whitespace. *)
Theorem fileurl_to_path_twice (os_sep : string) :
  os_sep = "/" \/ os_sep = "\" ->
  (forall p, is_file_url p = false -> twice os_sep p = once os_sep p)
  /\ (forall h rest,
        all_chars host_char h = true -> all_chars url_char rest = true ->
        once os_sep (file_url h rest)
        = Ok (replace "/" os_sep
                (if this_machine h
                 then if drive_rooted (String "/" (unquote rest))
                      then unquote rest else String "/" (unquote rest)
                 else "//" ++ h ++ String "/" (unquote rest)))
        /\ (twice os_sep (file_url h rest) = once os_sep (file_url h rest)
            <-> clean_tail is_space (unquote rest) = true)).
Proof.
  intros Hsep. unfold twice, once. split.
  - intros p Hp. rewrite (fileurl_to_path_plain os_sep p Hp). cbn [bind].
    apply fileurl_to_path_local; [apply strip_idem|exact Hp].
  - intros h rest Hh Hrest.
    rewrite (fileurl_to_path_file_url os_sep h rest Hh Hrest). cbn [bind].
    set (u := unquote rest).
    assert (Hsc : exists sc, os_sep = String sc "" /\ is_space sc = false
                             /\ Ascii.eqb "f" (lower_char sc) = false).
    { destruct Hsep as [-> | ->]; eexists; repeat split. }
    destruct Hsc as [sc [-> [Hsc Hf]]].
    split; [reflexivity|].
    assert (Hfixed : forall q,
              clean_head is_space q = true ->
              startswith (lower q) "file:" = false ->
              clean_tail is_space q = clean_tail is_space u ->
              fileurl_to_path (String sc "") q = Ok q
              <-> clean_tail is_space u = true).
    { intros q Hh' Hf' Ht. rewrite <- Ht. now apply twice_plain. }
    assert (Hhead : forall s,
              clean_head is_space (String sc s) = true
              /\ startswith (lower (String sc s)) "file:" = false).
    { intros s. split; [simpl; now rewrite Hsc|].
      unfold startswith. cbn [lower]. now rewrite prefix_cons, Hf. }
    destruct (this_machine h).
    + destruct (drive_rooted (String "/" u)) eqn:Ed.
      * apply Hfixed; [| |now apply replace_slash_tail].
        -- apply drive_rooted_shape in Ed. destruct Ed as [d [u' [-> Hd]]].
           destruct (alpha_facts d Hd) as [Hurl [_ [Hsl _]]].
           destruct (url_char_facts d Hurl) as [_ [_ [_ Hsp]]].
           rewrite replace_slash_step.
           replace (Ascii.eqb d "/") with false
             by (symmetry; now apply Ascii.eqb_neq).
           simpl. now rewrite Hsp.
        -- apply drive_rooted_shape in Ed. destruct Ed as [d [u' [-> Hd]]].
           destruct (alpha_facts d Hd) as [_ [_ [Hsl _]]].
           rewrite !replace_slash_step.
           replace (Ascii.eqb d "/") with false
             by (symmetry; now apply Ascii.eqb_neq).
           cbn [Ascii.eqb Bool.eqb]. unfold startswith. cbn [lower].
           rewrite !prefix_cons.
           destruct (Ascii.eqb "f" (lower_char d)); reflexivity.
      * rewrite replace_slash_step. cbn [Ascii.eqb Bool.eqb].
        change (String sc "" ++ replace "/" (String sc "") u)
          with (String sc (replace "/" (String sc "") u)).
        destruct (Hhead (replace "/" (String sc "") u)) as [H1 H2].
        apply Hfixed; [exact H1|exact H2|].
        rewrite clean_tail_cons by assumption. now apply replace_slash_tail.
    + rewrite !replace_slash_step. cbn [Ascii.eqb Bool.eqb].
      rewrite replace_slash_plain.
      2:{ apply (all_chars_impl host_char); [|assumption].
          intros c Hc. apply negb_true_iff. now apply host_char_facts. }
      rewrite replace_slash_step. cbn [Ascii.eqb Bool.eqb].
      change (String sc "" ++ String sc "" ++ h
              ++ String sc "" ++ replace "/" (String sc "") u)
        with (String sc (String sc (h ++ String sc (replace "/" (String sc "") u)))).
      destruct (Hhead (String sc (h ++ String sc (replace "/" (String sc "") u))))
        as [H1 H2].
      apply Hfixed; [exact H1|exact H2|].
      rewrite !clean_tail_cons by assumption.
      rewrite clean_tail_app, clean_tail_cons by assumption.
      now apply replace_slash_tail.
Qed.

Lemma fileurl_to_path_twice_witness :
  twice "\" "  D:\Music\a.mp3 " = once "\" "  D:\Music\a.mp3 "
  /\ (once "\" "file://localhost/D:/Music/a%20b.mp3" = Ok "D:\Music\a b.mp3"
      /\ (twice "\" "file://localhost/D:/Music/a%20b.mp3"
          = once "\" "file://localhost/D:/Music/a%20b.mp3"
          <-> clean_tail is_space (unquote "D:/Music/a%20b.mp3") = true))
  /\ (once "\" "file:///Music/a%20" = Ok "\Music\a "
      /\ (twice "\" "file:///Music/a%20" = once "\" "file:///Music/a%20"
          <-> clean_tail is_space (unquote "Music/a%20") = true)).
Proof.
  destruct (fileurl_to_path_twice "\" (or_intror eq_refl)) as [Hplain Hurl].
  split; [apply Hplain; reflexivity|]. split.
  - apply (Hurl "localhost" "D:/Music/a%20b.mp3"); reflexivity.
  - apply (Hurl "" "Music/a%20"); reflexivity.
Defined.

(** Both passes on literals: a native path, URLs that are stable, and URLs
    whose decoded path ends in a space. *)
Example twice_literals :
  twice "\" "  D:\Music\a.mp3 " = Ok "D:\Music\a.mp3"
  /\ twice "\" "file://localhost/D:/Music/a%20b.mp3" = Ok "D:\Music\a b.mp3"
  /\ once "\" "file://localhost/D:/Music/a%20b.mp3" = Ok "D:\Music\a b.mp3"
  /\ twice "/" "file://nas/Music/a.mp3" = Ok "//nas/Music/a.mp3"
  /\ once "/" "file://nas/Music/a.mp3" = Ok "//nas/Music/a.mp3"
  /\ once "/" "file:///Music/a%20" = Ok "/Music/a "
  /\ twice "/" "file:///Music/a%20" = Ok "/Music/a".
Proof. repeat split. Qed.

(** ** Quality issues *)

Section Quality.

Implicit Types (t : Track) (r : IssueRow) (s : string).

Lemma collapsed_no_double_space s : forall (prev : bool),
  collapsed is_space prev s = true -> contains s "  " = false.
Proof.
  induction s as [|c s IH]; intros prev H; [reflexivity|].
  change (contains (String c s) "  ")
    with (String.prefix "  " (String c s) || contains s "  ").
  assert (Hs : contains s "  " = false).
  { simpl in H. destruct (is_space c).
    - apply andb_true_iff in H. destruct H as [_ H]. now apply (IH true).
    - now apply (IH false). }
  rewrite Hs, orb_false_r.
  change "  " with (String " " (String " " "")). rewrite prefix_cons.
  destruct (Ascii.eqb " " c) eqn:Ec; [|reflexivity].
  apply Ascii.eqb_eq in Ec. subst c. simpl in H.
  apply andb_true_iff in H. destruct H as [_ H].
  destruct s as [|c' s]; [reflexivity|]. rewrite prefix_cons.
  destruct (Ascii.eqb " " c') eqn:Ec'; [|reflexivity].
  apply Ascii.eqb_eq in Ec'. subst c'. simpl in H. discriminate H.
Qed.

Lemma clean_tail_no_trailing_space s :
  clean_tail is_space s = true -> endswith s " " = false.
Proof.
  induction s as [|c s IH]; [reflexivity|]. intros H.
  change (endswith (String c s) " ")
    with (String.eqb (String c s) " " || endswith s " ").
  destruct s as [|c' s].
  - simpl in H. apply negb_true_iff in H.
    destruct (Ascii.eqb_spec c " ") as [->|Hne]; [discriminate H|].
    simpl. apply Ascii.eqb_neq in Hne. now rewrite Hne.
  - rewrite (IH H), orb_false_r. simpl. now destruct (Ascii.eqb c " ").
Qed.

Lemma normalised_text_is_tidy s :
  norm_ws s = s -> contains s "  " = false /\ endswith s " " = false.
Proof.
  intros H. rewrite <- H. split.
  - apply (collapsed_no_double_space _ false).
    apply collapsed_strip, collapsed_sub_runs. reflexivity.
  - apply clean_tail_no_trailing_space.
    now destruct (strip_clean (sub_runs is_space false s)).
Qed.

Lemma in_issue_if (cond : bool) (issue : string) t r :
  In r (issue_if cond issue t) -> cond = true /\ r = mkIssue issue t.
Proof. unfold issue_if. destruct cond; [|contradiction]. now intros [<-|[]]. Qed.

(** X19. Quality rows.  Every row is about a track of the list.  The two
    spacing issues are raised only for text that [norm_ws] would change: a
    row "Double spaces in Artist/Title" or "Trailing space in Artist/Title"
    is never produced for a track whose name and artist are both already in
    the form [norm_ws] returns. *)
Theorem spacing_issues_need_untidy_text (low_bitrate_mp3 : Z)
  (tracks : list Track) r :
  In r (quality low_bitrate_mp3 tracks) ->
  In (subject r) tracks
  /\ (norm_ws (name (subject r)) = name (subject r) ->
      norm_ws (artist (subject r)) = artist (subject r) ->
      Issue r <> "Double spaces in Artist/Title"
      /\ Issue r <> "Trailing space in Artist/Title").
Proof.
  unfold quality. intros Hin. apply in_flat_map in Hin.
  destruct Hin as [t [Ht Hr]]. unfold quality_of in Hr.
  repeat (apply in_app_or in Hr; destruct Hr as [Hr|Hr]);
    apply in_issue_if in Hr; destruct Hr as [Hcond ->]; simpl;
    (split; [exact Ht|]); intros Hn Ha;
    try (split; discriminate).
  - destruct (normalised_text_is_tidy _ Hn) as [H1 _].
    destruct (normalised_text_is_tidy _ Ha) as [H2 _].
    rewrite H1, H2 in Hcond. discriminate Hcond.
  - destruct (normalised_text_is_tidy _ Hn) as [_ H1].
    destruct (normalised_text_is_tidy _ Ha) as [_ H2].
    rewrite H1, H2 in Hcond. discriminate Hcond.
Qed.

Lemma spacing_issues_need_untidy_text_witness :
  In track_b [track_a; track_b]
  /\ (norm_ws (name track_b) = name track_b ->
      norm_ws (artist track_b) = artist track_b ->
      "Missing Label" <> "Double spaces in Artist/Title"
      /\ "Missing Label" <> "Trailing space in Artist/Title").
Proof.
  apply (spacing_issues_need_untidy_text 320 [track_a; track_b]
           (mkIssue "Missing Label" track_b)).
  vm_compute. tauto.
Defined.

(** The rows of two tracks: one tidy MP3 below the bitrate bound, one with
    untidy text and no tags. *)
Example quality_sample :
  map Issue
    (quality 320
       [mkTrack "1" "Song" "Art" "" "" "" "Lab" "House" 2020 "" 128 "8A"
          "MP3 File" 0 300 192 44100 "" 0 "" "" "";
        mkTrack "2" "A  b " "" "" "" "" "" "" 0 "" 0 "" "WAV File" 0 0 0 0
          "" 0 "" "" ""])
  = ["Low MP3 bitrate (<320)"; "Missing Artist"; "Missing Genre";
     "Missing Label"; "Missing Year"; "Missing/Zero BPM"; "Missing Key";
     "Double spaces in Artist/Title"; "Trailing space in Artist/Title"].
Proof. reflexivity. Qed.

End Quality.

(** ** Playlist graph: what a row means *)

Section GraphRows.

Implicit Types (tracks : list Track) (playlists : list Playlist) (t : Track)
  (k : string).

Lemma find_pointwise {A : Type} (p q : A -> bool) (l : list A) :
  (forall x, p x = q x) -> find p l = find q l.
Proof.
  intros H. induction l as [|x l IH]; simpl; [reflexivity|].
  now rewrite H, IH.
Qed.

Lemma tracks_by_key_entry tracks k t :
  dict_get k (tracks_by_key tracks) = Some t ->
  k <> "" /\ find_last (fun u => String.eqb (track_id u) k) tracks = Some t.
Proof.
  unfold tracks_by_key.
  rewrite (assigned_last_wins (fun u => truthy (track_id u)) track_id). simpl.
  destruct (find_last _ tracks) as [u|] eqn:E; [|discriminate].
  intros [= ->]. unfold find_last in *.
  assert (Hk : k <> "").
  { apply find_some in E. destruct E as [_ E].
    apply andb_true_iff in E. destruct E as [Hne Heq].
    apply String.eqb_eq in Heq. subst k. now apply truthy_nonempty. }
  split; [exact Hk|]. rewrite <- E. apply find_pointwise. intros x.
  destruct (String.eqb (track_id x) k) eqn:Ex; [|now rewrite andb_false_r].
  apply String.eqb_eq in Ex. apply truthy_nonempty in Hk. now rewrite Ex, Hk.
Qed.

Lemma used_keys_unused playlists k :
  set_mem k (used_keys playlists) = false ->
  forall p, In p playlists -> ~ In k (track_keys p).
Proof.
  unfold used_keys. rewrite used_keys_outer. simpl. intros H p Hp Hk.
  assert (Ht : existsb (fun p => existsb (String.eqb k) (track_keys p)) playlists
               = true).
  { apply existsb_exists. exists p. split; [assumption|].
    apply existsb_exists. exists k. split; [assumption|apply String.eqb_refl]. }
  congruence.
Qed.

Lemma orphan_keys_from (by_key : dict Track) (used : pyset) k :
  In k (map TrackKey (orphan_rows by_key used)) -> In k (map fst by_key).
Proof.
  induction by_key as [|[k' t] d IH]; simpl; [tauto|].
  destruct (negb (set_mem k' used)); simpl.
  - intros [H|H]; [now left|right; now apply IH].
  - intros H. right. now apply IH.
Qed.

Lemma orphan_keys_NoDup (by_key : dict Track) (used : pyset) :
  NoDup (map fst by_key) -> NoDup (map TrackKey (orphan_rows by_key used)).
Proof.
  induction by_key as [|[k t] d IH]; simpl; intros Hnd; [constructor|].
  inversion Hnd as [|? ? Hnotin Hnd']; subst.
  destruct (negb (set_mem k used)); simpl; [|now apply IH].
  constructor; [|now apply IH].
  intros Hin. apply Hnotin. now apply orphan_keys_from in Hin.
Qed.

(** X20. What the rows of the playlist analysis mean.  A broken-reference
    row names a playlist of the list and a key that this playlist lists, and
    no loaded track has that key as a non-empty identifier.  The orphan rows
    have distinct keys; each orphan row has a non-empty key that no playlist
    lists, and carries the fields of the last loaded track with that
    identifier. *)
Theorem playlist_graph_rows_are_sound tracks playlists :
  (forall row, In row (broken_rows (tracks_by_key tracks) playlists) ->
     (exists p, In p playlists /\ pl_path p = PlaylistPath row
                /\ In (MissingTrackKey row) (track_keys p))
     /\ (forall t, In t tracks -> track_id t = MissingTrackKey row ->
           MissingTrackKey row = ""))
  /\ NoDup (map TrackKey (orphan_rows (tracks_by_key tracks) (used_keys playlists)))
  /\ (forall row,
        In row (orphan_rows (tracks_by_key tracks) (used_keys playlists)) ->
        TrackKey row <> ""
        /\ (forall p, In p playlists -> ~ In (TrackKey row) (track_keys p))
        /\ exists t,
             find_last (fun u => String.eqb (track_id u) (TrackKey row)) tracks
             = Some t
             /\ row = mkOrphan (TrackKey row) (track_id t) (artist t) (name t)
                        (location_path t)).
Proof.
  split; [|split].
  - intros row Hin. unfold broken_rows in Hin. apply in_flat_map in Hin.
    destruct Hin as [p [Hp Hin]]. apply in_flat_map in Hin.
    destruct Hin as [k [Hk Hin]].
    destruct (dict_mem k (tracks_by_key tracks)) eqn:E; [contradiction|].
    destruct Hin as [<-|[]]. simpl. split.
    + exists p. auto.
    + intros t Ht Hid. destruct k as [|c k]; [reflexivity|].
      assert (Hmem : dict_mem (String c k) (tracks_by_key tracks) = true).
      { apply tracks_by_key_mem. exists t. repeat split; auto. discriminate. }
      congruence.
  - apply orphan_keys_NoDup. unfold tracks_by_key.
    apply (tracks_by_key_NoDup tracks []). constructor.
  - intros row Hin. unfold orphan_rows in Hin. apply in_flat_map in Hin.
    destruct Hin as [[k t] [Hkt Hin]].
    destruct (set_mem k (used_keys playlists)) eqn:E; [contradiction|].
    destruct Hin as [<-|[]]. simpl.
    apply dict_in_get in Hkt.
    2:{ unfold tracks_by_key. apply (tracks_by_key_NoDup tracks []). constructor. }
    apply tracks_by_key_entry in Hkt. destruct Hkt as [Hne Hlast].
    split; [exact Hne|]. split; [now apply used_keys_unused|].
    exists t. auto.
Qed.

End GraphRows.

(** ** Keys of the two sources *)

Section KeyCompare.

Implicit Types (tracks : list Track) (mik : dict MikEntry) (t : Track)
  (m : MikEntry) (pth : string).

(** X21. For a path present in both mappings the comparison completes and
    reports at most one row for it, whose status is "BPM diff", "Key diff" or
    "BPM diff, Key diff".  When both keys are non-empty (on the MIK side after
    trimming), a row naming the key is reported exactly when the two keys
    differ after [norm_key]; keys that differ only in letter case are not
    reported. *)
Theorem key_difference_is_normalised tracks mik pth t m :
  dict_get pth (rb_paths tracks) = Some t ->
  dict_get pth mik = Some m ->
  exists rows,
    mik_compare tracks mik = Ok rows
    /\ (List.length (rows_for pth rows) <= 1)%nat
    /\ (forall r, In r (rows_for pth rows) ->
          Status r = "BPM diff" \/ Status r = "Key diff"
          \/ Status r = "BPM diff, Key diff")
    /\ (key t <> "" -> strip (m_key m) <> "" ->
        List.length (filter names_key (rows_for pth rows))
        = (if String.eqb (norm_key (strip (m_key m))) (norm_key (key t))
           then 0 else 1)%nat)
    /\ (lower (strip (m_key m)) = lower (key t) ->
        filter names_key (rows_for pth rows) = []).
Proof.
  intros Ht Hm.
  destruct (rows_for_common_path tracks mik pth t m Ht Hm) as [rows [Hrun Hrows]].
  exists rows. split; [assumption|]. rewrite Hrows. unfold diff_rows. simpl.
  rewrite Hm.
  assert (Hb : bpm_status (m_bpm m) t = [] \/ bpm_status (m_bpm m) t = ["BPM diff"]).
  { unfold bpm_status. destruct (_ && _ && _); auto. }
  assert (Hk : key_status (strip (m_key m)) t = []
               \/ key_status (strip (m_key m)) t = ["Key diff"]).
  { unfold key_status. destruct (_ && _ && _); auto. }
  split; [|split; [|split]].
  - destruct (truthy_list _); simpl; lia.
  - intros r Hr.
    destruct Hb as [Eb|Eb], Hk as [Ek|Ek]; rewrite Eb, Ek in Hr; simpl in Hr;
      try contradiction; destruct Hr as [<-|[]]; simpl; auto.
  - intros Hkt Hkm. apply truthy_nonempty in Hkt, Hkm.
    unfold key_status. rewrite Hkt, Hkm. simpl.
    destruct (String.eqb (norm_key (strip (m_key m))) (norm_key (key t))); simpl.
    + rewrite app_nil_r. destruct Hb as [-> | ->]; reflexivity.
    + destruct Hb as [-> | ->]; reflexivity.
  - intros Hl.
    assert (Hsame : norm_key (strip (m_key m)) = norm_key (key t))
      by (unfold norm_key; now rewrite Hl).
    unfold key_status. rewrite Hsame, String.eqb_refl, andb_false_r, app_nil_r.
    destruct Hb as [-> | ->]; reflexivity.
Qed.

Lemma key_difference_is_normalised_witness :
  exists rows,
    mik_compare [track_a] mik_other_spelling = Ok rows
    /\ (List.length (rows_for "d:\music\a.mp3" rows) <= 1)%nat
    /\ (forall r, In r (rows_for "d:\music\a.mp3" rows) ->
          Status r = "BPM diff" \/ Status r = "Key diff"
          \/ Status r = "BPM diff, Key diff")
    /\ (key track_a <> "" -> strip " 8a " <> "" ->
        List.length (filter names_key (rows_for "d:\music\a.mp3" rows))
        = (if String.eqb (norm_key (strip " 8a ")) (norm_key (key track_a))
           then 0 else 1)%nat)
    /\ (lower (strip " 8a ") = lower (key track_a) ->
        filter names_key (rows_for "d:\music\a.mp3" rows) = []).
Proof.
  apply (key_difference_is_normalised [track_a] mik_other_spelling
           "d:\music\a.mp3" track_a
           (mkMikEntry "D:\Music\a.mp3" 128 " 8a " []));
    reflexivity.
Defined.

End KeyCompare.
